(** * PodTrack: the playback-tracking accumulator of [spotifyService.ts]

    A shallow embedding of the episode ledger ([storeEpisode],
    [updateSessionEnd], [getStoredEpisodes], [getRecentlyPlayedEpisodes],
    [clearStoredEpisodes]) and of the polling loop
    ([startPlaybackTracking], its interval callback, [stopPlaybackTracking],
    [getCurrentlyPlaying]) of the class [SpotifyService].

    Modelling conventions.
    - Numbers that the code handles are millisecond counts and epoch
      times: they are integers, modelled in [Z].
    - [new Date().toISOString()] is modelled by the epoch millisecond it
      denotes; [new Date(s).getTime()] then is the identity.  An ISO stamp is
      a non-empty string, hence truthy: [!session.ended_at] is
      "[ended_at] is absent".
    - The value under the key [podtrack_episodes] is a JSON object used as a
      map.  The ledger is an association list that holds the keys in the
      order of their creation.  [Object.values] lists the keys that are
      array indices first, in ascending order, and the other keys after
      them in the order of their creation ([Js.entries]); the sort of
      [getStoredEpisodes] (stable) can expose that order on ties.
    - [window.setInterval] returns a handle greater than zero: [positive].
    - One callback of the interval runs from its first line to its last
      without another one in between (the single suspension point, the
      fetch, is folded into the tick's input). *)

From Stdlib Require Import ZArith List String Bool Lia PeanoNat.
From Stdlib Require Import Sorting.Sorted Sorting.Permutation.
Import ListNotations.
Local Open Scope string_scope.
Local Open Scope list_scope.
Local Open Scope Z_scope.

(** ** JavaScript truthiness and [||] *)

Definition truthy_num (z : Z) : bool := negb (z =? 0).
Definition truthy_str (s : string) : bool := negb (String.eqb s EmptyString).

(** [a || b] on numbers. *)
Definition or_num (a b : Z) : Z := if truthy_num a then a else b.
(** [a || b] on strings. *)
Definition or_str (a b : string) : string := if truthy_str a then a else b.

(** ** Data model *)

(** An element of [StoredEpisode.sessions]. *)
Record Session := mkSession {
  started_at : Z;
  ended_at : option Z;
  s_progress_ms : Z
}.

(** The [show] object of an episode. *)
Record ShowInfo := mkShow {
  show_id : string;
  show_name : string;
  show_publisher : string;
  show_images : list string
}.

(** [interface StoredEpisode extends SpotifyEpisode]. *)
Record StoredEpisode := mkStored {
  e_id : string;
  e_name : string;
  e_description : string;
  duration_ms : Z;
  e_release_date : string;
  e_images : list string;
  e_type : string;
  e_show : ShowInfo;
  played_at : Z;
  progress_ms : Z;
  total_played_ms : Z;
  last_played_at : Z;
  first_played_at : Z;
  sessions : list Session
}.

(** [interface SpotifyEpisode], the reporting shape. *)
Record SpotifyEpisode := mkReported {
  r_id : string;
  r_name : string;
  r_description : string;
  r_duration_ms : Z;
  r_release_date : string;
  r_images : list string;
  r_type : string;
  r_show : ShowInfo;
  r_played_at : Z;
  r_progress_ms : Z;
  r_total_played_ms : Z
}.

(** [playback.item] of the player endpoint ([episodeData : any] in
    [storeEpisode]).  A string field the provider leaves out is the empty
    string, an array it leaves out is the empty array: the code reads those
    fields through [|| ''] and [|| []].  [item_show = None] is a missing [show]
    ([episodeData.show?.id]). *)
Record Item := mkItem {
  item_type : string;
  item_id : string;
  item_name : string;
  item_description : string;
  item_duration_ms : Z;
  item_release_date : string;
  item_images : list string;
  item_show : option ShowInfo
}.

(** The JSON body of the player endpoint, as far as the loop reads it. *)
Record Playback := mkPlayback {
  item : option Item;
  is_playing : bool;
  pb_progress_ms : Z
}.

(** What [fetchWithAuth] can do for [getCurrentlyPlaying]. *)
Inductive Response :=
| NoContent                 (* status 204 *)
| NotOk                     (* any other status with [!response.ok] *)
| OkJson (body : Playback)  (* [response.ok], body parsed *)
| Throws.                   (* no token, network error, bad JSON *)

(** The snapshot is unavailable when the provider answers with an error or
    the request fails. *)
Definition unavailable (r : Response) : bool :=
  match r with NotOk | Throws => true | _ => false end.

(** ** The ledger: [Record<string, StoredEpisode>] *)

Definition Ledger := list (string * StoredEpisode).

(** [episodes[k]]. *)
Fixpoint lookup (k : string) (l : Ledger) : option StoredEpisode :=
  match l with
  | [] => None
  | (k', e) :: r => if String.eqb k k' then Some e else lookup k r
  end.

(** [episodes[k] = e]: in place when [k] is a key, appended otherwise. *)
Fixpoint assign (k : string) (e : StoredEpisode) (l : Ledger) : Ledger :=
  match l with
  | [] => [(k, e)]
  | (k', e') :: r =>
      if String.eqb k k' then (k, e) :: r else (k', e') :: assign k e r
  end.

(** [localStorage] under [STORAGE_KEY].  [writes] is the history of the values
    given to [setItem], newest first; nothing reads it. *)
Record Storage := mkStorage {
  stored : option Ledger;
  writes : list Ledger
}.

Definition setItem (l : Ledger) (ls : Storage) : Storage :=
  {| stored := Some l; writes := l :: writes ls |}.

Definition removeItem (ls : Storage) : Storage :=
  {| stored := None; writes := writes ls |}.

(** [stored ? JSON.parse(stored) : {}]. *)
Definition ledger_of (ls : Storage) : Ledger :=
  match stored ls with Some l => l | None => [] end.

(** ** Sessions of one record *)

(** [sessions[sessions.length - 1]]. *)
Fixpoint last_session (l : list Session) : option Session :=
  match l with
  | [] => None
  | [s] => Some s
  | _ :: r => last_session r
  end.

(** A mutation of the object [sessions[sessions.length - 1]]. *)
Fixpoint update_last (f : Session -> Session) (l : list Session) : list Session :=
  match l with
  | [] => []
  | [s] => [f s]
  | s :: r => s :: update_last f r
  end.

(** [!session.ended_at]. *)
Definition is_open (s : Session) : bool :=
  match ended_at s with None => true | Some _ => false end.

Definition set_session_progress (p : Z) (s : Session) : Session :=
  {| started_at := started_at s; ended_at := ended_at s; s_progress_ms := p |}.

Definition set_ended_at (t : Z) (s : Session) : Session :=
  {| started_at := started_at s; ended_at := Some t;
     s_progress_ms := s_progress_ms s |}.

(** The fields of a record that the ledger operations assign. *)
Definition with_tracking (e : StoredEpisode)
    (progress total last : Z) (ss : list Session) : StoredEpisode :=
  {| e_id := e_id e; e_name := e_name e; e_description := e_description e;
     duration_ms := duration_ms e; e_release_date := e_release_date e;
     e_images := e_images e; e_type := e_type e; e_show := e_show e;
     played_at := played_at e;
     progress_ms := progress; total_played_ms := total;
     last_played_at := last; first_played_at := first_played_at e;
     sessions := ss |}.

(** ** [storeEpisode] *)

Definition storeEpisode (stamp : Z) (episodeData : Item)
    (progress timePlayedMs : Z) (ls : Storage) : Storage :=
  let episodes := ledger_of ls in
  let episodeId := item_id episodeData in
  let now := stamp in
  match lookup episodeId episodes with
  | Some existing =>
      let maxProgress :=
        or_num (item_duration_ms episodeData) (duration_ms existing) in
      let progress' := Z.min progress maxProgress in
      let total' :=
        Z.min (or_num (total_played_ms existing) 0 + timePlayedMs) maxProgress in
      let ongoing :=
        match last_session (sessions existing) with
        | Some currentSession => is_open currentSession
        | None => false
        end in
      let sessions' :=
        if ongoing
        then update_last (set_session_progress (Z.min progress maxProgress))
               (sessions existing)
        else sessions existing ++
               [ {| started_at := now; ended_at := None;
                    s_progress_ms := progress |} ] in
      setItem
        (assign episodeId (with_tracking existing progress' total' now sessions')
           episodes)
        ls
  | None =>
      let show :=
        match item_show episodeData with
        | Some s =>
            {| show_id := or_str (show_id s) EmptyString;
               show_name := or_str (show_name s) EmptyString;
               show_publisher := or_str (show_publisher s) EmptyString;
               show_images := show_images s |}
        | None =>
            {| show_id := EmptyString; show_name := EmptyString;
               show_publisher := EmptyString; show_images := [] |}
        end in
      setItem
        (assign episodeId
           {| e_id := item_id episodeData;
              e_name := item_name episodeData;
              e_description := or_str (item_description episodeData) EmptyString;
              duration_ms := item_duration_ms episodeData;
              e_release_date := or_str (item_release_date episodeData) EmptyString;
              e_images := item_images episodeData;
              e_type := or_str (item_type episodeData) "episode";
              e_show := show;
              played_at := now;
              progress_ms :=
                Z.min progress (or_num (item_duration_ms episodeData) 0);
              total_played_ms :=
                Z.min timePlayedMs (or_num (item_duration_ms episodeData) 0);
              last_played_at := now;
              first_played_at := now;
              sessions :=
                [ {| started_at := now; ended_at := None;
                     s_progress_ms := progress |} ] |}
           episodes)
        ls
  end.

(** ** [updateSessionEnd] *)

Definition updateSessionEnd (stamp : Z) (episodeId : string)
    (finalTimeMs : Z) (ls : Storage) : Storage :=
  match stored ls with
  | None => ls
  | Some episodes =>
      match lookup episodeId episodes with
      | Some episode =>
          match last_session (sessions episode) with
          | Some lastSession =>
              if is_open lastSession then
                let now := stamp in
                let maxProgress := or_num (duration_ms episode) 0 in
                setItem
                  (assign episodeId
                     (with_tracking episode (progress_ms episode)
                        (Z.min
                           (or_num (total_played_ms episode) 0 + finalTimeMs)
                           maxProgress)
                        (last_played_at episode)
                        (update_last (set_ended_at now) (sessions episode)))
                     episodes)
                  ls
              else ls
          | None => ls
          end
      | None => ls
      end
  end.

(** ** The order of the keys of an object

    [Object.keys], [Object.values], [Object.entries] and [JSON.stringify]
    list the own keys of an object that are array indices first, in
    ascending order, and the other keys after them, in the order of their
    creation.  An object is given here by its entries in the order of the
    creation of their keys. *)

Module Js.

(** The value of a decimal digit, and of a string of them. *)
Definition digit (c : Ascii.ascii) : option N :=
  let n := Ascii.N_of_ascii c in
  if (N.leb 48 n && N.leb n 57)%bool then Some (N.sub n 48) else None.

Fixpoint number (s : string) (acc : N) : option N :=
  match s with
  | EmptyString => Some acc
  | String c r =>
      match digit c with
      | Some d => number r (N.add (N.mul 10 acc) d)
      | None => None
      end
  end.

(** The array index that a key is, if it is one: the canonical decimal
    form of an integer from 0 to 2^32 - 2. *)
Definition array_index (s : string) : option N :=
  match s with
  | EmptyString => None
  | String c r =>
      if (N.eqb (Ascii.N_of_ascii c) 48
          && negb (String.eqb r EmptyString))%bool
      then None
      else match number s 0%N with
           | Some n => if N.leb n 4294967294 then Some n else None
           | None => None
           end
  end.

(** Insertion by ascending index. *)
Fixpoint insert_by_index {V : Type} (n : N) (kv : string * V)
    (l : list (N * (string * V))) : list (N * (string * V)) :=
  match l with
  | [] => [(n, kv)]
  | (m, kv') :: r =>
      if N.leb n m then (n, kv) :: (m, kv') :: r
      else (m, kv') :: insert_by_index n kv r
  end.

(** The entries whose keys are array indices, in ascending order. *)
Fixpoint index_entries {V : Type} (o : list (string * V)) : list (N * (string * V)) :=
  match o with
  | [] => []
  | (k, v) :: r =>
      match array_index k with
      | Some n => insert_by_index n (k, v) (index_entries r)
      | None => index_entries r
      end
  end.

(** [Object.entries(o)]. *)
Definition entries {V : Type} (o : list (string * V)) : list (string * V) :=
  map snd (index_entries o)
  ++ filter (fun kv => match array_index (fst kv) with
                       | Some _ => false
                       | None => true
                       end) o.

(** [Object.values(o)]. *)
Definition values {V : Type} (o : list (string * V)) : list V :=
  map snd (entries o).

(** [Object.keys(o)]. *)
Definition keys {V : Type} (o : list (string * V)) : list string :=
  map fst (entries o).

End Js.

(** ** [getStoredEpisodes], [getRecentlyPlayedEpisodes], [clearStoredEpisodes] *)

(** The comparator of the sort:
    [new Date(b.last_played_at).getTime() - new Date(a.last_played_at).getTime()]. *)
Definition by_last_played (a b : StoredEpisode) : Z :=
  last_played_at b - last_played_at a.

(** [Array.prototype.sort] is a stable sort; on a comparator that is a total
    preorder every stable sort returns the same array, here computed by
    insertion. *)
Fixpoint sort_insert (cmp : StoredEpisode -> StoredEpisode -> Z)
    (x : StoredEpisode) (l : list StoredEpisode) : list StoredEpisode :=
  match l with
  | [] => [x]
  | y :: r => if cmp x y <=? 0 then x :: y :: r else y :: sort_insert cmp x r
  end.

Fixpoint array_sort (cmp : StoredEpisode -> StoredEpisode -> Z)
    (l : list StoredEpisode) : list StoredEpisode :=
  match l with
  | [] => []
  | x :: r => sort_insert cmp x (array_sort cmp r)
  end.

Definition getStoredEpisodes (ls : Storage) : list StoredEpisode :=
  match stored ls with
  | None => []
  | Some episodes => array_sort by_last_played (Js.values episodes)
  end.

(** [Array.prototype.slice(0, end)] for an integer [end]: a negative [end]
    counts from the end of the array. *)
Definition slice0 {A : Type} (end_ : Z) (l : list A) : list A :=
  let len := Z.of_nat (List.length l) in
  let k := if end_ <? 0 then Z.max (len + end_) 0 else Z.min end_ len in
  firstn (Z.to_nat k) l.

Definition toSpotifyEpisode (s : StoredEpisode) : SpotifyEpisode :=
  {| r_id := e_id s; r_name := e_name s; r_description := e_description s;
     r_duration_ms := duration_ms s; r_release_date := e_release_date s;
     r_images := e_images s; r_type := e_type s; r_show := e_show s;
     r_played_at := last_played_at s;
     r_progress_ms := progress_ms s;
     r_total_played_ms := total_played_ms s |}.

(** [limit = None] is the call without argument ([limit = 50]). *)
Definition getRecentlyPlayedEpisodes (limit : option Z) (ls : Storage)
    : list SpotifyEpisode :=
  let limit := match limit with Some n => n | None => 50 end in
  let storedEpisodes := getStoredEpisodes ls in
  map toSpotifyEpisode (slice0 limit storedEpisodes).

Definition clearStoredEpisodes (ls : Storage) : Storage := removeItem ls.

(** ** [getCurrentlyPlaying] *)

Definition getCurrentlyPlaying (r : Response) : option Playback :=
  match r with
  | NoContent => None
  | NotOk => None
  | OkJson body => Some body
  | Throws => None
  end.

(** ** The service and the polling loop *)

(** The private fields of [SpotifyService], the store it writes and the
    interval timers that exist in the window. *)
Record State := mkState {
  pollingInterval : option positive;
  lastPollTime : Z;
  lastEpisodeId : option string;
  localStorage : Storage;
  timers : list positive
}.

Definition set_poll (t : Z) (st : State) : State :=
  {| pollingInterval := pollingInterval st; lastPollTime := t;
     lastEpisodeId := lastEpisodeId st; localStorage := localStorage st;
     timers := timers st |}.

Definition set_episode (id : option string) (ls : Storage) (st : State) : State :=
  {| pollingInterval := pollingInterval st; lastPollTime := lastPollTime st;
     lastEpisodeId := id; localStorage := ls; timers := timers st |}.

(** The episode the loop holds as the one being tracked:
    [this.lastEpisodeId] when it is truthy. *)
Definition active (st : State) : option string :=
  match lastEpisodeId st with
  | Some id => if truthy_str id then Some id else None
  | None => None
  end.

(** What one run of the interval callback reads from outside: [Date.now()]
    on entry, the clock that the ledger operations stamp with
    ([new Date()], after the fetch), and the outcome of the fetch. *)
Record TickInput := mkTick {
  now : Z;
  stamp : Z;
  response : Response
}.

(** [if (this.lastEpisodeId) { this.updateSessionEnd(...); this.lastEpisodeId = null; }],
    the block of the "nothing playing" and of the "not an episode" branch. *)
Definition endOngoing (stamp timeSinceLastPoll : Z) (st : State) : State :=
  match active st with
  | Some last =>
      set_episode None
        (updateSessionEnd stamp last timeSinceLastPoll (localStorage st)) st
  | None => st
  end.

(** The callback given to [window.setInterval]. *)
Definition tick (i : TickInput) (st : State) : State :=
  let timeSinceLastPoll := now i - lastPollTime st in
  let st := set_poll (now i) st in
  match getCurrentlyPlaying (response i) with
  | None => endOngoing (stamp i) timeSinceLastPoll st
  | Some playback =>
      match item playback with
      | None => endOngoing (stamp i) timeSinceLastPoll st
      | Some it =>
          let isEpisode := String.eqb (item_type it) "episode" in
          let isPlaying := is_playing playback in
          if isEpisode && isPlaying then
            let progress := or_num (pb_progress_ms playback) 0 in
            let ls :=
              match active st with
              | Some last =>
                  if negb (String.eqb last (item_id it))
                  then updateSessionEnd (stamp i) last timeSinceLastPoll
                         (localStorage st)
                  else localStorage st
              | None => localStorage st
              end in
            set_episode (Some (item_id it))
              (storeEpisode (stamp i) it progress timeSinceLastPoll ls) st
          else if isEpisode && negb isPlaying then
            match lastEpisodeId st with
            | Some last => if String.eqb last (item_id it) then st else st
            | None => st
            end
          else endOngoing (stamp i) timeSinceLastPoll st
      end
  end.

(** [startPlaybackTracking]; [t] is [Date.now()], [h] the handle that
    [window.setInterval] returns. *)
Definition startPlaybackTracking (t : Z) (h : positive) (st : State) : State :=
  match pollingInterval st with
  | Some _ => st
  | None =>
      {| pollingInterval := Some h; lastPollTime := t; lastEpisodeId := None;
         localStorage := localStorage st; timers := h :: timers st |}
  end.

(** [stopPlaybackTracking]. *)
Definition stopPlaybackTracking (st : State) : State :=
  match pollingInterval st with
  | Some h =>
      {| pollingInterval := None; lastPollTime := lastPollTime st;
         lastEpisodeId := lastEpisodeId st; localStorage := localStorage st;
         timers := remove Pos.eq_dec h (timers st) |}
  | None => st
  end.

(** What happens to the service, in order. *)
Inductive Event :=
| Start (t : Z) (h : positive)
| Stop
| Fire (h : positive) (i : TickInput).

Definition step (ev : Event) (st : State) : State :=
  match ev with
  | Start t h => startPlaybackTracking t h st
  | Stop => stopPlaybackTracking st
  | Fire h i => if existsb (Pos.eqb h) (timers st) then tick i st else st
  end.

Fixpoint run (evs : list Event) (st : State) : State :=
  match evs with
  | [] => st
  | ev :: r => run r (step ev st)
  end.

(** The state of a service object when the page has loaded: the field
    initialisers of the class, over whatever the browser has kept. *)
Definition init (ls : Storage) : State :=
  {| pollingInterval := None; lastPollTime := 0; lastEpisodeId := None;
     localStorage := ls; timers := [] |}.

(** ** Observations used by the statements *)

(** The record of episode [k], and its accumulated time. *)
Definition record_of (k : string) (ls : Storage) : option StoredEpisode :=
  lookup k (ledger_of ls).

Definition total_of (k : string) (ls : Storage) : option Z :=
  option_map total_played_ms (record_of k ls).

(** The test of both ledger operations for "the record has an ongoing
    session": its latest session has no [ended_at]. *)
Definition ongoing (e : StoredEpisode) : bool :=
  match last_session (sessions e) with
  | Some s => is_open s
  | None => false
  end.

Definition has_open_session (k : string) (ls : Storage) : bool :=
  match record_of k ls with
  | Some e => ongoing e
  | None => false
  end.

(** Sessions without [ended_at], in one record and in a whole ledger. *)
Definition open_in (e : StoredEpisode) : nat :=
  List.length (filter is_open (sessions e)).

Fixpoint open_count (l : Ledger) : nat :=
  match l with
  | [] => 0%nat
  | (_, e) :: r => (open_in e + open_count r)%nat
  end.

Definition open_sessions (ls : Storage) : nat := open_count (ledger_of ls).

(** What the provider said about the episode, as recorded on first sight. *)
Definition metadata (e : StoredEpisode) :=
  (e_id e, e_name e, e_description e, duration_ms e, e_release_date e,
   e_images e, e_type e, e_show e).

(** The four ways in which the callback reads a response: nothing to track
    ([!playback || !playback.item]), an episode that plays, an episode that
    does not, an item that is no episode. *)
Inductive Snapshot :=
| Nothing
| Playing (it : Item) (progress : Z)
| Paused (it : Item)
| Other (it : Item).

Definition snapshot (r : Response) : Snapshot :=
  match getCurrentlyPlaying r with
  | None => Nothing
  | Some pb =>
      match item pb with
      | None => Nothing
      | Some it =>
          if String.eqb (item_type it) "episode"
          then if is_playing pb
               then Playing it (or_num (pb_progress_ms pb) 0)
               else Paused it
          else Other it
      end
  end.

(** The ledger after the "previous episode ended" step of a tick that stores
    episode [k]: the session of a different active episode is ended. *)
Definition end_previous (stamp timeSinceLastPoll : Z) (k : string) (st : State)
    : Storage :=
  match active st with
  | Some last =>
      if String.eqb last k then localStorage st
      else updateSessionEnd stamp last timeSinceLastPoll (localStorage st)
  | None => localStorage st
  end.

(** A tick is a switch when an episode is active and a different one plays. *)
Definition is_switch (i : TickInput) (st : State) : bool :=
  match active st, snapshot (response i) with
  | Some a, Playing it _ => negb (String.eqb a (item_id it))
  | _, _ => false
  end.

(** The two ledger operations as one assignment each (normal forms, shown
    equal to the operations in [storeEpisode_eq] and [updateSessionEnd_eq]). *)

Definition stored_record (stamp : Z) (it : Item) (progress timePlayedMs : Z)
    (o : option StoredEpisode) : StoredEpisode :=
  match o with
  | Some existing =>
      let maxProgress := or_num (item_duration_ms it) (duration_ms existing) in
      with_tracking existing (Z.min progress maxProgress)
        (Z.min (total_played_ms existing + timePlayedMs) maxProgress)
        stamp
        (if ongoing existing
         then update_last (set_session_progress (Z.min progress maxProgress))
                (sessions existing)
         else sessions existing ++ [mkSession stamp None progress])
  | None =>
      {| e_id := item_id it; e_name := item_name it;
         e_description := item_description it;
         duration_ms := item_duration_ms it;
         e_release_date := item_release_date it;
         e_images := item_images it;
         e_type := or_str (item_type it) "episode";
         e_show :=
           match item_show it with
           | Some s => s
           | None => mkShow EmptyString EmptyString EmptyString []
           end;
         played_at := stamp;
         progress_ms := Z.min progress (item_duration_ms it);
         total_played_ms := Z.min timePlayedMs (item_duration_ms it);
         last_played_at := stamp; first_played_at := stamp;
         sessions := [mkSession stamp None progress] |}
  end.

Definition closed_record (stamp finalTimeMs : Z) (e : StoredEpisode)
    : StoredEpisode :=
  with_tracking e (progress_ms e)
    (Z.min (total_played_ms e + finalTimeMs) (duration_ms e))
    (last_played_at e)
    (update_last (set_ended_at stamp) (sessions e)).


(** ** Sample data for the examples *)

Definition acme : ShowInfo := mkShow "s1" "The Show" "Acme" [].

Definition episode (id : string) (dur : Z) (sh : option ShowInfo) : Item :=
  {| item_type := "episode"; item_id := id; item_name := id;
     item_description := EmptyString; item_duration_ms := dur;
     item_release_date := "2024-01-01"; item_images := [];
     item_show := sh |}.

Definition track (id : string) : Item :=
  {| item_type := "track"; item_id := id; item_name := id;
     item_description := EmptyString; item_duration_ms := 180000;
     item_release_date := EmptyString; item_images := [];
     item_show := None |}.

Definition plays (it : Item) (progress : Z) : Response :=
  OkJson (mkPlayback (Some it) true progress).

Definition holds (it : Item) (progress : Z) : Response :=
  OkJson (mkPlayback (Some it) false progress).

(** A tick at second [s] of the clock. *)
Definition at_second (s : Z) (r : Response) : TickInput :=
  {| now := s * 1000; stamp := s * 1000; response := r |}.

Definition no_storage : Storage := mkStorage None [].

(** The order of [getStoredEpisodes]: the later [last_played_at] first. *)
Definition most_recent_first (a b : StoredEpisode) : Prop :=
  last_played_at b <= last_played_at a.

Definition reported_most_recent_first (a b : SpotifyEpisode) : Prop :=
  r_played_at b <= r_played_at a.

(** Every record of the first store has a record under the same key in the
    second, with the provider's data as first recorded. *)
Definition keeps_metadata (ls ls' : Storage) : Prop :=
  forall k e, record_of k ls = Some e ->
    exists e', record_of k ls' = Some e' /\ metadata e' = metadata e.

(** A listening session: x, then y, then z, then back to y, then silence. *)
Definition sample_run : list Event :=
  [Start 0 1;
   Fire 1 (at_second 10 (plays (episode "x" 60000 (Some acme)) 0));
   Fire 1 (at_second 20 (plays (episode "y" 60000 (Some acme)) 0));
   Fire 1 (at_second 30 (plays (episode "z" 60000 (Some acme)) 0));
   Fire 1 (at_second 40 (plays (episode "y" 60000 (Some acme)) 5000));
   Fire 1 (at_second 50 NoContent)].

Definition sample_store : Storage := localStorage (run sample_run (init no_storage)).

(** ** Invariants of the ledger *)

(** Every record holds duration [dur k] for its key [k] and no more
    accumulated time than that. *)
Definition within_duration (dur : string -> Z) (l : Ledger) : Prop :=
  forall k e, In (k, e) l ->
    duration_ms e = dur k /\ total_played_ms e <= duration_ms e.

(** The provider reports duration [dur k] whenever it reports episode [k]
    as playing. *)
Definition reports (dur : string -> Z) (ev : Event) : Prop :=
  match ev with
  | Fire _ i =>
      match snapshot (response i) with
      | Playing it _ => item_duration_ms it = dur (item_id it)
      | _ => True
      end
  | _ => True
  end.

(** [P] holds of the ledger in [ls] and of every ledger written since
    [ls0]. *)
Definition tracked (P : Ledger -> Prop) (ls0 ls : Storage) : Prop :=
  P (ledger_of ls)
  /\ forall l, In l (writes ls) -> In l (writes ls0) \/ P l.

(** The provider's answer in which episode x has grown. *)
Definition longer_episode_run : list Event :=
  [Start 0 1;
   Fire 1 (at_second 10 (plays (episode "x" 5000 None) 0));
   Fire 1 (at_second 20 (plays (episode "x" 60000 None) 10000))].

(** ** Invariants of a tracking run *)

Definition is_stop (ev : Event) : bool :=
  match ev with Stop => true | _ => false end.

(** [stopPlaybackTracking] is not called. *)
Definition never_stopped (evs : list Event) : bool :=
  forallb (fun ev => negb (is_stop ev)) evs.

(** An episode that the provider reports as playing has a non-empty id (an
    empty one would be falsy in [if (this.lastEpisodeId)]). *)
Definition named (ev : Event) : Prop :=
  match ev with
  | Fire _ i =>
      match snapshot (response i) with
      | Playing it _ => item_id it <> EmptyString
      | _ => True
      end
  | _ => True
  end.

(** No session is open, or one is and it is the latest session of the active
    episode. *)
Definition open_is_active (st : State) : Prop :=
  open_sessions (localStorage st) = 0%nat
  \/ (open_sessions (localStorage st) = 1%nat
      /\ exists k, active st = Some k
                   /\ has_open_session k (localStorage st) = true).

(** The timers of the window are the one the service holds. *)
Definition timers_owned (st : State) : Prop :=
  forall h, In h (timers st) -> pollingInterval st = Some h.

(** While the service holds no timer, no session is open. *)
Definition idle_closed (st : State) : Prop :=
  pollingInterval st = None -> open_sessions (localStorage st) = 0%nat.

Definition at_most_one_open (l : Ledger) : Prop := (open_count l <= 1)%nat.

(** Nothing is playing, or what plays is no episode. *)
Definition nothing_to_track (r : Response) : bool :=
  match snapshot r with
  | Nothing | Other _ => true
  | _ => false
  end.

(** Episode x plays, then tracking is stopped. *)
Definition stopped_run : list Event :=
  [Start 0 1;
   Fire 1 (at_second 10 (plays (episode "x" 60000 None) 0));
   Stop].

(** ... and started again while y plays. *)
Definition restarted_run : list Event :=
  stopped_run ++
  [Start 15000 2;
   Fire 2 (at_second 20 (plays (episode "y" 60000 None) 0))].

(** The invariant of a run that is not stopped. *)
Definition run_invariant (ls0 : Storage) (st : State) : Prop :=
  open_is_active st
  /\ timers_owned st
  /\ idle_closed st
  /\ tracked at_most_one_open ls0 (localStorage st).

(** Tracking has started and the first tick has seen episode x playing. *)
Definition first_tick_run : list Event :=
  [Start 0 1;
   Fire 1 (at_second 10 (plays (episode "x" 60000 None) 0))].

(** The number of sessions in the record of [k]. *)
Definition session_count (k : string) (ls : Storage) : option nat :=
  option_map (fun e => List.length (sessions e)) (record_of k ls).

(** The sessions in the record of [k], none when there is no record. *)
Definition sessions_of (k : string) (ls : Storage) : list Session :=
  match record_of k ls with
  | Some e => sessions e
  | None => []
  end.

(** The accumulated time of episode [k] differs between two stores. *)
Definition total_changed (k : string) (ls ls' : Storage) : Prop :=
  total_of k ls' <> total_of k ls.

(** Episode x plays, then episode y. *)
Definition switch_run : list Event :=
  first_tick_run ++
  [Fire 1 (at_second 20 (plays (episode "y" 60000 None) 0))].

(** ** Further invariants of the ledger *)

(** The keys of the ledger, in the order of their creation.  [Object.keys]
    lists the same keys, those that are array indices first ([Js.keys]). *)
Definition keys (l : Ledger) : list string := map fst l.

(** The key is no array index. *)
Definition no_index (k : string) : bool :=
  match Js.array_index k with
  | Some _ => false
  | None => true
  end.

(** Episodes b and 2 have played; episodes 1 and c play after them. *)
Definition numbered_store : State :=
  run [Start 0 1;
       Fire 1 (at_second 10 (plays (episode "b" 60000 None) 0));
       Fire 1 (at_second 20 (plays (episode "2" 60000 None) 0))]
    (init no_storage).

Definition numbered_run : list Event :=
  [Fire 1 (at_second 30 (plays (episode "1" 60000 None) 0));
   Fire 1 (at_second 40 (plays (episode "c" 60000 None) 0))].

(** Every record sits under its own episode id. *)
Definition keyed_by_id (l : Ledger) : Prop :=
  forall k e, In (k, e) l -> e_id e = k.

(** Session [s] is the [n]-th of record [e] and is out of reach of the
    ledger operations: it has ended, or a later session follows it. *)
Definition settled (n : nat) (s : Session) (e : StoredEpisode) : Prop :=
  nth_error (sessions e) n = Some s
  /\ (is_open s = false \/ (S n < List.length (sessions e))%nat).

(** The sessions are in the order of their start, none begins or ends after
    [T], and none ends before it begins. *)
Fixpoint chronological (T : Z) (ss : list Session) : Prop :=
  match ss with
  | [] => True
  | s :: r =>
      started_at s <= T
      /\ match ended_at s with
         | Some t => started_at s <= t /\ t <= T
         | None => True
         end
      /\ Forall (fun s' => started_at s <= started_at s') r
      /\ chronological T r
  end.

Definition chronological_ledger (T : Z) (l : Ledger) : Prop :=
  forall k e, In (k, e) l -> chronological T (sessions e).

(** The clock of the ledger operations does not run backwards: the stamps
    of the ticks are in non-decreasing order, from [T] on. *)
Fixpoint stamps_from (T : Z) (evs : list Event) : Prop :=
  match evs with
  | [] => True
  | Fire _ i :: r => T <= stamp i /\ stamps_from (stamp i) r
  | _ :: r => stamps_from T r
  end.

(** The same for [Date.now()] as read by [startPlaybackTracking] and by the
    callback. *)
Fixpoint polls_from (T : Z) (evs : list Event) : Prop :=
  match evs with
  | [] => True
  | Start t _ :: r => T <= t /\ polls_from t r
  | Fire _ i :: r => T <= now i /\ polls_from (now i) r
  | Stop :: r => polls_from T r
  end.

(** The service holds the only timer there is, or there is none. *)
Definition one_timer (st : State) : Prop :=
  match pollingInterval st with
  | Some h => timers st = [h]
  | None => timers st = []
  end.

(** The second store has the keys of the first, and maybe keys that were
    created after them; distinct keys and records under their own ids stay
    so. *)
Definition keys_grow (ls ls' : Storage) : Prop :=
  (NoDup (keys (ledger_of ls)) -> keyed_by_id (ledger_of ls) ->
   NoDup (keys (ledger_of ls')) /\ keyed_by_id (ledger_of ls'))
  /\ exists added, keys (ledger_of ls') = keys (ledger_of ls) ++ added.

(** Every settled session of the first store is a settled session of the
    second, in the same record at the same place. *)
Definition keeps_settled (ls ls' : Storage) : Prop :=
  forall k e n s,
    record_of k ls = Some e -> settled n s e ->
    exists e', record_of k ls' = Some e' /\ settled n s e'.

(** The stamp of the last tick of a course of events that begins at [T]. *)
Fixpoint last_stamp (T : Z) (evs : list Event) : Z :=
  match evs with
  | [] => T
  | Fire _ i :: r => last_stamp (stamp i) r
  | _ :: r => last_stamp T r
  end.

(** Every record of the first store is in the second, with at least the
    accumulated time it had. *)
Definition total_grows (ls ls' : Storage) : Prop :=
  forall k e, record_of k ls = Some e ->
    exists e', record_of k ls' = Some e'
               /\ total_played_ms e <= total_played_ms e'.

(** * The token of the service

    [getStoredToken], [setStoredToken], [clearStoredToken],
    [exchangeCodeForToken], [getValidToken], [refreshAccessToken],
    [fetchWithAuth], [logout], [isAuthenticated] and the request of
    [getCurrentlyPlaying].  These functions read the clock, talk to two
    servers and may throw; the store keeps what they wrote before they threw.
    They are written in a monad of state and failure over the world they act
    on. *)

Declare Scope auth_scope.

Module Auth.

(** [interface SpotifyToken]; a missing [refreshToken] is [None]. *)
Record SpotifyToken := mkToken {
  accessToken : string;
  refreshToken : option string;
  expiresAt : Z
}.

(** [interface AccessTokenResponse]. *)
Record AccessTokenResponse := mkGrant {
  access_token : string;
  token_type : string;
  expires_in : Z;
  refresh_token : option string
}.

(** The body of a rejection, as far as [exchangeCodeForToken] reads it. *)
Record ErrorData := mkErrorData {
  error_description : option string;
  error : option string
}.

(** The constants of [config/spotify] and the environment. *)
Record Config := mkConfig {
  client_id : string;              (* SPOTIFY_CLIENT_ID *)
  client_secret : option string;   (* VITE_SPOTIFY_CLIENT_SECRET *)
  redirect_uri : string            (* REDIRECT_URI *)
}.

Inductive Grant :=
| AuthorizationCode (code : string) (redirect : string)
| RefreshGrant (refresh : string).

(** What the service sends. *)
Inductive Request :=
| TokenRequest (id : string) (secret : option string) (grant : Grant)
| ApiRequest (url : string) (bearer : string).

(** What the token endpoint does with a request: it answers with a grant
    ([response.ok]), it answers with another status and a body that parses
    or does not, or [fetch] or [response.json()] throws. *)
Inductive TokenReply :=
| Granted (data : AccessTokenResponse)
| Rejected (status : Z) (errorData : option ErrorData)
| TokenUnreachable.

(** What the API does with a request: a status and a body, which is the
    playback object when it parses, or [fetch] throws. *)
Inductive ApiReply :=
| Answered (status : Z) (body : option Playback)
| ApiUnreachable.

(** The world of the service: the item [spotify_token] of the local
    storage, the clock (the value of each successive [Date.now()]), the
    requests sent so far, newest first, and the two servers, which answer a
    request in view of all that was sent. *)
Record World := mkWorld {
  token_item : option SpotifyToken;
  clock : nat -> Z;
  reads : nat;
  sent : list Request;
  token_endpoint : list Request -> TokenReply;
  api : list Request -> ApiReply
}.

(** The [throw] statements. *)
Inductive Failure :=
| MissingClientSecret
| MissingClientId
| ExchangeFailed (message : string) (status : Z)
| NoValidToken
| RefreshFailed
| AuthenticationFailed
| FetchFailed.

Inductive Result (A : Type) :=
| Ok (a : A)
| Err (f : Failure).
Arguments Ok {A} a.
Arguments Err {A} f.

Definition M (A : Type) : Type := World -> Result A * World.

Definition ret {A} (a : A) : M A := fun w => (Ok a, w).

Definition throw {A} (f : Failure) : M A := fun w => (Err f, w).

Definition bind {A B} (m : M A) (k : A -> M B) : M B :=
  fun w =>
    match m w with
    | (Ok a, w') => k a w'
    | (Err f, w') => (Err f, w')
    end.

Notation "x <- m ;; k" := (bind m (fun x => k))
  (at level 61, m at next level, right associativity) : auth_scope.
Notation "m ;;; k" := (bind m (fun _ => k))
  (at level 61, right associativity) : auth_scope.
Local Open Scope auth_scope.

(** [Date.now()]. *)
Definition now : M Z :=
  fun w =>
    (Ok (clock w (reads w)),
     {| token_item := token_item w; clock := clock w; reads := S (reads w);
        sent := sent w; token_endpoint := token_endpoint w; api := api w |}).

(** [localStorage.getItem('spotify_token')], parsed. *)
Definition getItem : M (option SpotifyToken) :=
  fun w => (Ok (token_item w), w).

Definition put_token (t : option SpotifyToken) : M unit :=
  fun w =>
    (Ok tt,
     {| token_item := t; clock := clock w; reads := reads w;
        sent := sent w; token_endpoint := token_endpoint w; api := api w |}).

Definition send (r : Request) (w : World) : World :=
  {| token_item := token_item w; clock := clock w; reads := reads w;
     sent := r :: sent w; token_endpoint := token_endpoint w; api := api w |}.

(** [await fetch(SPOTIFY_TOKEN_URL, ...)], with the reading of the body. *)
Definition fetch_token (r : Request) : M TokenReply :=
  fun w =>
    match token_endpoint w (r :: sent w) with
    | TokenUnreachable => (Err FetchFailed, send r w)
    | reply => (Ok reply, send r w)
    end.

(** [await fetch(url, { headers: { Authorization: `Bearer ${token}` } })]. *)
Definition fetch_api (r : Request) : M ApiReply :=
  fun w =>
    match api w (r :: sent w) with
    | ApiUnreachable => (Err FetchFailed, send r w)
    | reply => (Ok reply, send r w)
    end.

(** [response.ok]. *)
Definition ok (status : Z) : bool := (200 <=? status) && (status <=? 299).

(** [token?.refreshToken], when truthy. *)
Definition usable_refresh (t : option SpotifyToken) : option string :=
  match t with
  | Some tk =>
      match refreshToken tk with
      | Some r => if truthy_str r then Some r else None
      | None => None
      end
  | None => None
  end.

Definition getStoredToken : M (option SpotifyToken) :=
  stored <- getItem ;;
  match stored with
  | None => ret None
  | Some token =>
      t <- now ;;
      if t >=? expiresAt token then ret None else ret (Some token)
  end.

Definition setStoredToken (token : SpotifyToken) : M unit :=
  put_token (Some token).

Definition clearStoredToken : M unit := put_token None.

(** [errorData.error_description || errorData.error || errorMessage]. *)
Definition exchange_error_message (errorData : option ErrorData) : string :=
  let errorMessage := "Failed to exchange code for token" in
  match errorData with
  | Some d =>
      match error_description d with
      | Some s => if truthy_str s then s else
                    match error d with
                    | Some s' => or_str s' errorMessage
                    | None => errorMessage
                    end
      | None =>
          match error d with
          | Some s' => or_str s' errorMessage
          | None => errorMessage
          end
      end
  | None => errorMessage
  end.

Definition exchangeCodeForToken (cfg : Config) (code : string)
    : M SpotifyToken :=
  match client_secret cfg with
  | None => throw MissingClientSecret
  | Some clientSecret =>
      if negb (truthy_str clientSecret) then throw MissingClientSecret
      else if negb (truthy_str (client_id cfg)) then throw MissingClientId
      else
        response <-
          fetch_token
            (TokenRequest (client_id cfg) (Some clientSecret)
               (AuthorizationCode code (redirect_uri cfg))) ;;
        match response with
        | Granted data =>
            t <- now ;;
            let token :=
              {| accessToken := access_token data;
                 refreshToken := refresh_token data;
                 expiresAt := t + expires_in data * 1000 - 60000 |} in
            setStoredToken token ;;;
            ret token
        | Rejected status errorData =>
            throw (ExchangeFailed (exchange_error_message errorData) status)
        | TokenUnreachable => throw FetchFailed
        end
  end.

Definition refreshAccessToken (cfg : Config) (refreshToken : string)
    : M SpotifyToken :=
  response <-
    fetch_token
      (TokenRequest (client_id cfg) (client_secret cfg)
         (RefreshGrant refreshToken)) ;;
  match response with
  | Granted data =>
      t <- now ;;
      let token :=
        {| accessToken := access_token data;
           refreshToken :=
             Some (match refresh_token data with
                   | Some r => or_str r refreshToken
                   | None => refreshToken
                   end);
           expiresAt := t + expires_in data * 1000 - 60000 |} in
      setStoredToken token ;;;
      ret token
  | Rejected _ _ =>
      clearStoredToken ;;;
      throw RefreshFailed
  | TokenUnreachable => throw FetchFailed
  end.

Definition getValidToken (cfg : Config) : M string :=
  token <- getStoredToken ;;
  match token with
  | None => throw NoValidToken
  | Some tk =>
      t <- now ;;
      if t >=? expiresAt tk then
        match usable_refresh token with
        | Some r =>
            token' <- refreshAccessToken cfg r ;;
            ret (accessToken token')
        | None => throw NoValidToken
        end
      else ret (accessToken tk)
  end.

Definition fetchWithAuth (cfg : Config) (url : string) : M ApiReply :=
  token <- getValidToken cfg ;;
  response <- fetch_api (ApiRequest url token) ;;
  match response with
  | Answered status _ =>
      if status =? 401 then
        storedToken <- getStoredToken ;;
        match usable_refresh storedToken with
        | Some r =>
            refreshAccessToken cfg r ;;;
            newToken <- getValidToken cfg ;;
            fetch_api (ApiRequest url newToken)
        | None =>
            clearStoredToken ;;;
            throw AuthenticationFailed
        end
      else ret response
  | ApiUnreachable => ret response
  end.

Definition logout : M unit := clearStoredToken.

Definition isAuthenticated : M bool :=
  token <- getStoredToken ;;
  ret (match token with Some _ => true | None => false end).

(** The address of the player endpoint. *)
Definition player_url : string :=
  "https://api.spotify.com/v1/me/player?additional_types=episode,track".

(** What [getCurrentlyPlaying] makes of [fetchWithAuth]: the response as the
    callback of the loop reads it. *)
Definition observe (r : Result ApiReply) : Response :=
  match r with
  | Ok (Answered status body) =>
      if status =? 204 then NoContent
      else if negb (ok status) then NotOk
      else match body with
           | Some pb => OkJson pb
           | None => Throws
           end
  | Ok ApiUnreachable => Throws
  | Err _ => Throws
  end.

(** [getCurrentlyPlaying], with its request. *)
Definition currentlyPlaying (cfg : Config) (w : World)
    : option Playback * World :=
  match fetchWithAuth cfg player_url w with
  | (Ok (Answered status body), w') =>
      if status =? 204 then (None, w')
      else if negb (ok status) then (None, w')
      else (body, w')
  | (Ok ApiUnreachable, w') => (None, w')
  | (Err _, w') => (None, w')
  end.

(** The clock does not run backwards. *)
Definition monotone (w : World) : Prop :=
  forall n m, (n <= m)%nat -> clock w n <= clock w m.

(** The next reading of the clock. *)
Definition time (w : World) : Z := clock w (reads w).

End Auth.

(** ** Sample worlds for the token functions *)

Definition sample_config : Auth.Config :=
  Auth.mkConfig "client" (Some "secret") "https://podtrack.example/".

(** A clock that starts at one million and advances a second per reading. *)
Definition sample_clock (n : nat) : Z := 1000000 + 1000 * Z.of_nat n.

(** A token endpoint that grants an hour, with a new refresh token for a
    code and without one for a refresh. *)
Definition granting (log : list Auth.Request) : Auth.TokenReply :=
  match log with
  | Auth.TokenRequest _ _ (Auth.AuthorizationCode _ _) :: _ =>
      Auth.Granted (Auth.mkGrant "access-1" "Bearer" 3600 (Some "refresh-1"))
  | _ => Auth.Granted (Auth.mkGrant "access-2" "Bearer" 3600 None)
  end.

(** A token endpoint that rejects everything. *)
Definition rejecting (log : list Auth.Request) : Auth.TokenReply :=
  Auth.Rejected 400 (Some (Auth.mkErrorData (Some "invalid_grant") None)).

(** An API that answers every request with "no content". *)
Definition silent_api (log : list Auth.Request) : Auth.ApiReply :=
  Auth.Answered 204 None.

(** An API that rejects the first bearer and accepts any other. *)
Definition picky_api (log : list Auth.Request) : Auth.ApiReply :=
  match log with
  | Auth.ApiRequest _ "access-1" :: _ => Auth.Answered 401 None
  | _ => Auth.Answered 204 None
  end.

Definition fresh_world (endpoint : list Auth.Request -> Auth.TokenReply)
    (api : list Auth.Request -> Auth.ApiReply) : Auth.World :=
  Auth.mkWorld None sample_clock 0 [] endpoint api.

(** The world after a login at the granting endpoint. *)
Definition logged_in (api : list Auth.Request -> Auth.ApiReply) : Auth.World :=
  snd (Auth.exchangeCodeForToken sample_config "code"
         (fresh_world granting api)).

(** The request of [refreshAccessToken]. *)
Definition refresh_request (cfg : Auth.Config) (r : string) : Auth.Request :=
  Auth.TokenRequest (Auth.client_id cfg) (Auth.client_secret cfg)
    (Auth.RefreshGrant r).

(** The stored token, if any, has expired at the next reading of the
    clock. *)
Definition no_valid_token (w : Auth.World) : Prop :=
  match Auth.token_item w with
  | Some tk => Auth.expiresAt tk <= Auth.time w
  | None => True
  end.

(** A world whose token, with its refresh token, expired long ago. *)
Definition stale_world : Auth.World :=
  Auth.mkWorld (Some (Auth.mkToken "access-0" (Some "refresh-0") 5000))
    sample_clock 0 [] granting silent_api.

(** The second world has the servers and the clock of the first. *)
Definition same_outside (w w' : Auth.World) : Prop :=
  Auth.api w' = Auth.api w
  /\ Auth.token_endpoint w' = Auth.token_endpoint w
  /\ Auth.clock w' = Auth.clock w.

(** A world whose token is good for a long time, has no refresh token, and
    is the one that [picky_api] rejects. *)
Definition unrepairable_world : Auth.World :=
  Auth.mkWorld (Some (Auth.mkToken "access-1" None 999999999))
    sample_clock 0 [] rejecting picky_api.

(** * The categories: [categoryService.ts] *)

Module Categories.

(** [interface Category]. *)
Record Category := mkCategory {
  id : string;
  name : string;
  color : string
}.

(** [interface PodcastCategory]. *)
Record PodcastCategory := mkAssignment {
  podcastId : string;
  podcastName : string;
  categoryId : string
}.

(** [Partial<Category>]: the fields that are given. *)
Record Updates := mkUpdates {
  new_id : option string;
  new_name : option string;
  new_color : option string
}.

Definition DEFAULT_CATEGORIES : list Category :=
  [ mkCategory "1" "Education" "#3b82f6";
    mkCategory "2" "Entertainment" "#10b981";
    mkCategory "3" "News" "#f59e0b";
    mkCategory "4" "Science" "#8b5cf6";
    mkCategory "5" "History" "#ef4444";
    mkCategory "6" "Business" "#06b6d4" ].

(** The two items of the local storage, [podtrack_categories] and
    [podtrack_podcast_categories], as the service writes them. *)
Record Store := mkStore {
  categories_item : option (list Category);
  assignments_item : option (list PodcastCategory)
}.

Definition getCategories (s : Store) : list Category :=
  match categories_item s with
  | Some l => l
  | None => DEFAULT_CATEGORIES
  end.

Definition saveCategories (categories : list Category) (s : Store) : Store :=
  {| categories_item := Some categories;
     assignments_item := assignments_item s |}.

Definition addCategory (category : Category) (s : Store) : Store :=
  saveCategories (getCategories s ++ [category]) s.

(** [Array.prototype.findIndex]; [None] is -1. *)
Fixpoint findIndex {A : Type} (p : A -> bool) (l : list A) : option nat :=
  match l with
  | [] => None
  | x :: r =>
      if p x then Some 0%nat
      else match findIndex p r with
           | Some n => Some (S n)
           | None => None
           end
  end.

(** [l[n] = f(l[n])] for an index of the array. *)
Fixpoint update_at {A : Type} (n : nat) (f : A -> A) (l : list A)
    {struct l} : list A :=
  match l, n with
  | [], _ => []
  | x :: r, O => f x :: r
  | x :: r, S m => x :: update_at m f r
  end.

(** [{ ...category, ...updates }]. *)
Definition merge (c : Category) (u : Updates) : Category :=
  {| id := match new_id u with Some v => v | None => id c end;
     name := match new_name u with Some v => v | None => name c end;
     color := match new_color u with Some v => v | None => color c end |}.

Definition updateCategory (categoryId : string) (updates : Updates)
    (s : Store) : Store :=
  let categories := getCategories s in
  match findIndex (fun c => String.eqb (id c) categoryId) categories with
  | Some index =>
      saveCategories (update_at index (fun c => merge c updates) categories) s
  | None => s
  end.

Definition getPodcastCategories (s : Store) : list PodcastCategory :=
  match assignments_item s with
  | Some l => l
  | None => []
  end.

Definition savePodcastCategories (assignments : list PodcastCategory)
    (s : Store) : Store :=
  {| categories_item := categories_item s;
     assignments_item := Some assignments |}.

Definition deleteCategory (categoryId' : string) (s : Store) : Store :=
  let categories := getCategories s in
  let filtered :=
    filter (fun c => negb (String.eqb (id c) categoryId')) categories in
  let s := saveCategories filtered s in
  let assignments := getPodcastCategories s in
  let filteredAssignments :=
    filter (fun a => negb (String.eqb (categoryId a) categoryId'))
      assignments in
  savePodcastCategories filteredAssignments s.

Definition assignCategory (podcastId' podcastName' categoryId' : string)
    (s : Store) : Store :=
  let assignments := getPodcastCategories s in
  let fresh := mkAssignment podcastId' podcastName' categoryId' in
  match findIndex (fun a => String.eqb (podcastId a) podcastId') assignments with
  | Some existingIndex =>
      savePodcastCategories
        (update_at existingIndex (fun _ => fresh) assignments) s
  | None => savePodcastCategories (assignments ++ [fresh]) s
  end.

(** [assignment?.categoryId || null]. *)
Definition getCategoryForPodcast (podcastId' : string) (s : Store)
    : option string :=
  match find (fun a => String.eqb (podcastId a) podcastId')
          (getPodcastCategories s) with
  | Some assignment =>
      if truthy_str (categoryId assignment)
      then Some (categoryId assignment) else None
  | None => None
  end.

Definition removeCategoryAssignment (podcastId' : string) (s : Store) : Store :=
  savePodcastCategories
    (filter (fun a => negb (String.eqb (podcastId a) podcastId'))
       (getPodcastCategories s))
    s.

(** What [handleCategoryChange] of the podcast list does to the store;
    [None] is the [null] of the select box. *)
Definition handleCategoryChange (showId showName : string)
    (categoryId' : option string) (s : Store) : Store :=
  match categoryId' with
  | Some c =>
      if truthy_str c then assignCategory showId showName c s
      else removeCategoryAssignment showId s
  | None => removeCategoryAssignment showId s
  end.

(** The calls of the service that write. *)
Inductive Call :=
| AddCategory (c : Category)
| UpdateCategory (categoryId' : string) (u : Updates)
| DeleteCategory (categoryId' : string)
| AssignCategory (podcastId' podcastName' categoryId' : string)
| RemoveCategoryAssignment (podcastId' : string).

Definition call (c : Call) (s : Store) : Store :=
  match c with
  | AddCategory c => addCategory c s
  | UpdateCategory i u => updateCategory i u s
  | DeleteCategory i => deleteCategory i s
  | AssignCategory p n i => assignCategory p n i s
  | RemoveCategoryAssignment p => removeCategoryAssignment p s
  end.

Fixpoint calls (cs : list Call) (s : Store) : Store :=
  match cs with
  | [] => s
  | c :: r => calls r (call c s)
  end.

(** The store of a browser that has not seen the application. *)
Definition empty : Store := mkStore None None.

End Categories.

(** The podcasts that have an assignment, in the order of the store. *)
Definition assigned (s : Categories.Store) : list string :=
  map Categories.podcastId (Categories.getPodcastCategories s).

(** A store with three assignments. *)
Definition sample_categories : Categories.Store :=
  Categories.calls
    [Categories.AssignCategory "show-a" "A" "1";
     Categories.AssignCategory "show-b" "B" "3";
     Categories.AssignCategory "show-c" "C" "1";
     Categories.AssignCategory "show-a" "A" "2"]
    Categories.empty.

(** * The statistics: [statsService.ts]

    The service counts minutes in a JavaScript object whose keys are
    category ids.  [Object.entries] lists the keys that are array indices
    first, in ascending order, and the other keys after them, in the order
    of their creation; the ids of the default categories are array
    indices. *)

Module Stats.

(** [interface CategoryStats]. *)
Record CategoryStats := mkStats {
  categoryId : string;
  categoryName : string;
  hours : Z;
  minutes : Z;
  totalMinutes : Z
}.

(** [interface TimePeriodStats]. *)
Record TimePeriodStats := mkPeriods {
  day : list CategoryStats;
  week : list CategoryStats;
  month : list CategoryStats;
  allTime : list CategoryStats
}.

(** An object used as a map, in the order in which its keys were
    created. *)
Definition JsObject (V : Type) : Type := list (string * V).

(** [o[k]]. *)
Fixpoint get {V : Type} (k : string) (o : JsObject V) : option V :=
  match o with
  | [] => None
  | (k', v) :: r => if String.eqb k k' then Some v else get k r
  end.

(** [o[k] = v]. *)
Fixpoint set {V : Type} (k : string) (v : V) (o : JsObject V) : JsObject V :=
  match o with
  | [] => [(k, v)]
  | (k', v') :: r =>
      if String.eqb k k' then (k, v) :: r else (k', v') :: set k v r
  end.

(** [Array.prototype.sort] with a comparator, as a stable insertion. *)
Fixpoint sort_insert {A : Type} (cmp : A -> A -> Z) (x : A) (l : list A)
    : list A :=
  match l with
  | [] => [x]
  | y :: r => if cmp x y <=? 0 then x :: y :: r else y :: sort_insert cmp x r
  end.

Fixpoint sort {A : Type} (cmp : A -> A -> Z) (l : list A) : list A :=
  match l with
  | [] => []
  | x :: r => sort_insert cmp x (sort cmp r)
  end.

(** The category of the show of an episode. *)
Definition category_of (s : Categories.Store) (episode : SpotifyEpisode)
    : option string :=
  Categories.getCategoryForPodcast (show_id (r_show episode)) s.

(** The two objects after [categories.forEach]. *)
Definition initial_objects (categories : list Categories.Category)
    : JsObject Z * JsObject string :=
  fold_left
    (fun acc cat =>
       (set (Categories.id cat) 0 (fst acc),
        set (Categories.id cat) (Categories.name cat) (snd acc)))
    categories ([], []).

(** [categoryMinutes] after [episodes.forEach]. *)
Definition count_minutes (s : Categories.Store)
    (episodes : list SpotifyEpisode) (categoryMinutes : JsObject Z)
    : JsObject Z :=
  fold_left
    (fun acc episode =>
       match category_of s episode with
       | Some categoryId =>
           let durationMinutes := r_duration_ms episode / 60000 in
           let current :=
             match get categoryId acc with
             | Some m => or_num m 0
             | None => 0
             end in
           set categoryId (current + durationMinutes) acc
       | None => acc
       end)
    episodes categoryMinutes.

Definition to_stats (categoryNames : JsObject string) (entry : string * Z)
    : CategoryStats :=
  let (categoryId, totalMinutes) := entry in
  {| categoryId := categoryId;
     categoryName :=
       match get categoryId categoryNames with
       | Some n => or_str n "Unknown"
       | None => "Unknown"
       end;
     hours := totalMinutes / 60;
     minutes := Z.rem totalMinutes 60;
     totalMinutes := totalMinutes |}.

Definition calculateStatsForEpisodes (s : Categories.Store)
    (episodes : list SpotifyEpisode) : list CategoryStats :=
  let categories := Categories.getCategories s in
  let categoryMinutes :=
    count_minutes s episodes (fst (initial_objects categories)) in
  let categoryNames := snd (initial_objects categories) in
  sort (fun a b => totalMinutes b - totalMinutes a)
    (filter (fun stat => 0 <? totalMinutes stat)
       (map (to_stats categoryNames) (Js.entries categoryMinutes))).

(** [periodStart] is the time of the date, in milliseconds; the episodes
    are in the reporting shape of [getRecentlyPlayedEpisodes], where
    [played_at] is always there. *)
Definition calculateStatsForPeriod (s : Categories.Store)
    (episodes : list SpotifyEpisode) (periodStart : Z) : list CategoryStats :=
  let filteredEpisodes :=
    filter (fun episode => periodStart <=? r_played_at episode) episodes in
  calculateStatsForEpisodes s filteredEpisodes.

(** [calculateStats]; [now] is the time of [new Date()]. *)
Definition calculateStats (s : Categories.Store) (now : Z)
    (episodes : list SpotifyEpisode) : TimePeriodStats :=
  let oneDayAgo := now - 24 * 60 * 60 * 1000 in
  let oneWeekAgo := now - 7 * 24 * 60 * 60 * 1000 in
  let oneMonthAgo := now - 30 * 24 * 60 * 60 * 1000 in
  {| day := calculateStatsForPeriod s episodes oneDayAgo;
     week := calculateStatsForPeriod s episodes oneWeekAgo;
     month := calculateStatsForPeriod s episodes oneMonthAgo;
     allTime := calculateStatsForEpisodes s episodes |}.

(** [getTotalListeningTime]: hours and minutes. *)
Definition getTotalListeningTime (s : Categories.Store)
    (episodes : list SpotifyEpisode) : Z * Z :=
  let totalMinutes :=
    fold_left
      (fun sum episode =>
         match category_of s episode with
         | Some _ => sum + r_duration_ms episode / 60000
         | None => sum
         end)
      episodes 0 in
  (totalMinutes / 60, Z.rem totalMinutes 60).

(** [getTotalForPeriod] of the dashboard, for the statistics of a period. *)
Definition getTotalForPeriod (periodStats : list CategoryStats) : Z * Z :=
  let totalMinutes :=
    fold_left (fun sum stat => sum + totalMinutes stat) periodStats 0 in
  (totalMinutes / 60, Z.rem totalMinutes 60).

(** The whole minutes of the episodes of category [c], episode by
    episode. *)
Fixpoint category_minutes (s : Categories.Store) (c : string)
    (episodes : list SpotifyEpisode) : Z :=
  match episodes with
  | [] => 0
  | episode :: r =>
      (match category_of s episode with
       | Some c' => if String.eqb c' c then r_duration_ms episode / 60000 else 0
       | None => 0
       end) + category_minutes s c r
  end.

(** The minutes that a list of statistics shows for category [c]. *)
Definition shown (c : string) (stats : list CategoryStats) : Z :=
  match find (fun stat => String.eqb (categoryId stat) c) stats with
  | Some stat => totalMinutes stat
  | None => 0
  end.

End Stats.

(** The sum of the minutes of a list of statistics. *)
Definition sum_minutes (stats : list Stats.CategoryStats) : Z :=
  fold_right (fun stat sum => Stats.totalMinutes stat + sum) 0 stats.

(** The sum of the values of an object. *)
Definition sum_values (o : Stats.JsObject Z) : Z :=
  fold_right (fun kv sum => snd kv + sum) 0 o.

(** The whole minutes of all episodes that have a category. *)
Fixpoint categorised_minutes (s : Categories.Store)
    (episodes : list SpotifyEpisode) : Z :=
  match episodes with
  | [] => 0
  | episode :: r =>
      (match Stats.category_of s episode with
       | Some _ => r_duration_ms episode / 60000
       | None => 0
       end) + categorised_minutes s r
  end.

(** No episode has a negative duration. *)
Definition durations_nonnegative (episodes : list SpotifyEpisode) : Prop :=
  Forall (fun episode => 0 <= r_duration_ms episode) episodes.

(** Three episodes of two hours, half an hour and ninety seconds, of shows
    a, b and a. *)
Definition sample_episodes : list SpotifyEpisode :=
  [ mkReported "e1" "One" EmptyString 7200000 "2024-01-01" [] "episode"
      (mkShow "show-a" "A" "Acme" []) 1700000000000 5000 5000;
    mkReported "e2" "Two" EmptyString 1800000 "2024-01-02" [] "episode"
      (mkShow "show-b" "B" "Acme" []) 1699000000000 0 0;
    mkReported "e3" "Three" EmptyString 90000 "2024-01-03" [] "episode"
      (mkShow "show-a" "A" "Acme" []) 1690000000000 90000 90000;
    mkReported "e4" "Four" EmptyString 600000 "2024-01-04" [] "episode"
      (mkShow "show-z" "Z" "Acme" []) 1700000000000 0 0 ].

(** The value under a key of an object of numbers, 0 when there is none. *)
Definition value (c : string) (o : Stats.JsObject Z) : Z :=
  match Stats.get c o with
  | Some v => v
  | None => 0
  end.

(** The later total first. *)
Definition most_minutes_first (a b : Stats.CategoryStats) : Prop :=
  Stats.totalMinutes b <= Stats.totalMinutes a.

(** * Steady listening *)

(** Consecutive callbacks of the interval. *)
Definition ticks (l : list TickInput) (st : State) : State :=
  fold_left (fun st i => tick i st) l st.

(** Every tick of the list sees episode [x] playing, with duration
    [dur]. *)
Definition all_playing (x : string) (dur : Z) (l : list TickInput) : Prop :=
  Forall (fun i => exists it p,
                     snapshot (response i) = Playing it p
                     /\ item_id it = x
                     /\ item_duration_ms it = dur) l.

(** The times of the ticks are in order, from [T] on. *)
Fixpoint in_order (T : Z) (l : list TickInput) : Prop :=
  match l with
  | [] => True
  | i :: r => T <= now i /\ in_order (now i) r
  end.

(** The time of the last tick of a list that begins at [T]. *)
Definition last_now (T : Z) (l : list TickInput) : Z :=
  fold_left (fun _ i => now i) l T.

(** The accumulated time of episode [k], 0 when it has no record. *)
Definition played (k : string) (ls : Storage) : Z :=
  match total_of k ls with
  | Some t => t
  | None => 0
  end.

(** * The podcast list: episodes grouped by show *)

Module PodcastList.

(** A value of [groupedEpisodes]: [{ show, episodes }]. *)
Record Group := mkGroup {
  show : ShowInfo;
  episodes : list SpotifyEpisode
}.

(** The body of the [reduce] of [groupedEpisodes]: a show seen for the
    first time gets a group without episodes, then the episode is pushed on
    the group of its show.  The keys that an object inherits from
    [Object.prototype] are not modelled. *)
Definition add_episode (acc : Stats.JsObject Group) (episode : SpotifyEpisode)
    : Stats.JsObject Group :=
  let showId := show_id (r_show episode) in
  let acc :=
    match Stats.get showId acc with
    | Some _ => acc
    | None => Stats.set showId (mkGroup (r_show episode) []) acc
    end in
  match Stats.get showId acc with
  | Some g => Stats.set showId (mkGroup (show g) (episodes g ++ [episode])) acc
  | None => acc
  end.

(** [groupedEpisodes]. *)
Definition groupedEpisodes (l : list SpotifyEpisode) : Stats.JsObject Group :=
  fold_left add_episode l [].

(** [Object.values(groupedEpisodes)], the cards of the list. *)
Definition cards (l : list SpotifyEpisode) : list Group :=
  map snd (Js.entries (groupedEpisodes l)).

(** [getMaxMinutes] of the statistics dashboard. *)
Definition getMaxMinutes (periodStats : list Stats.CategoryStats) : Z :=
  match map Stats.totalMinutes periodStats with
  | [] => 1
  | m :: r => fold_left Z.max r m
  end.

End PodcastList.

(** The episodes of a show, in the order of the list. *)
Definition of_show (k : string) (l : list SpotifyEpisode) : list SpotifyEpisode :=
  filter (fun e => String.eqb (show_id (r_show e)) k) l.

(** The group that the episodes of one show make. *)
Definition group_of (l : list SpotifyEpisode) : option PodcastList.Group :=
  match l with
  | [] => None
  | e :: _ => Some (PodcastList.mkGroup (r_show e) l)
  end.

(** The episodes of all the groups of an object, group after group. *)
Definition flat (o : Stats.JsObject PodcastList.Group) : list SpotifyEpisode :=
  List.concat (map (fun kv => PodcastList.episodes (snd kv)) o).

(** * The dates of a record *)

(** The starts of the sessions of a record, in their order. *)
Definition starts (e : StoredEpisode) : list Z := map started_at (sessions e).

(** Every record of the first store is in the second with the dates of
    its first play, and with the starts of its sessions, maybe followed by
    the starts of later ones. *)
Definition dates_kept (ls ls' : Storage) : Prop :=
  forall k e, record_of k ls = Some e ->
    exists e', record_of k ls' = Some e'
               /\ first_played_at e' = first_played_at e
               /\ played_at e' = played_at e
               /\ exists added, starts e' = starts e ++ added.

(** The record has a first session, and it started when the record was
    made. *)
Definition born (e : StoredEpisode) : Prop :=
  played_at e = first_played_at e
  /\ exists later, starts e = first_played_at e :: later.

Definition born_ledger (ls : Storage) : Prop :=
  forall k e, record_of k ls = Some e -> born e.

Definition keeps_dates (ls ls' : Storage) : Prop :=
  dates_kept ls ls' /\ (born_ledger ls -> born_ledger ls').
(** ** Basic facts *)

Lemma or_num_0_r (a : Z) : or_num a 0 = a.
Proof.
  unfold or_num, truthy_num. destruct (Z.eqb_spec a 0); simpl; congruence.
Qed.

Lemma lookup_assign_same (k : string) (e : StoredEpisode) (l : Ledger) :
  lookup k (assign k e l) = Some e.
Proof.
  induction l as [|[k' e'] r IH]; simpl.
  - now rewrite String.eqb_refl.
  - destruct (String.eqb k k') eqn:E; simpl; rewrite ?E; auto.
    now rewrite String.eqb_refl.
Qed.

Lemma lookup_assign_other (k k' : string) (e : StoredEpisode) (l : Ledger) :
  k' <> k -> lookup k' (assign k e l) = lookup k' l.
Proof.
  intros N. induction l as [|[k0 e0] r IH]; simpl.
  - destruct (String.eqb_spec k' k); congruence.
  - destruct (String.eqb_spec k k0) as [->|]; simpl.
    + destruct (String.eqb_spec k' k0); congruence.
    + now rewrite IH.
Qed.

Lemma last_session_app (l : list Session) (s : Session) :
  last_session (l ++ [s]) = Some s.
Proof.
  induction l as [|x r IH]; simpl; auto.
  destruct (r ++ [s]) eqn:E; auto.
  now destruct r.
Qed.

Lemma last_session_update_last (f : Session -> Session) (l : list Session) :
  last_session (update_last f l) = option_map f (last_session l).
Proof.
  induction l as [|x r IH]; simpl; auto.
  destruct r as [|y r']; simpl in *; auto.
  destruct r'; simpl in *; auto.
Qed.

Lemma length_update_last (f : Session -> Session) (l : list Session) :
  List.length (update_last f l) = List.length l.
Proof.
  induction l as [|x r IH]; simpl; auto.
  destruct r; simpl in *; auto.
Qed.

Lemma or_str_empty (a : string) : or_str a EmptyString = a.
Proof.
  unfold or_str, truthy_str. destruct (String.eqb_spec a EmptyString); simpl; congruence.
Qed.

Lemma storeEpisode_eq stamp it progress t ls :
  storeEpisode stamp it progress t ls =
  setItem
    (assign (item_id it)
       (stored_record stamp it progress t (record_of (item_id it) ls))
       (ledger_of ls))
    ls.
Proof.
  unfold storeEpisode, stored_record, record_of, ongoing.
  destruct (lookup (item_id it) (ledger_of ls)) as [e|]; cbv zeta.
  - rewrite or_num_0_r. reflexivity.
  - rewrite !or_num_0_r, !or_str_empty.
    destruct (item_show it) as [[a b c d]|]; simpl; rewrite ?or_str_empty; reflexivity.
Qed.

Lemma updateSessionEnd_eq stamp k t ls :
  updateSessionEnd stamp k t ls =
  match record_of k ls with
  | Some e =>
      if ongoing e
      then setItem (assign k (closed_record stamp t e) (ledger_of ls)) ls
      else ls
  | None => ls
  end.
Proof.
  unfold updateSessionEnd, record_of, ledger_of, ongoing, closed_record.
  destruct (stored ls) as [l|]; simpl; auto.
  destruct (lookup k l) as [e|]; auto.
  destruct (last_session (sessions e)) as [s|]; auto.
  destruct (is_open s); auto.
  now rewrite !or_num_0_r.
Qed.

Lemma ledger_of_setItem l ls : ledger_of (setItem l ls) = l.
Proof. reflexivity. Qed.

Lemma record_of_setItem k l ls : record_of k (setItem l ls) = lookup k l.
Proof. reflexivity. Qed.

Lemma record_of_store_same stamp it p t ls :
  record_of (item_id it) (storeEpisode stamp it p t ls) =
  Some (stored_record stamp it p t (record_of (item_id it) ls)).
Proof.
  rewrite storeEpisode_eq, record_of_setItem. apply lookup_assign_same.
Qed.

Lemma record_of_store_other stamp it p t ls k :
  k <> item_id it ->
  record_of k (storeEpisode stamp it p t ls) = record_of k ls.
Proof.
  intros N. rewrite storeEpisode_eq, record_of_setItem.
  now apply lookup_assign_other.
Qed.

Lemma record_of_close_same stamp k t ls :
  record_of k (updateSessionEnd stamp k t ls) =
  option_map (fun e => if ongoing e then closed_record stamp t e else e)
    (record_of k ls).
Proof.
  rewrite updateSessionEnd_eq.
  destruct (record_of k ls) as [e|] eqn:E; simpl; auto.
  destruct (ongoing e); auto.
  rewrite record_of_setItem. apply lookup_assign_same.
Qed.

Lemma record_of_close_other stamp k t ls k' :
  k' <> k -> record_of k' (updateSessionEnd stamp k t ls) = record_of k' ls.
Proof.
  intros N. rewrite updateSessionEnd_eq.
  destruct (record_of k ls) as [e|]; auto.
  destruct (ongoing e); auto.
  rewrite record_of_setItem. now apply lookup_assign_other.
Qed.

(** The callback, branch by branch. *)
Lemma tick_eq (i : TickInput) (st : State) :
  tick i st =
  let dt := now i - lastPollTime st in
  let st1 := set_poll (now i) st in
  match snapshot (response i) with
  | Nothing | Other _ => endOngoing (stamp i) dt st1
  | Playing it p =>
      set_episode (Some (item_id it))
        (storeEpisode (stamp i) it p dt
           (end_previous (stamp i) dt (item_id it) st1))
        st1
  | Paused _ => st1
  end.
Proof.
  unfold tick, snapshot, end_previous. cbv zeta.
  destruct (getCurrentlyPlaying (response i)) as [pb|]; auto.
  destruct (item pb) as [it|]; auto.
  destruct (String.eqb (item_type it) "episode"); simpl; auto.
  destruct (is_playing pb); simpl.
  - destruct (active (set_poll (now i) st)) as [a|]; auto.
    destruct (String.eqb a (item_id it)); auto.
  - destruct (lastEpisodeId st) as [a|]; auto.
    destruct (String.eqb a (item_id it)); auto.
Qed.

Lemma active_set_poll t st : active (set_poll t st) = active st.
Proof. reflexivity. Qed.

Lemma endOngoing_storage stamp dt st :
  localStorage (endOngoing stamp dt st) =
  match active st with
  | Some a => updateSessionEnd stamp a dt (localStorage st)
  | None => localStorage st
  end.
Proof. unfold endOngoing. now destruct (active st). Qed.

(** ** C9: closing without an open session *)

(** C9. [updateSessionEnd] returns without writing, and so leaves the whole
    ledger (accumulated times included) as it was, when the store is empty,
    when the episode id has no record, and when the record has no session or
    its latest session already has an [ended_at]. *)
Theorem C9_close_without_open_session :
  forall (stamp : Z) (k : string) (finalTimeMs : Z) (ls : Storage),
    stored ls = None
    \/ (exists l, stored ls = Some l /\ lookup k l = None)
    \/ (exists l e, stored ls = Some l /\ lookup k l = Some e /\
          (sessions e = [] \/
           exists s t, last_session (sessions e) = Some s /\ ended_at s = Some t)) ->
    updateSessionEnd stamp k finalTimeMs ls = ls.
Proof.
  intros stamp k t ls H. unfold updateSessionEnd.
  destruct H as [H | [(l & H & K) | (l & e & H & K & S)]]; rewrite H; auto.
  - now rewrite K.
  - rewrite K. destruct S as [S | (s & u & S & U)]; rewrite S; simpl; auto.
    unfold is_open. now rewrite U.
Qed.

Lemma C9_close_without_open_session_witness :
  updateSessionEnd 20000 "x" 10000 no_storage = no_storage.
Proof.
  apply C9_close_without_open_session. left. reflexivity.
Defined.

(** The same for a record whose latest session is ended: nothing moves. *)
Example close_twice :
  let ls := storeEpisode 0 (episode "x" 60000 None) 0 0 no_storage in
  let ls1 := updateSessionEnd 10000 "x" 10000 ls in
  updateSessionEnd 20000 "x" 10000 ls1 = ls1
  /\ total_of "x" ls1 = Some 10000.
Proof. split; reflexivity. Qed.

(** ** C10: a second start *)

(** C10. While [pollingInterval] holds a timer, [startPlaybackTracking]
    returns at once: the state is the one before the call, so no timer is
    added and [lastPollTime] and [lastEpisodeId] keep their values. *)
Theorem C10_start_while_active :
  forall (t : Z) (h h0 : positive) (st : State),
    pollingInterval st = Some h0 ->
    startPlaybackTracking t h st = st
    /\ timers (startPlaybackTracking t h st) = timers st
    /\ lastPollTime (startPlaybackTracking t h st) = lastPollTime st
    /\ lastEpisodeId (startPlaybackTracking t h st) = lastEpisodeId st.
Proof.
  intros t h h0 st H. unfold startPlaybackTracking. rewrite H. auto.
Qed.

Lemma C10_start_while_active_witness :
  let st := tick (at_second 10 (plays (episode "x" 60000 None) 0))
              (startPlaybackTracking 0 1 (init no_storage)) in
  startPlaybackTracking 99000 2 st = st
  /\ timers (startPlaybackTracking 99000 2 st) = timers st
  /\ lastPollTime (startPlaybackTracking 99000 2 st) = lastPollTime st
  /\ lastEpisodeId (startPlaybackTracking 99000 2 st) = lastEpisodeId st.
Proof.
  apply (C10_start_while_active 99000 2 1). reflexivity.
Defined.

(** Hence starting is idempotent, whatever the state. *)
Lemma start_idempotent (t1 t2 : Z) (h1 h2 : positive) (st : State) :
  startPlaybackTracking t2 h2 (startPlaybackTracking t1 h1 st) =
  startPlaybackTracking t1 h1 st.
Proof.
  unfold startPlaybackTracking.
  destruct (pollingInterval st) eqn:E; simpl; rewrite ?E; reflexivity.
Qed.

(** ** C6: the active episode is paused *)

(** C6. When the response shows the active episode loaded but not playing,
    the callback touches neither the store nor [lastEpisodeId]: the record of
    the episode is the same, with the same accumulated time and the same
    sessions (the open one neither ended nor advanced). *)
Theorem C6_paused_active_episode :
  forall (i : TickInput) (st : State) (x : string) (it : Item),
    active st = Some x ->
    snapshot (response i) = Paused it ->
    item_id it = x ->
    localStorage (tick i st) = localStorage st
    /\ record_of x (localStorage (tick i st)) = record_of x (localStorage st)
    /\ total_of x (localStorage (tick i st)) = total_of x (localStorage st)
    /\ has_open_session x (localStorage (tick i st)) =
       has_open_session x (localStorage st)
    /\ active (tick i st) = Some x.
Proof.
  intros i st x it A S _. rewrite tick_eq. cbv zeta. rewrite S.
  rewrite active_set_poll. auto.
Qed.

Lemma C6_paused_active_episode_witness :
  let st := tick (at_second 10 (plays (episode "x" 60000 None) 0))
              (startPlaybackTracking 0 1 (init no_storage)) in
  let i := at_second 20 (holds (episode "x" 60000 None) 10000) in
  localStorage (tick i st) = localStorage st
  /\ record_of "x" (localStorage (tick i st)) = record_of "x" (localStorage st)
  /\ total_of "x" (localStorage (tick i st)) = total_of "x" (localStorage st)
  /\ has_open_session "x" (localStorage (tick i st)) =
     has_open_session "x" (localStorage st)
  /\ active (tick i st) = Some "x".
Proof.
  apply (C6_paused_active_episode _ _ "x" (episode "x" 60000 None));
    reflexivity.
Defined.

(** ** C7: recorded metadata stays *)

Lemma keeps_metadata_refl ls : keeps_metadata ls ls.
Proof. intros k e H. eauto. Qed.

Lemma keeps_metadata_trans ls1 ls2 ls3 :
  keeps_metadata ls1 ls2 -> keeps_metadata ls2 ls3 -> keeps_metadata ls1 ls3.
Proof.
  intros A B k e H.
  destruct (A k e H) as (e2 & H2 & M2).
  destruct (B k e2 H2) as (e3 & H3 & M3).
  exists e3. split; congruence.
Qed.

Lemma storeEpisode_keeps_metadata stamp it p t ls :
  keeps_metadata ls (storeEpisode stamp it p t ls).
Proof.
  intros k e H. destruct (String.eqb_spec k (item_id it)) as [->|N].
  - rewrite record_of_store_same, H. eexists; split; reflexivity.
  - rewrite record_of_store_other by assumption. eauto.
Qed.

Lemma updateSessionEnd_keeps_metadata stamp a t ls :
  keeps_metadata ls (updateSessionEnd stamp a t ls).
Proof.
  intros k e H. destruct (String.eqb_spec k a) as [->|N].
  - rewrite record_of_close_same, H. simpl.
    eexists; split; [reflexivity|]. now destruct (ongoing e).
  - rewrite record_of_close_other by assumption. eauto.
Qed.

Lemma end_previous_keeps_metadata stamp dt k st :
  keeps_metadata (localStorage st) (end_previous stamp dt k st).
Proof.
  unfold end_previous. destruct (active st) as [a|].
  - destruct (String.eqb a k).
    + apply keeps_metadata_refl.
    + apply updateSessionEnd_keeps_metadata.
  - apply keeps_metadata_refl.
Qed.

Lemma tick_keeps_metadata i st :
  keeps_metadata (localStorage st) (localStorage (tick i st)).
Proof.
  rewrite tick_eq. cbv zeta.
  destruct (snapshot (response i)) as [|it p|it|it].
  - rewrite endOngoing_storage, active_set_poll.
    destruct (active st); [apply updateSessionEnd_keeps_metadata | apply keeps_metadata_refl].
  - eapply keeps_metadata_trans;
      [apply (end_previous_keeps_metadata (stamp i) (now i - lastPollTime st)
                (item_id it) (set_poll (now i) st))
      | apply storeEpisode_keeps_metadata].
  - apply keeps_metadata_refl.
  - rewrite endOngoing_storage, active_set_poll.
    destruct (active st); [apply updateSessionEnd_keeps_metadata | apply keeps_metadata_refl].
Qed.

Lemma step_keeps_metadata ev st :
  keeps_metadata (localStorage st) (localStorage (step ev st)).
Proof.
  destruct ev as [t h| |h i]; simpl.
  - unfold startPlaybackTracking. destruct (pollingInterval st); apply keeps_metadata_refl.
  - unfold stopPlaybackTracking. destruct (pollingInterval st); apply keeps_metadata_refl.
  - destruct (existsb (Pos.eqb h) (timers st)).
    + apply tick_keeps_metadata.
    + apply keeps_metadata_refl.
Qed.

Lemma run_keeps_metadata evs : forall st,
  keeps_metadata (localStorage st) (localStorage (run evs st)).
Proof.
  induction evs as [|ev r IH]; intros st; simpl.
  - apply keeps_metadata_refl.
  - eapply keeps_metadata_trans; [apply step_keeps_metadata | apply IH].
Qed.

(** C7. Once an episode has a record, no later response changes the
    provider's data in it (name, description, duration, release date, images,
    type, and the show's id, name, publisher and images), whatever the
    response carries in those fields: over any course of starts, stops and
    ticks the record is still there with the metadata first recorded. *)
Theorem C7_recorded_metadata_is_kept :
  forall (evs : list Event) (st : State) (k : string) (e : StoredEpisode),
    record_of k (localStorage st) = Some e ->
    exists e',
      record_of k (localStorage (run evs st)) = Some e'
      /\ metadata e' = metadata e
      /\ show_publisher (e_show e') = show_publisher (e_show e).
Proof.
  intros evs st k e H.
  destruct (run_keeps_metadata evs st k e H) as (e' & H' & M).
  exists e'. repeat split; auto.
  unfold metadata in M. congruence.
Qed.

(** The store right after a first tick that saw episode x of show Acme. *)
Lemma C7_recorded_metadata_is_kept_witness :
  exists e',
    record_of "x"
      (localStorage
         (run [Fire 1 (at_second 20
                         (plays (episode "x" 0
                                   (Some (mkShow EmptyString EmptyString
                                            EmptyString [])))
                            10000))]
            (run [Start 0 1;
                  Fire 1 (at_second 10 (plays (episode "x" 60000 (Some acme)) 0))]
               (init no_storage)))) = Some e'
    /\ metadata e' =
       metadata (stored_record 10000 (episode "x" 60000 (Some acme)) 0 10000 None)
    /\ show_publisher (e_show e') =
       show_publisher
         (e_show (stored_record 10000 (episode "x" 60000 (Some acme)) 0 10000 None)).
Proof.
  apply C7_recorded_metadata_is_kept. reflexivity.
Defined.

(** The scenario of the specification: the publisher was recorded as Acme, a
    later response has an empty publisher, the stored publisher is Acme. *)
Example publisher_remains :
  option_map (fun e => show_publisher (e_show e))
    (record_of "x"
       (localStorage
          (run [Start 0 1;
                Fire 1 (at_second 10 (plays (episode "x" 60000 (Some acme)) 0));
                Fire 1 (at_second 20
                          (plays (episode "x" 0
                                    (Some (mkShow EmptyString EmptyString
                                             EmptyString [])))
                             10000))]
             (init no_storage))))
  = Some "Acme".
Proof. reflexivity. Qed.

(** ** C8: the list of recently played episodes *)

Lemma insert_by_index_perm {V} n (kv : string * V) l :
  Permutation (Js.insert_by_index n kv l) ((n, kv) :: l).
Proof.
  induction l as [|[m kv'] r IH]; simpl; auto.
  destruct (N.leb n m); auto.
  rewrite IH. apply perm_swap.
Qed.

(** [Object.entries] lists every entry once. *)
Lemma entries_perm {V} (o : list (string * V)) : Permutation (Js.entries o) o.
Proof.
  unfold Js.entries. induction o as [|[k v] r IH]; simpl; auto.
  destruct (Js.array_index k) as [n|]; simpl.
  - rewrite insert_by_index_perm. simpl. now constructor.
  - rewrite <- Permutation_middle. now constructor.
Qed.

Lemma values_perm {V} (o : list (string * V)) :
  Permutation (Js.values o) (map snd o).
Proof. unfold Js.values. apply Permutation_map, entries_perm. Qed.

Lemma sort_insert_perm cmp x l : Permutation (sort_insert cmp x l) (x :: l).
Proof.
  induction l as [|y r IH]; simpl; auto.
  destruct (cmp x y <=? 0); auto.
  rewrite IH. apply perm_swap.
Qed.

Lemma array_sort_perm cmp l : Permutation (array_sort cmp l) l.
Proof.
  induction l as [|x r IH]; simpl; auto.
  rewrite sort_insert_perm. now constructor.
Qed.

Lemma getStoredEpisodes_perm ls :
  Permutation (getStoredEpisodes ls) (map snd (ledger_of ls)).
Proof.
  unfold getStoredEpisodes, ledger_of.
  destruct (stored ls); simpl; auto.
  rewrite array_sort_perm. apply values_perm.
Qed.

Lemma sort_insert_sorted x l :
  StronglySorted most_recent_first l ->
  StronglySorted most_recent_first (sort_insert by_last_played x l).
Proof.
  induction 1 as [|y r S IH F]; simpl.
  - repeat constructor.
  - unfold by_last_played at 1.
    destruct (Z.leb_spec (last_played_at y - last_played_at x) 0) as [L|L].
    + constructor; [constructor; assumption|].
      constructor; [unfold most_recent_first; lia|].
      eapply Forall_impl; [|exact F].
      unfold most_recent_first. intros; lia.
    + constructor; auto.
      eapply Permutation_Forall; [symmetry; apply sort_insert_perm|].
      constructor; auto. unfold most_recent_first; lia.
Qed.

Lemma array_sort_sorted l :
  StronglySorted most_recent_first (array_sort by_last_played l).
Proof.
  induction l as [|x r IH]; simpl.
  - constructor.
  - now apply sort_insert_sorted.
Qed.

Lemma StronglySorted_firstn {A} (R : A -> A -> Prop) n : forall l,
  StronglySorted R l -> StronglySorted R (firstn n l).
Proof.
  induction n as [|n IH]; intros l S; simpl.
  - constructor.
  - destruct S as [|x r S F]; constructor; auto.
    apply Forall_forall. intros y Hy.
    rewrite Forall_forall in F. apply F.
    revert Hy. generalize r. clear. induction n as [|n IHn]; intros [|z r]; simpl; try tauto.
    intros [->|H]; auto.
Qed.

Lemma StronglySorted_map_reported l :
  StronglySorted most_recent_first l ->
  StronglySorted reported_most_recent_first (map toSpotifyEpisode l).
Proof.
  induction 1 as [|x r S IH F]; simpl; constructor; auto.
  rewrite Forall_map. eapply Forall_impl; [|exact F]. auto.
Qed.

Lemma slice0_firstn {A} (n : Z) (l : list A) :
  0 <= n -> slice0 n l = firstn (Z.to_nat n) l.
Proof.
  intros H. unfold slice0.
  destruct (Z.ltb_spec n 0); [lia|].
  destruct (Z.le_ge_cases n (Z.of_nat (List.length l))).
  - now rewrite Z.min_l.
  - rewrite Z.min_r by assumption. rewrite Nat2Z.id.
    rewrite firstn_all. symmetry. apply firstn_all2. lia.
Qed.

Lemma slice0_kept {A} (n : Z) (l : list A) :
  slice0 n l =
  firstn (Z.to_nat (if n <? 0 then Z.max (Z.of_nat (List.length l) + n) 0
                    else Z.min n (Z.of_nat (List.length l)))) l.
Proof. reflexivity. Qed.

(** C8 (as the code has it).  [getRecentlyPlayedEpisodes] returns the stored
    records, the most recently played first (by [last_played_at],
    descending), each in the reporting shape: the fields of the record, with
    [last_played_at] as [played_at] and without the sessions.  Of the [n]
    records it returns the first [min limit n] for a limit that is a count,
    which are at most [limit]; for a negative limit it returns the first
    [max (n + limit) 0], all but the last [- limit], as [slice(0, limit)]
    does.  Without an argument the limit is 50. *)
Theorem C8_recently_played_order_and_limit :
  forall (limit : Z) (ls : Storage),
    let records := getStoredEpisodes ls in
    let result := getRecentlyPlayedEpisodes (Some limit) ls in
    let n := Z.of_nat (List.length (ledger_of ls)) in
    let kept := if limit <? 0 then Z.max (n + limit) 0 else Z.min limit n in
    Permutation records (map snd (ledger_of ls))
    /\ StronglySorted most_recent_first records
    /\ result =
       map (fun s =>
              {| r_id := e_id s; r_name := e_name s;
                 r_description := e_description s;
                 r_duration_ms := duration_ms s;
                 r_release_date := e_release_date s;
                 r_images := e_images s; r_type := e_type s;
                 r_show := e_show s;
                 r_played_at := last_played_at s;
                 r_progress_ms := progress_ms s;
                 r_total_played_ms := total_played_ms s |})
         (firstn (Z.to_nat kept) records)
    /\ StronglySorted reported_most_recent_first result
    /\ Z.of_nat (List.length result) = kept
    /\ (0 <= limit ->
        result = map toSpotifyEpisode (firstn (Z.to_nat limit) records)
        /\ Z.of_nat (List.length result) = Z.min limit n
        /\ Z.of_nat (List.length result) <= limit)
    /\ (limit < 0 ->
        Z.of_nat (List.length result) = Z.max (n + limit) 0)
    /\ getRecentlyPlayedEpisodes None ls =
       getRecentlyPlayedEpisodes (Some 50) ls.
Proof.
  intros limit ls records result n kept.
  pose proof (getStoredEpisodes_perm ls) as P. fold records in P.
  assert (S : StronglySorted most_recent_first records).
  { unfold records, getStoredEpisodes.
    destruct (stored ls); [apply array_sort_sorted | constructor]. }
  assert (N : Z.of_nat (List.length records) = n).
  { unfold n. now rewrite (Permutation_length P), length_map. }
  assert (E : result = map toSpotifyEpisode (firstn (Z.to_nat kept) records)).
  { unfold result, getRecentlyPlayedEpisodes. rewrite slice0_kept.
    fold records. now rewrite N. }
  assert (L : Z.of_nat (List.length result) = kept).
  { rewrite E, length_map, length_firstn. unfold kept.
    destruct (Z.ltb_spec limit 0); lia. }
  split; [exact P|]. split; [exact S|]. split; [exact E|].
  split; [rewrite E; apply StronglySorted_map_reported;
          now apply StronglySorted_firstn|].
  split; [exact L|]. split; [|split; [|reflexivity]].
  - intros H. unfold result, getRecentlyPlayedEpisodes.
    rewrite slice0_firstn by assumption. fold records.
    split; [reflexivity|].
    rewrite length_map, length_firstn. lia.
  - intros H. rewrite L. unfold kept.
    destruct (Z.ltb_spec limit 0); [reflexivity | lia].
Qed.

Lemma C8_recently_played_order_and_limit_witness :
  let records := getStoredEpisodes sample_store in
  let result := getRecentlyPlayedEpisodes (Some 2) sample_store in
  map e_id records = ["y"; "z"; "x"]
  /\ result =
     map (fun s =>
            {| r_id := e_id s; r_name := e_name s;
               r_description := e_description s;
               r_duration_ms := duration_ms s;
               r_release_date := e_release_date s;
               r_images := e_images s; r_type := e_type s;
               r_show := e_show s;
               r_played_at := last_played_at s;
               r_progress_ms := progress_ms s;
               r_total_played_ms := total_played_ms s |})
       (firstn 2 records)
  /\ Z.of_nat (List.length result) = 2.
Proof.
  destruct (C8_recently_played_order_and_limit 2 sample_store)
    as (_ & _ & E & _ & L & _).
  split; [reflexivity|]. split; [exact E | exact L].
Defined.

(** C8 as stated fails for a limit that is no count: with three records and
    the limit -1 the list has two entries, more than the limit. *)
Lemma C8_negative_limit_is_no_bound :
  List.length (ledger_of sample_store) = 3%nat
  /\ map r_id (getRecentlyPlayedEpisodes (Some (-1)) sample_store) = ["y"; "z"]
  /\ ~ Z.of_nat (List.length (getRecentlyPlayedEpisodes (Some (-1)) sample_store))
       <= -1.
Proof.
  split; [reflexivity|]. split; [reflexivity|]. vm_compute. intros H. now apply H.
Qed.

(** On the sample store: y was played last, then z, then x. *)
Example recently_played_sample :
  map r_id (getRecentlyPlayedEpisodes (Some 2) sample_store) = ["y"; "z"]
  /\ map r_id (getRecentlyPlayedEpisodes None sample_store) = ["y"; "z"; "x"]
  /\ map r_played_at (getRecentlyPlayedEpisodes None sample_store)
     = [40000; 30000; 10000].
Proof. repeat split; reflexivity. Qed.

(** Without an argument the limit is 50. *)
Lemma getRecentlyPlayedEpisodes_default ls :
  getRecentlyPlayedEpisodes None ls = getRecentlyPlayedEpisodes (Some 50) ls.
Proof. reflexivity. Qed.

(** A negative argument is no count: [slice(0, -1)] drops the last record. *)
Example recently_played_negative :
  map r_id (getRecentlyPlayedEpisodes (Some (-1)) sample_store) = ["y"; "z"].
Proof. reflexivity. Qed.

(** After [clearStoredEpisodes] the list is empty. *)
Lemma clear_then_list ls limit :
  getRecentlyPlayedEpisodes limit (clearStoredEpisodes ls) = [].
Proof.
  unfold getRecentlyPlayedEpisodes, getStoredEpisodes, clearStoredEpisodes. simpl.
  unfold slice0. simpl. now rewrite firstn_nil.
Qed.

(** ** Writes *)

Lemma tracked_start P ls : P (ledger_of ls) -> tracked P ls ls.
Proof. intros H. split; auto. Qed.

Lemma tracked_store P ls0 ls stamp it p t :
  tracked P ls0 ls ->
  P (ledger_of (storeEpisode stamp it p t ls)) ->
  tracked P ls0 (storeEpisode stamp it p t ls).
Proof.
  intros [_ W] H. split; auto.
  intros l. rewrite storeEpisode_eq in *. simpl.
  intros [<-|I]; auto.
Qed.

Lemma tracked_close P ls0 ls stamp k t :
  tracked P ls0 ls ->
  P (ledger_of (updateSessionEnd stamp k t ls)) ->
  tracked P ls0 (updateSessionEnd stamp k t ls).
Proof.
  intros [H0 W] H. split; auto.
  intros l. rewrite updateSessionEnd_eq in *.
  destruct (record_of k ls) as [e|]; auto.
  destruct (ongoing e); auto.
  simpl. intros [<-|I]; auto.
Qed.

Lemma In_assign k e l k' e' :
  In (k', e') (assign k e l) -> (k' = k /\ e' = e) \/ In (k', e') l.
Proof.
  induction l as [|[k0 e0] r IH]; simpl.
  - intros [H|[]]. left. split; congruence.
  - destruct (String.eqb k k0); simpl.
    + intros [H|H]; [left; split; congruence | auto].
    + intros [H|H]; auto. destruct (IH H); auto.
Qed.

Lemma lookup_In k l e : lookup k l = Some e -> In (k, e) l.
Proof.
  induction l as [|[k0 e0] r IH]; simpl; [discriminate|].
  destruct (String.eqb_spec k k0) as [->|N].
  - intros [= ->]. now left.
  - auto.
Qed.

(** ** C3: accumulated time and duration *)

Lemma or_num_same a : or_num a a = a.
Proof. unfold or_num. now destruct (truthy_num a). Qed.

Section Durations.

(** The duration the provider reports for each episode, and the store at the
    start of the course of events. *)
Variable dur : string -> Z.
Variable ls0 : Storage.

Lemma storeEpisode_within stamp it p t ls :
  item_duration_ms it = dur (item_id it) ->
  within_duration dur (ledger_of ls) ->
  within_duration dur (ledger_of (storeEpisode stamp it p t ls)).
Proof.
  intros D G k e. rewrite storeEpisode_eq, ledger_of_setItem.
  intros I. apply In_assign in I. destruct I as [[-> ->]|I]; auto.
  unfold record_of. destruct (lookup (item_id it) (ledger_of ls)) as [x|] eqn:L.
  - apply lookup_In, G in L. destruct L as [L1 L2]. simpl.
    rewrite D, L1, or_num_same. split; [reflexivity | lia].
  - simpl. split; [assumption | lia].
Qed.

Lemma updateSessionEnd_within stamp a t ls :
  within_duration dur (ledger_of ls) ->
  within_duration dur (ledger_of (updateSessionEnd stamp a t ls)).
Proof.
  intros G. rewrite updateSessionEnd_eq. unfold record_of.
  destruct (lookup a (ledger_of ls)) as [x|] eqn:L; auto.
  destruct (ongoing x); auto.
  rewrite ledger_of_setItem. intros k e I.
  apply In_assign in I. destruct I as [[-> ->]|I]; auto.
  apply lookup_In, G in L. destruct L as [L1 L2]. simpl.
  split; [assumption | lia].
Qed.

Lemma tick_within i st :
  match snapshot (response i) with
  | Playing it _ => item_duration_ms it = dur (item_id it)
  | _ => True
  end ->
  tracked (within_duration dur) ls0 (localStorage st) ->
  tracked (within_duration dur) ls0 (localStorage (tick i st)).
Proof.
  intros R T. rewrite tick_eq. cbv zeta.
  assert (C : forall a dt,
             tracked (within_duration dur) ls0
               (updateSessionEnd (stamp i) a dt (localStorage st))).
  { intros a dt. apply tracked_close; auto.
    apply updateSessionEnd_within, T. }
  destruct (snapshot (response i)) as [|it p|it|it]; auto.
  - rewrite endOngoing_storage, active_set_poll. destruct (active st); auto.
  - simpl.
    assert (E : tracked (within_duration dur) ls0
                  (end_previous (stamp i) (now i - lastPollTime st) (item_id it)
                     (set_poll (now i) st))).
    { unfold end_previous. rewrite active_set_poll.
      destruct (active st) as [a|]; auto.
      destruct (String.eqb a (item_id it)); auto. }
    apply tracked_store; auto.
    apply storeEpisode_within; auto. apply E.
  - rewrite endOngoing_storage, active_set_poll. destruct (active st); auto.
Qed.

Lemma step_within ev st :
  reports dur ev ->
  tracked (within_duration dur) ls0 (localStorage st) ->
  tracked (within_duration dur) ls0 (localStorage (step ev st)).
Proof.
  destruct ev as [t h| |h i]; simpl; intros R T.
  - unfold startPlaybackTracking. now destruct (pollingInterval st).
  - unfold stopPlaybackTracking. now destruct (pollingInterval st).
  - destruct (existsb (Pos.eqb h) (timers st)); auto.
    now apply tick_within.
Qed.

Lemma run_within evs : forall st,
  Forall (reports dur) evs ->
  tracked (within_duration dur) ls0 (localStorage st) ->
  tracked (within_duration dur) ls0 (localStorage (run evs st)).
Proof.
  induction evs as [|ev r IH]; intros st F T; simpl; auto.
  inversion F; subst. apply IH; auto. now apply step_within.
Qed.

End Durations.

(** C3 (as the code has it).  Let the provider report one duration per
    episode, [dur k] for episode [k], and let the ledger at the start hold
    those durations and no more accumulated time than they allow.  Then over
    any course of starts, stops and ticks, every record of the ledger has
    [total_played_ms <= duration_ms], and so has every record of every
    ledger written on the way (each session opened, advanced or ended). *)
Theorem C3_total_within_duration :
  forall (dur : string -> Z) (evs : list Event) (st : State),
    Forall (reports dur) evs ->
    within_duration dur (ledger_of (localStorage st)) ->
    (forall k e,
        record_of k (localStorage (run evs st)) = Some e ->
        total_played_ms e <= duration_ms e)
    /\ (forall l k e,
          In l (writes (localStorage (run evs st))) ->
          ~ In l (writes (localStorage st)) ->
          lookup k l = Some e ->
          total_played_ms e <= duration_ms e).
Proof.
  intros dur evs st F G.
  destruct (run_within dur (localStorage st) evs st F (tracked_start _ _ G))
    as [H W].
  split.
  - intros k e L. apply lookup_In in L. now apply H in L.
  - intros l k e I N L. destruct (W l I) as [O|P]; [contradiction|].
    apply lookup_In in L. now apply P in L.
Qed.

Lemma C3_total_within_duration_witness :
  (forall k e,
      record_of k (localStorage (run sample_run (init no_storage))) = Some e ->
      total_played_ms e <= duration_ms e)
  /\ (forall l k e,
        In l (writes (localStorage (run sample_run (init no_storage)))) ->
        ~ In l (writes (localStorage (init no_storage))) ->
        lookup k l = Some e ->
        total_played_ms e <= duration_ms e).
Proof.
  apply (C3_total_within_duration (fun _ => 60000)).
  - unfold sample_run. repeat constructor.
  - intros k e I. destruct I.
Defined.

(** C3 as stated fails: the clamp of [storeEpisode] for a known record is the
    duration in the response, the duration of the record is the one first
    stored.  Episode x is recorded with 5000 ms; ten seconds later the
    provider reports it with 60000 ms; the record then has 15000 ms
    accumulated against a duration of 5000 ms. *)
Lemma C3_total_exceeds_recorded_duration :
  exists e,
    record_of "x" (localStorage (run longer_episode_run (init no_storage))) = Some e
    /\ duration_ms e = 5000
    /\ total_played_ms e = 15000
    /\ ~ total_played_ms e <= duration_ms e.
Proof.
  eexists. split; [reflexivity|].
  vm_compute. repeat split; try reflexivity. intros H. apply H. reflexivity.
Qed.

(** ** Counting open sessions *)

Lemma open_update_last_end t (ss : list Session) s :
  last_session ss = Some s -> is_open s = true ->
  (List.length (filter is_open (update_last (set_ended_at t) ss)) + 1 =
   List.length (filter is_open ss))%nat.
Proof.
  induction ss as [|x r IH]; simpl; [discriminate|].
  destruct r as [|y r'].
  - intros [= ->] O. simpl. now rewrite O.
  - intros L O. specialize (IH L O).
    change (update_last (set_ended_at t) (x :: y :: r'))
      with (x :: update_last (set_ended_at t) (y :: r')).
    simpl filter at 1. destruct (is_open x); simpl in *; lia.
Qed.

Lemma open_update_last_progress p (ss : list Session) :
  List.length (filter is_open (update_last (set_session_progress p) ss)) =
  List.length (filter is_open ss).
Proof.
  induction ss as [|x r IH]; simpl; auto.
  destruct r as [|y r'].
  - simpl. unfold is_open. simpl. now destruct (ended_at x).
  - change (update_last (set_session_progress p) (x :: y :: r'))
      with (x :: update_last (set_session_progress p) (y :: r')).
    simpl filter at 1. destruct (is_open x); simpl in *; lia.
Qed.

Lemma ongoing_open_in e : ongoing e = true -> (1 <= open_in e)%nat.
Proof.
  unfold ongoing, open_in.
  induction (sessions e) as [|x r IH]; simpl; [discriminate|].
  destruct r as [|y r'].
  - intros ->. simpl. lia.
  - intros H. specialize (IH H). destruct (is_open x); simpl in *; lia.
Qed.

Lemma open_count_assign_known k e e' l :
  lookup k l = Some e ->
  (open_count (assign k e' l) + open_in e = open_count l + open_in e')%nat.
Proof.
  induction l as [|[k0 e0] r IH]; simpl; [discriminate|].
  destruct (String.eqb k k0).
  - intros [= ->]. simpl. lia.
  - intros L. specialize (IH L). simpl. lia.
Qed.

Lemma open_count_assign_new k e' l :
  lookup k l = None ->
  open_count (assign k e' l) = (open_count l + open_in e')%nat.
Proof.
  induction l as [|[k0 e0] r IH]; simpl; [lia|].
  destruct (String.eqb k k0); [discriminate|].
  intros L. specialize (IH L). simpl. lia.
Qed.

Lemma lookup_open_count k l e :
  lookup k l = Some e -> (open_in e <= open_count l)%nat.
Proof.
  induction l as [|[k0 e0] r IH]; simpl; [discriminate|].
  destruct (String.eqb k k0).
  - intros [= ->]. lia.
  - intros L. specialize (IH L). lia.
Qed.

Lemma two_open k1 k2 l e1 e2 :
  k1 <> k2 -> lookup k1 l = Some e1 -> lookup k2 l = Some e2 ->
  (open_in e1 + open_in e2 <= open_count l)%nat.
Proof.
  intros N. induction l as [|[k0 e0] r IH]; simpl; [discriminate|].
  destruct (String.eqb_spec k1 k0) as [->|N1];
    destruct (String.eqb_spec k2 k0) as [->|N2]; try congruence.
  - intros [= ->] L. apply lookup_open_count in L. lia.
  - intros L [= ->]. apply lookup_open_count in L. lia.
  - intros L1 L2. specialize (IH L1 L2). lia.
Qed.

Lemma has_open_session_count k ls :
  has_open_session k ls = true -> (1 <= open_sessions ls)%nat.
Proof.
  unfold has_open_session, record_of, open_sessions.
  destruct (lookup k (ledger_of ls)) as [e|] eqn:L; [|discriminate].
  intros O. apply ongoing_open_in in O. apply lookup_open_count in L. lia.
Qed.

Lemma has_open_session_unique k1 k2 ls :
  has_open_session k1 ls = true -> has_open_session k2 ls = true ->
  (open_sessions ls <= 1)%nat -> k1 = k2.
Proof.
  unfold has_open_session, record_of, open_sessions.
  destruct (lookup k1 (ledger_of ls)) as [e1|] eqn:L1; [|discriminate].
  destruct (lookup k2 (ledger_of ls)) as [e2|] eqn:L2; [|discriminate].
  intros O1 O2 C. destruct (String.eqb_spec k1 k2) as [|N]; auto.
  apply ongoing_open_in in O1, O2.
  pose proof (two_open _ _ _ _ _ N L1 L2). lia.
Qed.

(** Ending a session takes one open session away, or nothing happens. *)
Lemma updateSessionEnd_open stamp k t ls :
  if has_open_session k ls
  then (open_sessions (updateSessionEnd stamp k t ls) + 1 = open_sessions ls)%nat
       /\ has_open_session k (updateSessionEnd stamp k t ls) = false
  else updateSessionEnd stamp k t ls = ls.
Proof.
  rewrite updateSessionEnd_eq. unfold has_open_session at 1.
  destruct (record_of k ls) as [e|] eqn:L; auto.
  destruct (ongoing e) eqn:O; auto.
  split.
  - unfold open_sessions. rewrite ledger_of_setItem.
    pose proof (open_count_assign_known k e (closed_record stamp t e) _ L) as H.
    assert (E : (open_in (closed_record stamp t e) + 1 = open_in e)%nat).
    { unfold open_in, ongoing in *. simpl.
      destruct (last_session (sessions e)) as [s|] eqn:S; [|discriminate].
      now apply open_update_last_end with (s := s). }
    lia.
  - unfold has_open_session. rewrite record_of_setItem, lookup_assign_same.
    unfold ongoing in *. simpl. rewrite last_session_update_last.
    destruct (last_session (sessions e)); reflexivity.
Qed.

(** Storing an episode leaves it with an ongoing session: the one it had, or
    one more. *)
Lemma storeEpisode_open stamp it p t ls :
  has_open_session (item_id it) (storeEpisode stamp it p t ls) = true
  /\ open_sessions (storeEpisode stamp it p t ls) =
     if has_open_session (item_id it) ls
     then open_sessions ls
     else S (open_sessions ls).
Proof.
  split.
  - unfold has_open_session. rewrite record_of_store_same.
    destruct (record_of (item_id it) ls) as [e|]; [|reflexivity].
    unfold ongoing; simpl. fold (ongoing e).
    destruct (ongoing e) eqn:O.
    + rewrite last_session_update_last. unfold ongoing in O.
      destruct (last_session (sessions e)); [exact O | discriminate].
    + now rewrite last_session_app.
  - rewrite storeEpisode_eq. unfold open_sessions, has_open_session.
    rewrite ledger_of_setItem.
    destruct (record_of (item_id it) ls) as [e|] eqn:L.
    + pose proof (open_count_assign_known _ e
                    (stored_record stamp it p t (Some e)) _ L) as H.
      assert (E : open_in (stored_record stamp it p t (Some e)) =
                  if ongoing e then open_in e else S (open_in e)).
      { unfold open_in; simpl. destruct (ongoing e).
        - apply open_update_last_progress.
        - rewrite filter_app, length_app. simpl. lia. }
      destruct (ongoing e); lia.
    + rewrite open_count_assign_new by exact L. simpl. unfold open_in; simpl. lia.
Qed.

(** ** C4: open sessions during a run *)

Lemma close_active_zero stamp a dt st :
  open_is_active st -> active st = Some a ->
  open_sessions (updateSessionEnd stamp a dt (localStorage st)) = 0%nat.
Proof.
  intros I A.
  pose proof (updateSessionEnd_open stamp a dt (localStorage st)) as U.
  destruct (has_open_session a (localStorage st)) eqn:O.
  - apply has_open_session_count in O.
    destruct I as [Z|[One _]]; lia.
  - rewrite U. destruct I as [Z|[_ (k & K & Ok)]]; auto.
    congruence.
Qed.

Lemma idle_zero st :
  open_is_active st -> active st = None ->
  open_sessions (localStorage st) = 0%nat.
Proof.
  intros [Z|[_ (k & K & _)]] A; auto. congruence.
Qed.

Section Run.

(** The store at the page load. *)
Variable ls0 : Storage.

Lemma tracked_zero ls ls' :
  tracked at_most_one_open ls0 ls ->
  (writes ls' = writes ls \/ writes ls' = ledger_of ls' :: writes ls) ->
  (open_sessions ls' <= 1)%nat ->
  tracked at_most_one_open ls0 ls'.
Proof.
  intros [_ W] E C. split; [exact C|].
  intros l I. destruct E as [E|E]; rewrite E in I; auto.
  destruct I as [<-|I]; auto.
Qed.

Lemma writes_close stamp k t ls :
  writes (updateSessionEnd stamp k t ls) = writes ls
  \/ writes (updateSessionEnd stamp k t ls) =
     ledger_of (updateSessionEnd stamp k t ls) :: writes ls.
Proof.
  rewrite updateSessionEnd_eq. destruct (record_of k ls) as [e|]; auto.
  destruct (ongoing e); auto.
Qed.

Lemma writes_store stamp it p t ls :
  writes (storeEpisode stamp it p t ls) =
  ledger_of (storeEpisode stamp it p t ls) :: writes ls.
Proof. now rewrite storeEpisode_eq. Qed.

Lemma endOngoing_zero stamp dt st :
  open_is_active st ->
  tracked at_most_one_open ls0 (localStorage st) ->
  open_sessions (localStorage (endOngoing stamp dt st)) = 0%nat
  /\ tracked at_most_one_open ls0 (localStorage (endOngoing stamp dt st)).
Proof.
  intros I T. rewrite endOngoing_storage.
  destruct (active st) as [a|] eqn:A.
  - pose proof (close_active_zero stamp a dt st I A) as Z. split; auto.
    eapply tracked_zero; [exact T | apply writes_close | lia].
  - split; auto. now apply idle_zero.
Qed.

Lemma truthy_named k : k <> EmptyString -> truthy_str k = true.
Proof.
  intros N. unfold truthy_str. now destruct (String.eqb_spec k EmptyString).
Qed.

Lemma tick_open_is_active i st :
  match snapshot (response i) with
  | Playing it _ => item_id it <> EmptyString
  | _ => True
  end ->
  open_is_active st ->
  tracked at_most_one_open ls0 (localStorage st) ->
  open_is_active (tick i st)
  /\ tracked at_most_one_open ls0 (localStorage (tick i st))
  /\ (nothing_to_track (response i) = true ->
      open_sessions (localStorage (tick i st)) = 0%nat).
Proof.
  intros N I T. unfold nothing_to_track. rewrite tick_eq. cbv zeta.
  set (dt := now i - lastPollTime st).
  assert (I1 : open_is_active (set_poll (now i) st)) by exact I.
  assert (T1 : tracked at_most_one_open ls0 (localStorage (set_poll (now i) st)))
    by exact T.
  destruct (snapshot (response i)) as [|it p|it|it].
  - destruct (endOngoing_zero (stamp i) dt _ I1 T1) as [Z T'].
    split; [|split]; auto. now left.
  - set (ls1 := end_previous (stamp i) dt (item_id it) (set_poll (now i) st)).
    assert (P : tracked at_most_one_open ls0 ls1
                /\ (open_sessions ls1 = 0%nat
                    \/ (open_sessions ls1 = 1%nat
                        /\ has_open_session (item_id it) ls1 = true))).
    { unfold ls1, end_previous. rewrite active_set_poll.
      destruct (active st) as [a|] eqn:A.
      - destruct (String.eqb_spec a (item_id it)) as [<-|D].
        + split; [exact T|]. destruct I as [Z|[One (k & K & Ok)]]; auto.
          right. split; auto.
          assert (E : k = a) by congruence. subst k. exact Ok.
        + pose proof (close_active_zero (stamp i) a dt st I A) as Z.
          split; auto.
          eapply tracked_zero; [exact T | apply writes_close | simpl; lia].
      - split; [exact T|]. left. now apply idle_zero. }
    destruct P as [T2 C2].
    destruct (storeEpisode_open (stamp i) it p dt ls1) as [O C].
    assert (One : open_sessions (storeEpisode (stamp i) it p dt ls1) = 1%nat).
    { rewrite C. destruct C2 as [Z|[E H]].
      - destruct (has_open_session (item_id it) ls1) eqn:H; [|lia].
        apply has_open_session_count in H. lia.
      - now rewrite H. }
    split; [|split].
    + right. split; [exact One|]. exists (item_id it). split; [|exact O].
      unfold active; simpl. now rewrite (truthy_named _ N).
    + eapply tracked_zero; [exact T2 | right; apply writes_store | simpl; lia].
    + discriminate.
  - split; [|split]; auto. discriminate.
  - destruct (endOngoing_zero (stamp i) dt _ I1 T1) as [Z T'].
    split; [|split]; auto. now left.
Qed.

Lemma tick_service_fields i st :
  pollingInterval (tick i st) = pollingInterval st
  /\ timers (tick i st) = timers st
  /\ lastPollTime (tick i st) = now i.
Proof.
  rewrite tick_eq. cbv zeta.
  destruct (snapshot (response i)); auto;
    unfold endOngoing; rewrite active_set_poll; destruct (active st); auto.
Qed.

Lemma step_run_invariant ev st :
  is_stop ev = false -> named ev ->
  run_invariant ls0 st -> run_invariant ls0 (step ev st).
Proof.
  intros NS N R. pose proof R as (I & O & C & T).
  destruct ev as [t h| |h i]; simpl in *.
  - unfold startPlaybackTracking.
    destruct (pollingInterval st) as [h0|] eqn:P; [exact R|].
    split; [|split; [|split]]; simpl.
    + left. now apply C.
    + intros h' [<-|H]; auto. apply O in H. congruence.
    + intros H. discriminate.
    + exact T.
  - discriminate.
  - destruct (existsb (Pos.eqb h) (timers st)) eqn:E; [|exact R].
    apply existsb_exists in E. destruct E as (h' & H & Eq).
    apply Pos.eqb_eq in Eq. subst h'.
    destruct (tick_open_is_active i st N I T) as (I' & T' & _).
    destruct (tick_service_fields i st) as (P' & Tm' & _).
    split; [exact I'|]. split; [|split; [|exact T']].
    + intros h'. rewrite Tm', P'. apply O.
    + intros Q. rewrite P' in Q. apply O in H. congruence.
Qed.

Lemma run_run_invariant evs : forall st,
  never_stopped evs = true -> Forall named evs ->
  run_invariant ls0 st -> run_invariant ls0 (run evs st).
Proof.
  induction evs as [|ev r IH]; intros st NS N R; simpl; auto.
  simpl in NS. apply andb_true_iff in NS. destruct NS as [NS1 NS2].
  inversion N; subst. apply IH; auto.
  apply step_run_invariant; auto.
  now destruct (is_stop ev).
Qed.

End Run.

Lemma init_run_invariant ls :
  open_sessions ls = 0%nat -> run_invariant ls (init ls).
Proof.
  intros Z. split; [|split; [|split]].
  - now left.
  - intros h [].
  - intros _. exact Z.
  - apply tracked_start. change (open_sessions ls <= 1)%nat. lia.
Qed.

(** C4 (as the code has it).  Take a page load over a ledger without open
    session and any course of starts and ticks in which
    [stopPlaybackTracking] is not called.  Then at most one session of the
    whole ledger is open, after every event and in every ledger written on
    the way; an open session is the latest one of the active episode; none is
    open while tracking has not been started; and none is open after a tick
    with nothing playing or with an item that is no episode.
    [stopPlaybackTracking] itself writes nothing: it leaves the ledger,
    open session included, as it is. *)
Theorem C4_one_open_session_in_a_run :
  forall (ls : Storage) (evs : list Event),
    open_sessions ls = 0%nat ->
    never_stopped evs = true ->
    Forall named evs ->
    let st := run evs (init ls) in
    (open_sessions (localStorage st) <= 1)%nat
    /\ (forall l, In l (writes (localStorage st)) ->
          In l (writes ls) \/ (open_count l <= 1)%nat)
    /\ (forall k, has_open_session k (localStorage st) = true ->
          active st = Some k)
    /\ (pollingInterval st = None -> open_sessions (localStorage st) = 0%nat)
    /\ (forall i, nothing_to_track (response i) = true ->
          open_sessions (localStorage (tick i st)) = 0%nat)
    /\ localStorage (stopPlaybackTracking st) = localStorage st.
Proof.
  intros ls evs Z NS N st.
  destruct (run_run_invariant ls evs (init ls) NS N (init_run_invariant ls Z))
    as (I & O & C & T).
  fold st in I, O, C, T.
  split; [apply T|]. split; [apply T|]. split; [|split; [exact C|split]].
  - intros k H. destruct I as [E|[E (k0 & K & H0)]].
    + apply has_open_session_count in H. lia.
    + rewrite K. f_equal.
      apply (has_open_session_unique k0 k (localStorage st)); auto. lia.
  - intros i Q.
    assert (M : match snapshot (response i) with
                | Playing it _ => item_id it <> EmptyString
                | _ => True
                end).
    { unfold nothing_to_track in Q. now destruct (snapshot (response i)). }
    destruct (tick_open_is_active ls i st M I T) as (_ & _ & R). auto.
  - unfold stopPlaybackTracking. now destruct (pollingInterval st).
Qed.

Lemma C4_one_open_session_in_a_run_witness :
  let st := run sample_run (init no_storage) in
  (open_sessions (localStorage st) <= 1)%nat
  /\ (forall l, In l (writes (localStorage st)) ->
        In l (writes no_storage) \/ (open_count l <= 1)%nat)
  /\ (forall k, has_open_session k (localStorage st) = true ->
        active st = Some k)
  /\ (pollingInterval st = None -> open_sessions (localStorage st) = 0%nat)
  /\ (forall i, nothing_to_track (response i) = true ->
        open_sessions (localStorage (tick i st)) = 0%nat)
  /\ localStorage (stopPlaybackTracking st) = localStorage st.
Proof.
  apply (C4_one_open_session_in_a_run no_storage sample_run).
  - reflexivity.
  - reflexivity.
  - unfold sample_run. repeat constructor; simpl; discriminate.
Defined.

(** C4 as stated fails where tracking is stopped: [stopPlaybackTracking]
    clears the timer and nothing else.  Episode x plays, tracking is stopped:
    no timer is left, and the session of x is still open. *)
Lemma C4_stop_leaves_session_open :
  let st := run stopped_run (init no_storage) in
  pollingInterval st = None
  /\ timers st = []
  /\ open_sessions (localStorage st) = 1%nat
  /\ has_open_session "x" (localStorage st) = true.
Proof. repeat split; reflexivity. Qed.

(** When tracking then starts again and another episode plays, two sessions
    are open while tracking is active. *)
Example restart_opens_a_second_session :
  let st := run restarted_run (init no_storage) in
  pollingInterval st = Some 2%positive
  /\ open_sessions (localStorage st) = 2%nat
  /\ has_open_session "x" (localStorage st) = true
  /\ has_open_session "y" (localStorage st) = true.
Proof. repeat split; reflexivity. Qed.

(** ** C1: a tick without a usable response *)

Lemma unavailable_nothing r : unavailable r = true -> snapshot r = Nothing.
Proof. destruct r; simpl; try discriminate; reflexivity. Qed.

Lemma session_count_close stamp a t ls k :
  session_count k (updateSessionEnd stamp a t ls) = session_count k ls.
Proof.
  unfold session_count. destruct (String.eqb_spec k a) as [->|N].
  - rewrite record_of_close_same. destruct (record_of a ls) as [e|]; simpl; auto.
    destruct (ongoing e); simpl; auto. now rewrite length_update_last.
  - now rewrite record_of_close_other.
Qed.

Lemma open_sessions_close stamp a t ls :
  (open_sessions (updateSessionEnd stamp a t ls) <= open_sessions ls)%nat.
Proof.
  pose proof (updateSessionEnd_open stamp a t ls) as U.
  destruct (has_open_session a ls).
  - lia.
  - rewrite U. lia.
Qed.

Lemma update_last_app (f : Session -> Session) (l : list Session) s :
  update_last f (l ++ [s]) = l ++ [f s].
Proof.
  induction l as [|x r IH]; simpl; auto.
  rewrite IH. destruct (r ++ [s]) eqn:E; auto.
  now destruct r.
Qed.

(** What [updateSessionEnd] writes when the latest session of the record
    is open: the session gets its end, the time is added to the accumulated
    time, up to the duration, and nothing else changes. *)
Lemma close_open_session stamp a t ls e older s :
  record_of a ls = Some e ->
  sessions e = older ++ [s] ->
  ended_at s = None ->
  record_of a (updateSessionEnd stamp a t ls) =
  Some {| e_id := e_id e; e_name := e_name e;
          e_description := e_description e;
          duration_ms := duration_ms e;
          e_release_date := e_release_date e;
          e_images := e_images e; e_type := e_type e;
          e_show := e_show e; played_at := played_at e;
          progress_ms := progress_ms e;
          total_played_ms := Z.min (total_played_ms e + t) (duration_ms e);
          last_played_at := last_played_at e;
          first_played_at := first_played_at e;
          sessions :=
            older ++ [ {| started_at := started_at s;
                          ended_at := Some stamp;
                          s_progress_ms := s_progress_ms s |} ] |}.
Proof.
  intros R S O. rewrite record_of_close_same, R. simpl.
  unfold ongoing. rewrite S, last_session_app. unfold is_open. rewrite O.
  unfold closed_record, with_tracking. rewrite S, update_last_app.
  reflexivity.
Qed.

(** [updateSessionEnd] writes nothing when there is no record, no session,
    or the latest session has ended. *)
Lemma close_without_open_session stamp a t ls :
  (record_of a ls = None
   \/ exists e,
        record_of a ls = Some e
        /\ (sessions e = []
            \/ exists older s u,
                 sessions e = older ++ [s] /\ ended_at s = Some u)) ->
  updateSessionEnd stamp a t ls = ls.
Proof.
  rewrite updateSessionEnd_eq.
  intros [R|(e & R & [S|(older & s & u & S & E)])]; rewrite R; auto;
    unfold ongoing; rewrite S; [reflexivity|].
  rewrite last_session_app. unfold is_open. now rewrite E.
Qed.

(** A tick without a usable response is the tick of "no content". *)
Lemma unavailable_tick_is_empty_tick i st :
  unavailable (response i) = true ->
  tick i st = endOngoing (stamp i) (now i - lastPollTime st)
                (set_poll (now i) st).
Proof.
  intros U. rewrite tick_eq. cbv zeta. now rewrite (unavailable_nothing _ U).
Qed.

(** C1 (as the code has it).  [getCurrentlyPlaying] answers a failed request
    and an error status with [null], as it answers "no content", and the
    callback cannot tell them apart.  On such a tick [lastPollTime] advances
    to the tick's time, no session is opened (no record gains a session, no
    record is created, the number of open sessions does not grow) and no
    record other than the active episode's changes; with no active episode
    the store and [lastEpisodeId] are untouched.  With an active episode the
    tick ends that episode's session as a "nothing playing" tick does, and
    no episode remains active: when the latest session of the record of the
    active episode is open, that session gets the stamp of the tick as its
    [ended_at], the time since the last poll is added to
    [total_played_ms], up to [duration_ms], and no other field of the record
    changes; when there is no such session, the store is untouched. *)
Theorem C1_unavailable_tick :
  forall (i : TickInput) (st : State),
    unavailable (response i) = true ->
    let st' := tick i st in
    lastPollTime st' = now i
    /\ st' = tick {| now := now i; stamp := stamp i; response := NoContent |} st
    /\ (forall k, session_count k (localStorage st') =
                  session_count k (localStorage st))
    /\ (open_sessions (localStorage st') <= open_sessions (localStorage st))%nat
    /\ (forall k, active st <> Some k ->
          record_of k (localStorage st') = record_of k (localStorage st))
    /\ (active st = None ->
          localStorage st' = localStorage st
          /\ lastEpisodeId st' = lastEpisodeId st)
    /\ (forall a, active st = Some a ->
          localStorage st' =
            updateSessionEnd (stamp i) a (now i - lastPollTime st)
              (localStorage st)
          /\ lastEpisodeId st' = None)
    /\ (forall a e older s,
          active st = Some a ->
          record_of a (localStorage st) = Some e ->
          sessions e = older ++ [s] ->
          ended_at s = None ->
          record_of a (localStorage st') =
            Some {| e_id := e_id e; e_name := e_name e;
                      e_description := e_description e;
                      duration_ms := duration_ms e;
                      e_release_date := e_release_date e;
                      e_images := e_images e; e_type := e_type e;
                      e_show := e_show e; played_at := played_at e;
                      progress_ms := progress_ms e;
                      total_played_ms :=
                        Z.min (total_played_ms e + (now i - lastPollTime st))
                          (duration_ms e);
                      last_played_at := last_played_at e;
                      first_played_at := first_played_at e;
                      sessions :=
                        older ++ [ {| started_at := started_at s;
                                      ended_at := Some (stamp i);
                                      s_progress_ms := s_progress_ms s |} ] |})
    /\ (forall a,
          active st = Some a ->
          (record_of a (localStorage st) = None
             \/ exists e,
                  record_of a (localStorage st) = Some e
                  /\ (sessions e = []
                      \/ exists older s u,
                           sessions e = older ++ [s] /\ ended_at s = Some u)) ->
          localStorage st' = localStorage st).
Proof.
  intros i st U st'.
  pose proof (unavailable_tick_is_empty_tick i st U) as E. fold st' in E.
  assert (C : forall a, active st = Some a ->
                localStorage st' =
                  updateSessionEnd (stamp i) a (now i - lastPollTime st)
                    (localStorage st)
                /\ lastEpisodeId st' = None).
  { intros a A. rewrite E. unfold endOngoing. rewrite active_set_poll, A.
    auto. }
  split; [apply tick_service_fields|].
  split.
  { rewrite E. rewrite tick_eq. reflexivity. }
  assert (F : (forall k, session_count k (localStorage st') =
                         session_count k (localStorage st))
              /\ (open_sessions (localStorage st') <=
                  open_sessions (localStorage st))%nat
              /\ (forall k, active st <> Some k ->
                    record_of k (localStorage st') =
                    record_of k (localStorage st))
              /\ (active st = None ->
                    localStorage st' = localStorage st
                    /\ lastEpisodeId st' = lastEpisodeId st)).
  { rewrite E. unfold endOngoing. rewrite active_set_poll.
    destruct (active st) as [a|] eqn:A; simpl.
    - split; [intros k; apply session_count_close|].
      split; [apply open_sessions_close|].
      split; [intros k N; apply record_of_close_other; congruence|].
      discriminate.
    - repeat split; auto. }
  destruct F as (F1 & F2 & F3 & F4).
  split; [exact F1|]. split; [exact F2|]. split; [exact F3|].
  split; [exact F4|]. split; [exact C|]. split.
  - intros a e older s A R S O. destruct (C a A) as [-> _].
    now apply close_open_session.
  - intros a A H. destruct (C a A) as [-> _].
    now apply close_without_open_session.
Qed.

Lemma C1_unavailable_tick_witness :
  let st := run first_tick_run (init no_storage) in
  let i := at_second 20 Throws in
  let st' := tick i st in
  lastPollTime st' = now i
  /\ st' = tick {| now := now i; stamp := stamp i; response := NoContent |} st
  /\ (forall k, session_count k (localStorage st') =
                session_count k (localStorage st))
  /\ (open_sessions (localStorage st') <= open_sessions (localStorage st))%nat
  /\ (forall k, active st <> Some k ->
        record_of k (localStorage st') = record_of k (localStorage st))
  /\ (active st = None ->
        localStorage st' = localStorage st
        /\ lastEpisodeId st' = lastEpisodeId st)
  /\ (forall a, active st = Some a ->
        localStorage st' =
          updateSessionEnd (stamp i) a (now i - lastPollTime st)
            (localStorage st)
        /\ lastEpisodeId st' = None)
  /\ (forall a e older s,
        active st = Some a ->
        record_of a (localStorage st) = Some e ->
        sessions e = older ++ [s] ->
        ended_at s = None ->
        record_of a (localStorage st') =
          Some {| e_id := e_id e; e_name := e_name e;
                    e_description := e_description e;
                    duration_ms := duration_ms e;
                    e_release_date := e_release_date e;
                    e_images := e_images e; e_type := e_type e;
                    e_show := e_show e; played_at := played_at e;
                    progress_ms := progress_ms e;
                    total_played_ms :=
                      Z.min (total_played_ms e + (now i - lastPollTime st))
                        (duration_ms e);
                    last_played_at := last_played_at e;
                    first_played_at := first_played_at e;
                    sessions :=
                      older ++ [ {| started_at := started_at s;
                                    ended_at := Some (stamp i);
                                    s_progress_ms := s_progress_ms s |} ] |})
  /\ (forall a,
        active st = Some a ->
        (record_of a (localStorage st) = None
           \/ exists e,
                record_of a (localStorage st) = Some e
                /\ (sessions e = []
                    \/ exists older s u,
                         sessions e = older ++ [s] /\ ended_at s = Some u)) ->
        localStorage st' = localStorage st).
Proof.
  apply (C1_unavailable_tick (at_second 20 Throws)
           (run first_tick_run (init no_storage))).
  reflexivity.
Defined.

(** C1 as stated fails: a tick whose request fails is no no-op when an
    episode is active.  Episode x plays at second 10; the request of second
    20 throws; the session of x is ended at second 20 and the ten seconds
    are added to its accumulated time. *)
Lemma C1_unavailable_tick_ends_session :
  let st := run first_tick_run (init no_storage) in
  let i := at_second 20 Throws in
  unavailable (response i) = true
  /\ total_of "x" (localStorage st) = Some 10000
  /\ total_of "x" (localStorage (tick i st)) = Some 20000
  /\ map ended_at (sessions_of "x" (localStorage st)) = [None]
  /\ map ended_at (sessions_of "x" (localStorage (tick i st))) = [Some 20000]
  /\ localStorage (tick i st) <> localStorage st.
Proof.
  repeat split; try reflexivity. discriminate.
Qed.

(** ** C2: who gets the time of an interval *)

Lemma option_eq_dec_string (a b : option string) : {a = b} + {a <> b}.
Proof. decide equality. apply string_dec. Qed.

Lemma total_close_other stamp a t ls k :
  k <> a -> total_of k (updateSessionEnd stamp a t ls) = total_of k ls.
Proof. intros N. unfold total_of. now rewrite record_of_close_other. Qed.

Lemma total_store_other stamp it p t ls k :
  k <> item_id it -> total_of k (storeEpisode stamp it p t ls) = total_of k ls.
Proof. intros N. unfold total_of. now rewrite record_of_store_other. Qed.

Lemma tick_total_frame i st k :
  active st <> Some k ->
  (forall it p, snapshot (response i) = Playing it p -> item_id it <> k) ->
  total_of k (localStorage (tick i st)) = total_of k (localStorage st).
Proof.
  intros A P. rewrite tick_eq. cbv zeta.
  destruct (snapshot (response i)) as [|it p|it|it]; auto.
  - rewrite endOngoing_storage, active_set_poll.
    destruct (active st) as [a|]; auto.
    apply total_close_other. congruence.
  - simpl. rewrite total_store_other by (intros ->; now apply (P it p)).
    unfold end_previous. rewrite active_set_poll.
    destruct (active st) as [a|]; auto.
    destruct (String.eqb a (item_id it)); auto.
    apply total_close_other. congruence.
  - rewrite endOngoing_storage, active_set_poll.
    destruct (active st) as [a|]; auto.
    apply total_close_other. congruence.
Qed.

(** On a tick that is no switch one key at most is written. *)
Lemma tick_single_owner i st :
  is_switch i st = false ->
  exists o, forall k, o <> Some k ->
    total_of k (localStorage (tick i st)) = total_of k (localStorage st).
Proof.
  unfold is_switch. intros W.
  destruct (snapshot (response i)) as [|it p|it|it] eqn:S.
  - exists (active st). intros k N. apply tick_total_frame; auto.
    intros it p. rewrite S. discriminate.
  - exists (Some (item_id it)). intros k N. rewrite tick_eq. cbv zeta. rewrite S.
    simpl. rewrite total_store_other by congruence.
    unfold end_previous. rewrite active_set_poll.
    destruct (active st) as [a|]; auto.
    destruct (String.eqb a (item_id it)); [auto | discriminate].
  - exists None. intros k _. rewrite tick_eq. cbv zeta. now rewrite S.
  - exists (active st). intros k N. apply tick_total_frame; auto.
    intros it' p. rewrite S. discriminate.
Qed.

(** C2 (as the code has it).  A tick changes the accumulated time of no
    episode but the active one (whose session it ends or advances) and the one
    the response reports as playing (which it stores).  Unless the tick is a
    switch, with an active episode and a different one playing, these are
    not two: the time of the interval goes to one episode at most. *)
Theorem C2_elapsed_time_owner :
  forall (i : TickInput) (st : State),
    (forall k, total_changed k (localStorage st) (localStorage (tick i st)) ->
       active st = Some k
       \/ exists it p, snapshot (response i) = Playing it p /\ item_id it = k)
    /\ (is_switch i st = false ->
        forall k k',
          total_changed k (localStorage st) (localStorage (tick i st)) ->
          total_changed k' (localStorage st) (localStorage (tick i st)) ->
          k = k').
Proof.
  intros i st. split.
  - intros k C.
    destruct (option_eq_dec_string (active st) (Some k)) as [A|A]; auto.
    right.
    destruct (snapshot (response i)) as [|it p|it|it] eqn:S;
      try (exfalso; apply C; apply tick_total_frame; auto;
           intros it' p'; rewrite S; discriminate).
    destruct (String.eqb_spec (item_id it) k) as [E|N]; eauto.
    exfalso. apply C. apply tick_total_frame; auto.
    intros it' p'. rewrite S. intros [= <- <-]. exact N.
  - intros W k k' C C'.
    destruct (tick_single_owner i st W) as (o & F).
    destruct (option_eq_dec_string o (Some k)) as [E|N];
      [|exfalso; apply C; now apply F].
    destruct (option_eq_dec_string o (Some k')) as [E'|N'];
      [|exfalso; apply C'; now apply F].
    congruence.
Qed.

Lemma C2_elapsed_time_owner_witness :
  let st := run first_tick_run (init no_storage) in
  let i := at_second 20 (plays (episode "x" 60000 None) 10000) in
  (forall k, total_changed k (localStorage st) (localStorage (tick i st)) ->
     active st = Some k
     \/ exists it p, snapshot (response i) = Playing it p /\ item_id it = k)
  /\ (is_switch i st = false ->
      forall k k',
        total_changed k (localStorage st) (localStorage (tick i st)) ->
        total_changed k' (localStorage st) (localStorage (tick i st)) ->
        k = k').
Proof.
  apply (C2_elapsed_time_owner
           (at_second 20 (plays (episode "x" 60000 None) 10000))
           (run first_tick_run (init no_storage))).
Defined.

(** C2 as stated fails on a switch.  Episode x is active, ten seconds later
    episode y plays: [updateSessionEnd] adds the ten seconds to x and
    [storeEpisode] adds the same ten seconds to y. *)
Lemma C2_switch_counts_interval_twice :
  let st := run first_tick_run (init no_storage) in
  let i := at_second 20 (plays (episode "y" 60000 None) 0) in
  is_switch i st = true
  /\ now i - lastPollTime st = 10000
  /\ total_of "x" (localStorage st) = Some 10000
  /\ total_of "x" (localStorage (tick i st)) = Some 20000
  /\ total_of "y" (localStorage st) = None
  /\ total_of "y" (localStorage (tick i st)) = Some 10000
  /\ total_changed "x" (localStorage st) (localStorage (tick i st))
  /\ total_changed "y" (localStorage st) (localStorage (tick i st)).
Proof.
  repeat split; try reflexivity; discriminate.
Qed.

(** ** C5: from one episode to another *)

Lemma ongoing_closed_record stamp t e :
  ongoing (closed_record stamp t e) = false.
Proof.
  unfold ongoing; simpl. rewrite last_session_update_last.
  destruct (last_session (sessions e)); reflexivity.
Qed.

(** C5 (as the code has it).  Let episode [a] be active with its latest
    session open, let the response report a different episode playing, and
    let that episode have no open latest session (as is the case whenever the
    session of [a] is the only open one).  Then the one tick ends the
    session of [a], with [ended_at] the time of the tick, and appends an open
    session to the other episode, which becomes the one tracked: before the
    tick the session of [a] is open and the other is not, after it the other
    is open and that of [a] is not, and the number of open sessions is the
    same. *)
Theorem C5_switch_ends_and_opens :
  forall (i : TickInput) (st : State) (a : string) (it : Item) (p : Z)
         (ea : StoredEpisode),
    active st = Some a ->
    snapshot (response i) = Playing it p ->
    item_id it <> a ->
    record_of a (localStorage st) = Some ea ->
    ongoing ea = true ->
    has_open_session (item_id it) (localStorage st) = false ->
    let st' := tick i st in
    let b := item_id it in
    (exists ea',
        record_of a (localStorage st') = Some ea'
        /\ sessions ea' = update_last (set_ended_at (stamp i)) (sessions ea)
        /\ option_map ended_at (last_session (sessions ea')) =
           Some (Some (stamp i)))
    /\ sessions_of b (localStorage st') =
       sessions_of b (localStorage st) ++ [mkSession (stamp i) None p]
    /\ has_open_session a (localStorage st) = true
    /\ has_open_session a (localStorage st') = false
    /\ has_open_session b (localStorage st') = true
    /\ lastEpisodeId st' = Some b
    /\ open_sessions (localStorage st') = open_sessions (localStorage st).
Proof.
  intros i st a it p ea A S N R O B st' b. subst b.
  set (dt := now i - lastPollTime st).
  set (ls1 := updateSessionEnd (stamp i) a dt (localStorage st)).
  assert (N' : a <> item_id it) by congruence.
  assert (E : st' = set_episode (Some (item_id it))
                      (storeEpisode (stamp i) it p dt ls1)
                      (set_poll (now i) st)).
  { unfold st'. rewrite tick_eq. cbv zeta. rewrite S.
    unfold end_previous. rewrite active_set_poll, A.
    destruct (String.eqb_spec a (item_id it)); [congruence | reflexivity]. }
  assert (Ha : has_open_session a (localStorage st) = true).
  { unfold has_open_session. now rewrite R. }
  assert (Ra : record_of a ls1 = Some (closed_record (stamp i) dt ea)).
  { unfold ls1. rewrite record_of_close_same, R. simpl. now rewrite O. }
  assert (Rb : record_of (item_id it) ls1 =
               record_of (item_id it) (localStorage st)).
  { unfold ls1. now rewrite record_of_close_other. }
  assert (Hb : has_open_session (item_id it) ls1 = false).
  { unfold has_open_session in *. now rewrite Rb. }
  rewrite E. simpl.
  split; [|split; [|split; [|split; [|split; [|split]]]]]; auto.
  - exists (closed_record (stamp i) dt ea).
    rewrite record_of_store_other by exact N'.
    split; [exact Ra|]. split; [reflexivity|].
    simpl. rewrite last_session_update_last.
    unfold ongoing in O.
    destruct (last_session (sessions ea)); [reflexivity | discriminate].
  - unfold sessions_of. rewrite record_of_store_same, Rb.
    unfold has_open_session in B.
    destruct (record_of (item_id it) (localStorage st)) as [eb|]; simpl; auto.
    now rewrite B.
  - unfold has_open_session.
    rewrite record_of_store_other by exact N'.
    rewrite Ra. apply ongoing_closed_record.
  - apply storeEpisode_open.
  - destruct (storeEpisode_open (stamp i) it p dt ls1) as [_ C].
    rewrite C, Hb.
    pose proof (updateSessionEnd_open (stamp i) a dt (localStorage st)) as U.
    rewrite Ha in U. fold ls1 in U. lia.
Qed.

Lemma C5_switch_ends_and_opens_witness :
  let st := run first_tick_run (init no_storage) in
  let i := at_second 20 (plays (episode "y" 60000 None) 0) in
  let st' := tick i st in
  (exists ea',
      record_of "x" (localStorage st') = Some ea'
      /\ sessions ea' =
         update_last (set_ended_at (stamp i))
           (sessions (stored_record 10000 (episode "x" 60000 None) 0 10000 None))
      /\ option_map ended_at (last_session (sessions ea')) =
         Some (Some (stamp i)))
  /\ sessions_of "y" (localStorage st') =
     sessions_of "y" (localStorage st) ++ [mkSession (stamp i) None 0]
  /\ has_open_session "x" (localStorage st) = true
  /\ has_open_session "x" (localStorage st') = false
  /\ has_open_session "y" (localStorage st') = true
  /\ lastEpisodeId st' = Some "y"
  /\ open_sessions (localStorage st') = open_sessions (localStorage st).
Proof.
  apply (C5_switch_ends_and_opens
           (at_second 20 (plays (episode "y" 60000 None) 0))
           (run first_tick_run (init no_storage))
           "x" (episode "y" 60000 None) 0
           (stored_record 10000 (episode "x" 60000 None) 0 10000 None));
    try reflexivity.
  discriminate.
Defined.

(** C5 as stated fails when the episode that starts playing has a session
    left open from before: [stopPlaybackTracking] ended nothing, so after the
    restart of [restarted_run] the sessions of x and of y are both open, and
    the tick that goes from y back to x ends the session of y and advances
    the old session of x, appending none. *)
Lemma C5_switch_to_episode_left_open :
  let st := run restarted_run (init no_storage) in
  let i := at_second 30 (plays (episode "x" 60000 None) 0) in
  active st = Some "y"
  /\ snapshot (response i) = Playing (episode "x" 60000 None) 0
  /\ has_open_session "y" (localStorage st) = true
  /\ has_open_session "x" (localStorage st) = true
  /\ has_open_session "y" (localStorage (tick i st)) = false
  /\ sessions_of "x" (localStorage st) = [mkSession 10000 None 0]
  /\ sessions_of "x" (localStorage (tick i st)) = [mkSession 10000 None 0].
Proof. repeat split; reflexivity. Qed.

(** ** The scenarios of the specification *)

(** Episode x plays from second 0, still plays at second 10, and nothing
    plays at second 20. *)
Example scenario_open_extend_close :
  let x := episode "x" 3600000 None in
  let st0 := run [Start 0 1; Fire 1 (at_second 0 (plays x 0))] (init no_storage) in
  let st1 := step (Fire 1 (at_second 10 (plays x 10000))) st0 in
  let st2 := step (Fire 1 (at_second 20 NoContent)) st1 in
  sessions_of "x" (localStorage st0) = [mkSession 0 None 0]
  /\ total_of "x" (localStorage st0) = Some 0
  /\ total_of "x" (localStorage st1) = Some 10000
  /\ total_of "x" (localStorage st2) = Some 20000
  /\ sessions_of "x" (localStorage st2) = [mkSession 0 (Some 20000) 10000]
  /\ active st2 = None.
Proof. repeat split; reflexivity. Qed.

(** An episode of five seconds that plays for ten. *)
Example scenario_clamped :
  let x := episode "x" 5000 None in
  total_of "x"
    (localStorage
       (run [Start 0 1;
             Fire 1 (at_second 0 (plays x 0));
             Fire 1 (at_second 10 (plays x 5000))]
          (init no_storage)))
  = Some 5000.
Proof. reflexivity. Qed.

(** A failed request while nothing is tracked changes nothing but the time
    of the last poll. *)
Example scenario_outage_while_idle :
  let st := startPlaybackTracking 0 1 (init sample_store) in
  tick (at_second 10 Throws) st = set_poll 10000 st.
Proof. reflexivity. Qed.

(** * Further properties of the ledger and of the loop *)

(** ** Keys *)

Lemma keys_assign k e l :
  keys (assign k e l) =
  match lookup k l with Some _ => keys l | None => keys l ++ [k] end.
Proof.
  unfold keys. induction l as [|[k0 e0] r IH]; simpl; auto.
  destruct (String.eqb_spec k k0) as [->|N]; simpl; auto.
  rewrite IH. now destruct (lookup k r).
Qed.

Lemma lookup_None_keys k l : lookup k l = None -> ~ In k (keys l).
Proof.
  unfold keys. induction l as [|[k0 e0] r IH]; simpl; auto.
  destruct (String.eqb_spec k k0) as [->|N]; [discriminate|].
  intros L [H|H]; [congruence | now apply IH].
Qed.

Lemma NoDup_snoc {A} (l : list A) (x : A) :
  NoDup l -> ~ In x l -> NoDup (l ++ [x]).
Proof.
  intros D N. induction D as [|y r Ny D IH]; simpl.
  - constructor; [tauto | constructor].
  - constructor.
    + rewrite in_app_iff. simpl. intros [H|[H|[]]]; [tauto|].
      apply N. now left.
    + apply IH. intros H. apply N. now right.
Qed.

(** What one assignment does to the three properties of the key list. *)
Lemma assign_keys_grow k e l :
  e_id e = k -> NoDup (keys l) -> keyed_by_id l ->
  NoDup (keys (assign k e l))
  /\ keyed_by_id (assign k e l)
  /\ exists added, keys (assign k e l) = keys l ++ added.
Proof.
  intros E D K. split; [|split].
  - rewrite keys_assign. destruct (lookup k l) eqn:L; auto.
    apply NoDup_snoc; auto. now apply lookup_None_keys.
  - intros k' e' I. apply In_assign in I. destruct I as [[-> ->]|I]; auto.
  - rewrite keys_assign. destruct (lookup k l).
    + exists []. now rewrite app_nil_r.
    + now exists [k].
Qed.

(** A relation between stores that every ledger operation establishes holds
    between the store before and the store after any course of events. *)
Section Lift.

Variable R : Storage -> Storage -> Prop.
Hypothesis R_refl : forall ls, R ls ls.
Hypothesis R_trans : forall a b c, R a b -> R b c -> R a c.
Hypothesis R_store : forall stamp it p t ls, R ls (storeEpisode stamp it p t ls).
Hypothesis R_close : forall stamp k t ls, R ls (updateSessionEnd stamp k t ls).

Lemma tick_lift i st : R (localStorage st) (localStorage (tick i st)).
Proof.
  rewrite tick_eq. cbv zeta.
  destruct (snapshot (response i)) as [|it p|it|it]; auto.
  - rewrite endOngoing_storage, active_set_poll. destruct (active st); auto.
  - simpl. eapply R_trans; [|apply R_store].
    unfold end_previous. rewrite active_set_poll.
    destruct (active st) as [a|]; auto.
    destruct (String.eqb a (item_id it)); auto.
  - rewrite endOngoing_storage, active_set_poll. destruct (active st); auto.
Qed.

Lemma step_lift ev st : R (localStorage st) (localStorage (step ev st)).
Proof.
  destruct ev as [t h| |h i]; simpl.
  - unfold startPlaybackTracking. destruct (pollingInterval st); apply R_refl.
  - unfold stopPlaybackTracking. destruct (pollingInterval st); apply R_refl.
  - destruct (existsb (Pos.eqb h) (timers st)); [apply tick_lift | apply R_refl].
Qed.

Lemma run_lift evs : forall st, R (localStorage st) (localStorage (run evs st)).
Proof.
  induction evs as [|ev r IH]; intros st; simpl; auto.
  eapply R_trans; [apply step_lift | apply IH].
Qed.

End Lift.

Lemma keys_grow_refl ls : keys_grow ls ls.
Proof. split; auto. exists []. now rewrite app_nil_r. Qed.

Lemma keys_grow_trans a b c : keys_grow a b -> keys_grow b c -> keys_grow a c.
Proof.
  intros [P1 (x & E1)] [P2 (y & E2)]. split.
  - intros D K. destruct (P1 D K). auto.
  - exists (x ++ y). now rewrite E2, E1, app_assoc.
Qed.

Lemma e_id_stored_record stamp it p t ls :
  keyed_by_id (ledger_of ls) ->
  e_id (stored_record stamp it p t (record_of (item_id it) ls)) = item_id it.
Proof.
  intros K. unfold record_of.
  destruct (lookup (item_id it) (ledger_of ls)) as [e|] eqn:L; simpl; auto.
  apply lookup_In in L. now apply K.
Qed.

Lemma keys_assign_grow k e l : exists added, keys (assign k e l) = keys l ++ added.
Proof.
  rewrite keys_assign. destruct (lookup k l).
  - exists []. now rewrite app_nil_r.
  - now exists [k].
Qed.

Lemma keys_grow_store stamp it p t ls :
  keys_grow ls (storeEpisode stamp it p t ls).
Proof.
  rewrite storeEpisode_eq. split; rewrite ledger_of_setItem.
  - intros D K.
    destruct (assign_keys_grow (item_id it)
                (stored_record stamp it p t (record_of (item_id it) ls))
                (ledger_of ls)) as (A & B & _); auto.
    now apply e_id_stored_record.
  - apply keys_assign_grow.
Qed.

Lemma keys_grow_close stamp k t ls :
  keys_grow ls (updateSessionEnd stamp k t ls).
Proof.
  rewrite updateSessionEnd_eq.
  destruct (record_of k ls) as [e|] eqn:L; [|apply keys_grow_refl].
  destruct (ongoing e); [|apply keys_grow_refl].
  split; rewrite ledger_of_setItem.
  - intros D K.
    destruct (assign_keys_grow k (closed_record stamp t e) (ledger_of ls))
      as (A & B & _); auto.
    simpl. apply lookup_In in L. now apply K.
  - apply keys_assign_grow.
Qed.

Lemma run_keys_grow evs st :
  keys_grow (localStorage st) (localStorage (run evs st)).
Proof.
  apply run_lift.
  - apply keys_grow_refl.
  - apply keys_grow_trans.
  - apply keys_grow_store.
  - apply keys_grow_close.
Qed.

Lemma keys_perm (l : Ledger) : Permutation (Js.keys l) (keys l).
Proof. unfold Js.keys, keys. apply Permutation_map, entries_perm. Qed.

Lemma index_entries_keys {V} (o : list (string * V)) :
  Forall (fun x => no_index (fst (snd x)) = false) (Js.index_entries o).
Proof.
  induction o as [|[k v] r IH]; simpl; [constructor|].
  destruct (Js.array_index k) as [n|] eqn:E; auto.
  apply (Permutation_Forall (Permutation_sym (insert_by_index_perm n (k, v) _))).
  constructor; auto. simpl. unfold no_index. now rewrite E.
Qed.

(** [Object.keys] has the keys that are no array indices in the order of
    their creation. *)
Lemma keys_no_index (l : Ledger) :
  filter no_index (Js.keys l) = filter no_index (keys l).
Proof.
  unfold Js.keys, Js.entries, keys. rewrite map_app, filter_app.
  assert (E : filter no_index (map fst (map snd (Js.index_entries l))) = []).
  { pose proof (index_entries_keys l) as F.
    induction F as [|x r H _ IH]; simpl; auto. now rewrite H. }
  rewrite E. clear E. simpl.
  induction l as [|[k e] r IH]; simpl; auto.
  fold (no_index k). destruct (no_index k) eqn:N; simpl; rewrite ?N, IH; auto.
Qed.

(** X1.  No course of starts, stops and ticks removes a record: every key
    of the ledger is a key afterwards.  Distinct keys stay distinct, and
    every record stays under the id it carries.  In the order of
    [Object.keys], which lists the keys that are array indices first, the
    other keys stay in their order, with the new ones after them. *)
Theorem ledger_keys_only_grow :
  forall (evs : list Event) (st : State),
    NoDup (Js.keys (ledger_of (localStorage st))) ->
    keyed_by_id (ledger_of (localStorage st)) ->
    NoDup (Js.keys (ledger_of (localStorage (run evs st))))
    /\ keyed_by_id (ledger_of (localStorage (run evs st)))
    /\ (forall k, In k (Js.keys (ledger_of (localStorage st))) ->
                  In k (Js.keys (ledger_of (localStorage (run evs st)))))
    /\ exists added,
         filter no_index (Js.keys (ledger_of (localStorage (run evs st)))) =
         filter no_index (Js.keys (ledger_of (localStorage st))) ++ added.
Proof.
  intros evs st D K.
  destruct (run_keys_grow evs st) as [P (added & G)].
  destruct (P (Permutation_NoDup (keys_perm _) D) K) as [D' K'].
  split; [exact (Permutation_NoDup (Permutation_sym (keys_perm _)) D')|].
  split; [exact K'|]. split.
  - intros k I. apply (Permutation_in _ (keys_perm _)) in I.
    apply (Permutation_in _ (Permutation_sym (keys_perm _))).
    rewrite G. apply in_or_app. now left.
  - exists (filter no_index added).
    now rewrite !keys_no_index, G, filter_app.
Qed.

Lemma ledger_keys_only_grow_witness :
  Js.keys (ledger_of (localStorage numbered_store)) = ["2"; "b"]
  /\ Js.keys (ledger_of (localStorage (run numbered_run numbered_store)))
     = ["1"; "2"; "b"; "c"]
  /\ NoDup (Js.keys (ledger_of (localStorage (run numbered_run numbered_store))))
  /\ keyed_by_id (ledger_of (localStorage (run numbered_run numbered_store)))
  /\ (forall k, In k (Js.keys (ledger_of (localStorage numbered_store))) ->
                In k (Js.keys (ledger_of
                                 (localStorage (run numbered_run numbered_store)))))
  /\ exists added,
       filter no_index
         (Js.keys (ledger_of (localStorage (run numbered_run numbered_store)))) =
       filter no_index (Js.keys (ledger_of (localStorage numbered_store)))
       ++ added.
Proof.
  split; [reflexivity|]. split; [reflexivity|].
  apply (ledger_keys_only_grow numbered_run numbered_store).
  - vm_compute. repeat constructor; simpl; intuition discriminate.
  - intros k e I. vm_compute in I.
    destruct I as [I|[I|[]]]; inversion I; reflexivity.
Defined.

Lemma NoDup_firstn {A} n (l : list A) : NoDup l -> NoDup (firstn n l).
Proof.
  intros D. rewrite <- (firstn_skipn n l) in D.
  now apply NoDup_app_remove_r in D.
Qed.

Lemma map_e_id_keys l : keyed_by_id l -> map e_id (map snd l) = keys l.
Proof.
  unfold keys. induction l as [|[k e] r IH]; simpl; auto.
  intros K. f_equal.
  - apply K. now left.
  - apply IH. intros k' e' I. apply K. now right.
Qed.

(** X2.  When the keys of the ledger are distinct and are the ids of their
    records, the list of recently played episodes names no episode twice,
    whatever the limit (none, a count, a negative number). *)
Theorem recently_played_ids_distinct :
  forall (limit : option Z) (ls : Storage),
    NoDup (keys (ledger_of ls)) ->
    keyed_by_id (ledger_of ls) ->
    NoDup (map r_id (getRecentlyPlayedEpisodes limit ls)).
Proof.
  intros limit ls D K. unfold getRecentlyPlayedEpisodes, slice0.
  rewrite map_map. simpl. rewrite <- firstn_map. apply NoDup_firstn.
  unfold getStoredEpisodes. unfold ledger_of in D, K.
  destruct (stored ls) as [l|]; [|constructor].
  eapply Permutation_NoDup.
  - symmetry. apply Permutation_map.
    rewrite array_sort_perm. apply values_perm.
  - now rewrite map_e_id_keys.
Qed.

Lemma recently_played_ids_distinct_witness :
  NoDup (map r_id (getRecentlyPlayedEpisodes (Some 2) sample_store)).
Proof.
  destruct (run_keys_grow sample_run (init no_storage)) as [P _].
  apply recently_played_ids_distinct; apply P;
    try constructor; intros k e [].
Defined.

(** ** Sessions that are out of reach *)

Lemma nth_error_update_last f (l : list Session) n :
  (S n < List.length l)%nat ->
  nth_error (update_last f l) n = nth_error l n.
Proof.
  revert n. induction l as [|x r IH]; intros n H; simpl in *; [lia|].
  destruct r as [|y r']; simpl in *; [lia|].
  destruct n as [|n]; auto.
  simpl. apply (IH n). simpl. lia.
Qed.

Lemma nth_error_last_session (l : list Session) n s :
  nth_error l n = Some s -> S n = List.length l -> last_session l = Some s.
Proof.
  revert n. induction l as [|x r IH]; intros n H L; simpl in *; [lia|].
  destruct n as [|n]; simpl in *.
  - destruct r; simpl in *; [congruence | lia].
  - destruct r as [|y r']; [now destruct n|].
    apply (IH n); auto.
Qed.

(** With an ongoing last session, a settled session is not the last one. *)
Lemma settled_not_last n s e :
  ongoing e = true -> settled n s e -> (S n < List.length (sessions e))%nat.
Proof.
  intros O [H [C|L]]; auto.
  assert (n < List.length (sessions e))%nat
    by (apply nth_error_Some; congruence).
  destruct (Nat.eq_dec (S n) (List.length (sessions e))) as [E|]; [|lia].
  unfold ongoing in O. rewrite (nth_error_last_session _ _ _ H E) in O.
  congruence.
Qed.

Lemma settled_update_last f n s e p t l :
  ongoing e = true -> settled n s e ->
  settled n s (with_tracking e p t l (update_last f (sessions e))).
Proof.
  intros O H. pose proof (settled_not_last _ _ _ O H) as L.
  destruct H as [H _]. split; simpl.
  - now rewrite nth_error_update_last.
  - right. now rewrite length_update_last.
Qed.

Lemma settled_append x n s e p t l :
  settled n s e -> settled n s (with_tracking e p t l (sessions e ++ [x])).
Proof.
  intros [H _].
  assert (n < List.length (sessions e))%nat
    by (apply nth_error_Some; congruence).
  split; simpl.
  - now rewrite nth_error_app1.
  - right. rewrite length_app. simpl. lia.
Qed.

Lemma keeps_settled_refl ls : keeps_settled ls ls.
Proof. intros k e n s H S. eauto. Qed.

Lemma keeps_settled_trans a b c :
  keeps_settled a b -> keeps_settled b c -> keeps_settled a c.
Proof.
  intros A B k e n s H S.
  destruct (A k e n s H S) as (e1 & H1 & S1).
  apply (B k e1 n s H1 S1).
Qed.

Lemma keeps_settled_store stamp it p t ls :
  keeps_settled ls (storeEpisode stamp it p t ls).
Proof.
  intros k e n s H S. destruct (String.eqb_spec k (item_id it)) as [->|N].
  - rewrite record_of_store_same, H. eexists; split; [reflexivity|].
    unfold stored_record. cbv zeta. destruct (ongoing e) eqn:O.
    + now apply settled_update_last.
    + now apply settled_append.
  - rewrite record_of_store_other by assumption. eauto.
Qed.

Lemma keeps_settled_close stamp a t ls :
  keeps_settled ls (updateSessionEnd stamp a t ls).
Proof.
  intros k e n s H S. destruct (String.eqb_spec k a) as [->|N].
  - rewrite record_of_close_same, H. simpl.
    eexists; split; [reflexivity|].
    destruct (ongoing e) eqn:O; auto.
    now apply settled_update_last.
  - rewrite record_of_close_other by assumption. eauto.
Qed.

(** X3.  A session that has ended, or that is not the latest of its record,
    is never touched again: after any course of starts, stops and ticks the
    record still has that very session at the same place. *)
Theorem settled_sessions_are_kept :
  forall (evs : list Event) (st : State) (k : string) (e : StoredEpisode)
         (n : nat) (s : Session),
    record_of k (localStorage st) = Some e ->
    nth_error (sessions e) n = Some s ->
    is_open s = false \/ (S n < List.length (sessions e))%nat ->
    exists e',
      record_of k (localStorage (run evs st)) = Some e'
      /\ nth_error (sessions e') n = Some s.
Proof.
  intros evs st k e n s H N C.
  destruct (run_lift keeps_settled keeps_settled_refl keeps_settled_trans
              keeps_settled_store keeps_settled_close evs st k e n s H
              (conj N C)) as (e' & H' & S' & _).
  eauto.
Qed.

Lemma settled_sessions_are_kept_witness :
  exists e',
    record_of "x"
      (localStorage
         (run [Fire 1 (at_second 60 (plays (episode "x" 60000 (Some acme)) 0));
               Fire 1 (at_second 70 NoContent)]
            (run sample_run (init no_storage)))) = Some e'
    /\ nth_error (sessions e') 0 = Some (mkSession 10000 (Some 20000) 0).
Proof.
  apply (settled_sessions_are_kept _ _ "x"
           (with_tracking
              (stored_record 10000 (episode "x" 60000 (Some acme)) 0 10000 None)
              0 20000 10000 [mkSession 10000 (Some 20000) 0])).
  - reflexivity.
  - reflexivity.
  - left. reflexivity.
Defined.

(** ** Sessions in the order of time *)

Lemma chronological_mono T T' ss :
  T <= T' -> chronological T ss -> chronological T' ss.
Proof.
  intros L. induction ss as [|s r IH]; simpl; auto.
  intros (A & B & C & D). repeat split; auto; try lia.
  destruct (ended_at s); auto. lia.
Qed.

Lemma chronological_started T ss :
  chronological T ss -> Forall (fun s => started_at s <= T) ss.
Proof.
  induction ss as [|s r IH]; simpl; auto.
  intros (A & _ & _ & D). constructor; auto.
Qed.

Lemma chronological_append T t p ss :
  T <= t -> chronological T ss ->
  chronological t (ss ++ [mkSession t None p]).
Proof.
  intros L. induction ss as [|s r IH]; simpl.
  - intros _. repeat split; auto. lia.
  - intros (A & B & C & D). repeat split; auto; try lia.
    + destruct (ended_at s); auto. lia.
    + apply Forall_app. split; auto.
      constructor; auto. simpl. lia.
Qed.

Lemma Forall_update_last (P : Session -> Prop) f ss :
  (forall s, P s -> P (f s)) -> Forall P ss -> Forall P (update_last f ss).
Proof.
  intros F. induction ss as [|s r IH]; simpl; auto.
  intros H. inversion H; subst.
  destruct r as [|y r']; [constructor; auto|].
  constructor; auto.
Qed.

(** A mutation of the last session that keeps its start and gives it an
    end, if any, between its start and [T']. *)
Lemma chronological_update_last T T' f ss :
  T <= T' ->
  (forall s, started_at (f s) = started_at s) ->
  (forall s,
      match ended_at s with
      | Some u => started_at s <= u /\ u <= T
      | None => True
      end ->
      started_at s <= T ->
      match ended_at (f s) with
      | Some u => started_at s <= u /\ u <= T'
      | None => True
      end) ->
  chronological T ss -> chronological T' (update_last f ss).
Proof.
  intros L Fs Fe. induction ss as [|s r IH]; simpl; auto.
  intros (A & B & C & D). destruct r as [|y r'].
  - simpl. rewrite Fs. repeat split; auto; try lia.
    specialize (Fe s B A). destruct (ended_at (f s)); auto.
  - change (update_last f (s :: y :: r'))
      with (s :: update_last f (y :: r')).
    specialize (IH D).
    remember (update_last f (y :: r')) as u eqn:U.
    simpl. repeat split; auto; try lia.
    + destruct (ended_at s); auto. lia.
    + subst u. apply Forall_update_last; auto. intros s'. now rewrite Fs.
Qed.

Lemma chronological_stored_record T stamp it p t e :
  T <= stamp -> chronological T (sessions e) ->
  chronological stamp (sessions (stored_record stamp it p t (Some e))).
Proof.
  intros L C. simpl. destruct (ongoing e).
  - apply (chronological_update_last T); auto.
    intros s E S. simpl. destruct (ended_at s); auto. lia.
  - now apply (chronological_append T).
Qed.

Lemma chronological_closed_record T stamp t e :
  T <= stamp -> chronological T (sessions e) ->
  chronological stamp (sessions (closed_record stamp t e)).
Proof.
  intros L C. simpl. apply (chronological_update_last T); auto.
  intros s E S. simpl. lia.
Qed.

Lemma chronological_ledger_mono T T' l :
  T <= T' -> chronological_ledger T l -> chronological_ledger T' l.
Proof.
  intros L C k e I. apply (chronological_mono T); auto. now apply (C k e).
Qed.

Lemma chronological_store T stamp it p t ls :
  T <= stamp -> chronological_ledger T (ledger_of ls) ->
  chronological_ledger stamp (ledger_of (storeEpisode stamp it p t ls)).
Proof.
  intros L C. rewrite storeEpisode_eq, ledger_of_setItem.
  intros k e I. apply In_assign in I. destruct I as [[-> ->]|I].
  - unfold record_of.
    destruct (lookup (item_id it) (ledger_of ls)) as [x|] eqn:E.
    + apply (chronological_stored_record T); auto.
      apply lookup_In in E. now apply (C _ _ E).
    + simpl. repeat split; auto. lia.
  - apply (chronological_mono T); auto. now apply (C k e).
Qed.

Lemma chronological_close T stamp a t ls :
  T <= stamp -> chronological_ledger T (ledger_of ls) ->
  chronological_ledger stamp (ledger_of (updateSessionEnd stamp a t ls)).
Proof.
  intros L C. rewrite updateSessionEnd_eq. unfold record_of.
  destruct (lookup a (ledger_of ls)) as [x|] eqn:E;
    [|now apply (chronological_ledger_mono T)].
  destruct (ongoing x); [|now apply (chronological_ledger_mono T)].
  rewrite ledger_of_setItem.
  intros k e I. apply In_assign in I. destruct I as [[-> ->]|I].
  - apply (chronological_closed_record T); auto.
    apply lookup_In in E. now apply (C _ _ E).
  - apply (chronological_mono T); auto. now apply (C k e).
Qed.

Lemma chronological_tick T i st :
  T <= stamp i ->
  chronological_ledger T (ledger_of (localStorage st)) ->
  chronological_ledger (stamp i) (ledger_of (localStorage (tick i st))).
Proof.
  intros L C. rewrite tick_eq. cbv zeta.
  assert (M : chronological_ledger (stamp i) (ledger_of (localStorage st)))
    by now apply (chronological_ledger_mono T).
  destruct (snapshot (response i)) as [|it p|it|it]; auto.
  - rewrite endOngoing_storage, active_set_poll.
    destruct (active st); auto. now apply (chronological_close T).
  - simpl. apply (chronological_store (stamp i)); [lia|].
    unfold end_previous. rewrite active_set_poll.
    destruct (active st) as [a|]; auto.
    destruct (String.eqb a (item_id it)); auto.
    now apply (chronological_close T).
  - rewrite endOngoing_storage, active_set_poll.
    destruct (active st); auto. now apply (chronological_close T).
Qed.

Lemma chronological_run evs : forall T st,
  stamps_from T evs ->
  chronological_ledger T (ledger_of (localStorage st)) ->
  chronological_ledger (last_stamp T evs)
    (ledger_of (localStorage (run evs st))).
Proof.
  induction evs as [|ev r IH]; intros T st S C; simpl; auto.
  destruct ev as [t h| |h i]; simpl in *.
  - apply IH; auto. unfold startPlaybackTracking.
    now destruct (pollingInterval st).
  - apply IH; auto. unfold stopPlaybackTracking.
    now destruct (pollingInterval st).
  - destruct S as [L S]. apply IH; auto.
    destruct (existsb (Pos.eqb h) (timers st)).
    + now apply (chronological_tick T).
    + now apply (chronological_ledger_mono T).
Qed.

Lemma chronological_sorted T ss :
  chronological T ss ->
  StronglySorted (fun a b => started_at a <= started_at b) ss
  /\ Forall (fun s => forall u, ended_at s = Some u -> started_at s <= u) ss.
Proof.
  induction ss as [|s r IH]; simpl.
  - split; constructor.
  - intros (A & B & C & D). destruct (IH D) as [S E].
    split; constructor; auto.
    intros u U. rewrite U in B. lia.
Qed.

(** X4.  When the clock that stamps the ledger does not run backwards, the
    sessions of every record stay in the order of their start, and no
    session ends before it started: if that is so for a ledger whose stamps
    are all at most [T], it is so after any course of events whose ticks are
    stamped in non-decreasing order from [T] on. *)
Theorem sessions_stay_chronological :
  forall (evs : list Event) (T : Z) (st : State) (k : string)
         (e : StoredEpisode),
    stamps_from T evs ->
    chronological_ledger T (ledger_of (localStorage st)) ->
    record_of k (localStorage (run evs st)) = Some e ->
    StronglySorted (fun a b => started_at a <= started_at b) (sessions e)
    /\ Forall (fun s => forall u, ended_at s = Some u -> started_at s <= u)
         (sessions e)
    /\ Forall (fun s => started_at s <= last_stamp T evs) (sessions e).
Proof.
  intros evs T st k e S C R.
  pose proof (chronological_run evs T st S C) as H.
  apply lookup_In in R. specialize (H k e R).
  destruct (chronological_sorted _ _ H) as [A B].
  repeat split; auto. now apply chronological_started.
Qed.

Lemma sessions_stay_chronological_witness :
  StronglySorted (fun a b => started_at a <= started_at b)
    [mkSession 20000 (Some 30000) 0; mkSession 40000 (Some 50000) 5000]
  /\ Forall (fun s => forall u, ended_at s = Some u -> started_at s <= u)
       [mkSession 20000 (Some 30000) 0; mkSession 40000 (Some 50000) 5000]
  /\ Forall (fun s => started_at s <= last_stamp 0 sample_run)
       [mkSession 20000 (Some 30000) 0; mkSession 40000 (Some 50000) 5000].
Proof.
  apply (sessions_stay_chronological sample_run 0 (init no_storage) "y"
           (mkStored "y" "y" EmptyString 60000 "2024-01-01" [] "episode" acme
              20000 5000 40000 40000 20000
              [mkSession 20000 (Some 30000) 0;
               mkSession 40000 (Some 50000) 5000])).
  - simpl. lia.
  - intros k e [].
  - reflexivity.
Defined.

(** ** Accumulated time only grows *)

Lemma localStorage_set_episode id ls st :
  localStorage (set_episode id ls st) = ls.
Proof. reflexivity. Qed.

Lemma localStorage_start t h st :
  localStorage (startPlaybackTracking t h st) = localStorage st.
Proof. unfold startPlaybackTracking. now destruct (pollingInterval st). Qed.

Lemma localStorage_stop st :
  localStorage (stopPlaybackTracking st) = localStorage st.
Proof. unfold stopPlaybackTracking. now destruct (pollingInterval st). Qed.

Lemma localStorage_set_poll t st :
  localStorage (set_poll t st) = localStorage st.
Proof. reflexivity. Qed.

Lemma total_grows_refl ls : total_grows ls ls.
Proof. intros k e H. exists e. split; auto. lia. Qed.

Lemma total_grows_trans a b c :
  total_grows a b -> total_grows b c -> total_grows a c.
Proof.
  intros A B k e H.
  destruct (A k e H) as (e1 & H1 & L1).
  destruct (B k e1 H1) as (e2 & H2 & L2).
  exists e2. split; auto. lia.
Qed.

Section Growth.

Variable dur : string -> Z.

Lemma total_grows_store stamp it p t ls :
  0 <= t ->
  item_duration_ms it = dur (item_id it) ->
  within_duration dur (ledger_of ls) ->
  total_grows ls (storeEpisode stamp it p t ls).
Proof.
  intros T D W k e H. destruct (String.eqb_spec k (item_id it)) as [->|N].
  - rewrite record_of_store_same, H. eexists; split; [reflexivity|].
    apply lookup_In, W in H. destruct H as [H1 H2].
    simpl. rewrite D, H1, or_num_same. lia.
  - rewrite record_of_store_other by assumption. exists e. split; auto. lia.
Qed.

Lemma total_grows_close stamp a t ls :
  0 <= t ->
  within_duration dur (ledger_of ls) ->
  total_grows ls (updateSessionEnd stamp a t ls).
Proof.
  intros T W k e H. destruct (String.eqb_spec k a) as [->|N].
  - rewrite record_of_close_same, H. simpl.
    eexists; split; [reflexivity|].
    apply lookup_In, W in H. destruct H as [H1 H2].
    destruct (ongoing e); simpl; lia.
  - rewrite record_of_close_other by assumption. exists e. split; auto. lia.
Qed.

Lemma total_grows_tick i st :
  lastPollTime st <= now i ->
  match snapshot (response i) with
  | Playing it _ => item_duration_ms it = dur (item_id it)
  | _ => True
  end ->
  within_duration dur (ledger_of (localStorage st)) ->
  total_grows (localStorage st) (localStorage (tick i st)).
Proof.
  intros L R W. rewrite tick_eq. cbv zeta.
  assert (T : 0 <= now i - lastPollTime st) by lia.
  destruct (snapshot (response i)) as [|it p|it|it];
    try apply total_grows_refl.
  - rewrite endOngoing_storage, active_set_poll.
    destruct (active st); [now apply total_grows_close | apply total_grows_refl].
  - rewrite localStorage_set_episode. unfold end_previous.
    rewrite active_set_poll, localStorage_set_poll.
    destruct (active st) as [a|]; [|now apply total_grows_store].
    destruct (String.eqb a (item_id it)); [now apply total_grows_store|].
    apply (total_grows_trans _
             (updateSessionEnd (stamp i) a (now i - lastPollTime st)
                (localStorage st))).
    + now apply total_grows_close.
    + apply total_grows_store; auto. now apply updateSessionEnd_within.
  - rewrite endOngoing_storage, active_set_poll.
    destruct (active st); [now apply total_grows_close | apply total_grows_refl].
Qed.

Lemma total_grows_run evs : forall T st,
  Forall (reports dur) evs ->
  polls_from T evs ->
  lastPollTime st <= T ->
  within_duration dur (ledger_of (localStorage st)) ->
  total_grows (localStorage st) (localStorage (run evs st)).
Proof.
  induction evs as [|ev r IH]; intros T st F P L W; simpl.
  - apply total_grows_refl.
  - inversion F as [|? ? Rv Fr]; subst.
    assert (W' : within_duration dur (ledger_of (localStorage (step ev st)))).
    { apply (step_within dur (localStorage st) ev st Rv).
      now apply tracked_start. }
    destruct ev as [t h| |h i]; simpl in *.
    + destruct P as [Lt P].
      rewrite <- (localStorage_start t h st) at 1.
      apply (IH t); auto.
      unfold startPlaybackTracking. destruct (pollingInterval st); simpl; lia.
    + rewrite <- (localStorage_stop st) at 1.
      apply (IH T); auto.
      unfold stopPlaybackTracking. now destruct (pollingInterval st).
    + destruct P as [Lt P].
      destruct (existsb (Pos.eqb h) (timers st)).
      * apply (total_grows_trans _ (localStorage (tick i st)));
          [apply total_grows_tick; [lia | exact Rv | exact W]|].
        apply (IH (now i)); auto.
        destruct (tick_service_fields i st) as (_ & _ & E). lia.
      * apply (IH (now i)); auto. lia.
Qed.

End Growth.

(** X5.  Let the provider report one duration per episode, let the ledger
    hold those durations and no more accumulated time than they allow, and
    let [Date.now()] not run backwards from the last poll on.  Then no course
    of starts, stops and ticks lowers the accumulated time of a record. *)
Theorem total_played_never_decreases :
  forall (dur : string -> Z) (evs : list Event) (T : Z) (st : State)
         (k : string) (e : StoredEpisode),
    Forall (reports dur) evs ->
    polls_from T evs ->
    lastPollTime st <= T ->
    within_duration dur (ledger_of (localStorage st)) ->
    record_of k (localStorage st) = Some e ->
    exists e',
      record_of k (localStorage (run evs st)) = Some e'
      /\ total_played_ms e <= total_played_ms e'.
Proof.
  intros dur evs T st k e F P L W H.
  exact (total_grows_run dur evs T st F P L W k e H).
Qed.

Lemma total_played_never_decreases_witness :
  exists e',
    record_of "x"
      (localStorage
         (run [Fire 1 (at_second 20 (plays (episode "x" 60000 None) 10000));
               Fire 1 (at_second 30 NoContent)]
            (run first_tick_run (init no_storage)))) = Some e'
    /\ total_played_ms
         (stored_record 10000 (episode "x" 60000 None) 0 10000 None)
       <= total_played_ms e'.
Proof.
  apply (total_played_never_decreases (fun _ => 60000) _ 10000).
  - repeat constructor.
  - simpl. lia.
  - simpl. lia.
  - intros k e [H|[]]. inversion H; subst. simpl. lia.
  - reflexivity.
Defined.

(** Without the condition on the durations the accumulated time can drop:
    the record of [longer_episode_run] has 15000 ms, and a response that
    reports the episode with 5000 ms again cuts it to 5000 ms. *)
Example total_can_drop :
  let st := run longer_episode_run (init no_storage) in
  total_of "x" (localStorage st) = Some 15000
  /\ total_of "x"
       (localStorage
          (tick (at_second 30 (plays (episode "x" 5000 None) 5000)) st))
     = Some 5000.
Proof. split; reflexivity. Qed.

(** ** The episode that just played *)

Lemma In_values_assign k e l y :
  In y (map snd (assign k e l)) -> y = e \/ In y (map snd l).
Proof.
  rewrite !in_map_iff. intros ([k' e'] & E & I). simpl in E. subst e'.
  apply In_assign in I. destruct I as [[_ ->]|I]; auto.
  right. exists (k', y). auto.
Qed.

Lemma In_assign_same k e l : In (k, e) (assign k e l).
Proof. apply lookup_In, lookup_assign_same. Qed.

(** An element played later than all the others heads the sorted list. *)
Lemma array_sort_head (x : StoredEpisode) (l : list StoredEpisode) :
  In x l ->
  (forall y, In y l -> y = x \/ last_played_at y < last_played_at x) ->
  exists t, array_sort by_last_played l = x :: t.
Proof.
  intros I M.
  pose proof (array_sort_perm by_last_played l) as P.
  pose proof (array_sort_sorted l) as S.
  destruct (array_sort by_last_played l) as [|h t].
  - apply Permutation_nil in P. subst l. destruct I.
  - exists t. f_equal.
    assert (Ih : In h l) by (eapply Permutation_in; [exact P | now left]).
    destruct (M h Ih) as [E|L]; auto.
    assert (Ix : In x (h :: t))
      by (eapply Permutation_in; [symmetry; exact P | exact I]).
    destruct Ix as [E|Ix]; auto.
    inversion S as [|? ? _ F]; subst.
    rewrite Forall_forall in F. specialize (F x Ix).
    unfold most_recent_first in F. lia.
Qed.

Lemma last_played_close stamp a t ls k e :
  In (k, e) (ledger_of (updateSessionEnd stamp a t ls)) ->
  exists e0, In (k, e0) (ledger_of ls) /\ last_played_at e = last_played_at e0.
Proof.
  rewrite updateSessionEnd_eq. unfold record_of.
  destruct (lookup a (ledger_of ls)) as [x|] eqn:L; [|eauto].
  destruct (ongoing x); [|eauto].
  rewrite ledger_of_setItem. intros I. apply In_assign in I.
  destruct I as [[-> ->]|I]; [|eauto].
  exists x. split; [now apply lookup_In | reflexivity].
Qed.

(** X6.  After a tick that sees an episode playing, with a stamp later than
    every [last_played_at] of the ledger, that episode is the first of the
    recently played episodes, for every limit of at least one, and its
    [played_at] is the stamp of the tick. *)
Theorem just_played_is_listed_first :
  forall (i : TickInput) (st : State) (it : Item) (p : Z) (limit : Z),
    snapshot (response i) = Playing it p ->
    (forall k e, In (k, e) (ledger_of (localStorage st)) ->
                 last_played_at e < stamp i) ->
    1 <= limit ->
    exists e,
      record_of (item_id it) (localStorage (tick i st)) = Some e
      /\ last_played_at e = stamp i
      /\ hd_error (getRecentlyPlayedEpisodes (Some limit)
                     (localStorage (tick i st)))
         = Some (toSpotifyEpisode e)
      /\ r_played_at (toSpotifyEpisode e) = stamp i.
Proof.
  intros i st it p limit S Old L.
  rewrite tick_eq. cbv zeta. rewrite S, localStorage_set_episode.
  set (dt := now i - lastPollTime st).
  set (ls1 := end_previous (stamp i) dt (item_id it) (set_poll (now i) st)).
  assert (Old1 : forall k e, In (k, e) (ledger_of ls1) ->
                             last_played_at e < stamp i).
  { unfold ls1, end_previous. rewrite active_set_poll, localStorage_set_poll.
    destruct (active st) as [a|]; auto.
    destruct (String.eqb a (item_id it)); auto.
    intros k e I. apply last_played_close in I.
    destruct I as (e0 & I0 & ->). now apply (Old k e0). }
  set (rec := stored_record (stamp i) it p dt (record_of (item_id it) ls1)).
  assert (Lr : last_played_at rec = stamp i).
  { unfold rec. now destruct (record_of (item_id it) ls1). }
  exists rec. split; [apply record_of_store_same|].
  split; [exact Lr|]. split; [|exact Lr].
  unfold getRecentlyPlayedEpisodes, getStoredEpisodes.
  rewrite storeEpisode_eq. fold rec. simpl stored.
  destruct (array_sort_head rec
              (Js.values (assign (item_id it) rec (ledger_of ls1)))) as (t & E).
  - apply (Permutation_in _ (Permutation_sym (values_perm _))).
    apply in_map_iff. exists (item_id it, rec). split; auto.
    apply In_assign_same.
  - intros y Iy. apply (Permutation_in _ (values_perm _)) in Iy.
    apply In_values_assign in Iy. destruct Iy as [->|Iy]; auto.
    right. apply in_map_iff in Iy. destruct Iy as ([k e] & <- & I).
    rewrite Lr. now apply (Old1 k e).
  - rewrite E. cbv zeta. rewrite slice0_firstn by lia.
    destruct (Z.to_nat limit) eqn:N; [lia | reflexivity].
Qed.

Lemma just_played_is_listed_first_witness :
  exists e,
    record_of "x"
      (localStorage
         (tick (at_second 60 (plays (episode "x" 60000 (Some acme)) 0))
            (run sample_run (init no_storage)))) = Some e
    /\ last_played_at e = 60000
    /\ hd_error (getRecentlyPlayedEpisodes (Some 50)
                   (localStorage
                      (tick (at_second 60 (plays (episode "x" 60000 (Some acme)) 0))
                         (run sample_run (init no_storage)))))
       = Some (toSpotifyEpisode e)
    /\ r_played_at (toSpotifyEpisode e) = 60000.
Proof.
  apply (just_played_is_listed_first
           (at_second 60 (plays (episode "x" 60000 (Some acme)) 0))
           (run sample_run (init no_storage))
           (episode "x" 60000 (Some acme)) 0 50).
  - reflexivity.
  - intros k e I. vm_compute in I.
    destruct I as [I|[I|[I|[]]]]; inversion I; subst; vm_compute; reflexivity.
  - lia.
Defined.

(** ** The timer *)

Lemma one_timer_step ev st : one_timer st -> one_timer (step ev st).
Proof.
  unfold one_timer. intros O. destruct ev as [t h| |h i]; simpl.
  - unfold startPlaybackTracking.
    destruct (pollingInterval st) eqn:P; simpl; rewrite ?P; auto.
    now rewrite O.
  - unfold stopPlaybackTracking.
    destruct (pollingInterval st) as [h|] eqn:P; simpl; rewrite ?P; auto.
    rewrite O. simpl. destruct (Pos.eq_dec h h); [reflexivity | congruence].
  - destruct (existsb (Pos.eqb h) (timers st)); auto.
    destruct (tick_service_fields i st) as (P & T & _). now rewrite P, T.
Qed.

Lemma one_timer_run evs : forall st, one_timer st -> one_timer (run evs st).
Proof.
  induction evs as [|ev r IH]; intros st O; simpl; auto.
  apply IH. now apply one_timer_step.
Qed.

(** X7.  However often tracking is started and stopped after a page load,
    there is never more than one interval timer, and it is the one the
    service holds in [pollingInterval]; [stopPlaybackTracking] leaves none,
    so that no callback runs until tracking is started again. *)
Theorem at_most_one_polling_timer :
  forall (evs : list Event) (ls : Storage),
    let st := run evs (init ls) in
    (List.length (timers st) <= 1)%nat
    /\ (forall h, In h (timers st) <-> pollingInterval st = Some h)
    /\ timers (stopPlaybackTracking st) = []
    /\ pollingInterval (stopPlaybackTracking st) = None
    /\ forall h i,
         step (Fire h i) (stopPlaybackTracking st) = stopPlaybackTracking st.
Proof.
  intros evs ls st.
  assert (O : one_timer st) by (apply one_timer_run; reflexivity).
  pose proof (one_timer_step Stop st O) as O'. simpl in O'.
  unfold one_timer in O, O'.
  assert (P : pollingInterval (stopPlaybackTracking st) = None).
  { unfold stopPlaybackTracking.
    destruct (pollingInterval st) eqn:E; simpl; auto. }
  rewrite P in O'.
  split; [|split; [|split; [|split]]]; auto.
  - destruct (pollingInterval st); rewrite O; simpl; lia.
  - intros h. destruct (pollingInterval st) as [h0|]; rewrite O; simpl.
    + split; [intros [->|[]]; reflexivity | intros [= ->]; now left].
    + split; [intros [] | discriminate].
  - intros h i. simpl. now rewrite O'.
Qed.

(** * Properties of the token functions *)

(** The world after one reading of the clock. *)
Lemma now_run w :
  Auth.now w = (Auth.Ok (Auth.time w), snd (Auth.now w))
  /\ Auth.token_item (snd (Auth.now w)) = Auth.token_item w
  /\ Auth.sent (snd (Auth.now w)) = Auth.sent w
  /\ Auth.reads (snd (Auth.now w)) = S (Auth.reads w)
  /\ Auth.clock (snd (Auth.now w)) = Auth.clock w.
Proof. repeat split. Qed.

Lemma getStoredToken_run w :
  Auth.getStoredToken w =
  match Auth.token_item w with
  | None => (Auth.Ok None, w)
  | Some tk =>
      (Auth.Ok (if Auth.time w >=? Auth.expiresAt tk then None else Some tk),
       snd (Auth.now w))
  end.
Proof.
  unfold Auth.getStoredToken, Auth.bind, Auth.getItem, Auth.ret. simpl.
  destruct (Auth.token_item w) as [tk|] eqn:E; auto.
  unfold Auth.time.
  destruct (Auth.clock w (Auth.reads w) >=? Auth.expiresAt tk);
    rewrite E; reflexivity.
Qed.

(** [getStoredToken] only reads. *)
Lemma getStoredToken_frame w :
  Auth.token_item (snd (Auth.getStoredToken w)) = Auth.token_item w
  /\ Auth.sent (snd (Auth.getStoredToken w)) = Auth.sent w
  /\ Auth.clock (snd (Auth.getStoredToken w)) = Auth.clock w
  /\ (Auth.reads w <= Auth.reads (snd (Auth.getStoredToken w)))%nat.
Proof.
  rewrite getStoredToken_run.
  destruct (Auth.token_item w) eqn:E; simpl; rewrite ?E; repeat split; lia.
Qed.

Lemma isAuthenticated_run w :
  fst (Auth.isAuthenticated w) =
  Auth.Ok (match Auth.token_item w with
           | Some tk => Auth.time w <? Auth.expiresAt tk
           | None => false
           end).
Proof.
  unfold Auth.isAuthenticated, Auth.bind. rewrite getStoredToken_run.
  destruct (Auth.token_item w) as [tk|]; simpl; auto.
  unfold Auth.ret. rewrite Z.geb_leb, Z.ltb_antisym.
  now destruct (Auth.expiresAt tk <=? Auth.time w).
Qed.

(** ** The exchange of the code *)

(** X8.  When [exchangeCodeForToken] returns a token, a grant was received
    for the one request it sent; the token is the one now stored, and it
    expires one minute before the grant does, counted from the reading of
    the clock after the answer.  From then on [isAuthenticated] says yes
    exactly while the clock is before that time; a grant of a minute or
    less is never authenticated if the clock does not run backwards. *)
Theorem exchange_stores_the_grant :
  forall (cfg : Auth.Config) (code : string) (w w' : Auth.World)
         (tk : Auth.SpotifyToken),
    Auth.exchangeCodeForToken cfg code w = (Auth.Ok tk, w') ->
    exists secret data,
      Auth.sent w' =
        Auth.TokenRequest (Auth.client_id cfg) (Some secret)
          (Auth.AuthorizationCode code (Auth.redirect_uri cfg)) :: Auth.sent w
      /\ Auth.token_endpoint w (Auth.sent w') = Auth.Granted data
      /\ tk = Auth.mkToken (Auth.access_token data) (Auth.refresh_token data)
                (Auth.time w + Auth.expires_in data * 1000 - 60000)
      /\ Auth.token_item w' = Some tk
      /\ (forall w2, Auth.token_item w2 = Some tk ->
            fst (Auth.isAuthenticated w2) =
            Auth.Ok (Auth.time w2 <? Auth.expiresAt tk))
      /\ (Auth.expires_in data <= 60 -> Auth.monotone w ->
            fst (Auth.isAuthenticated w') = Auth.Ok false).
Proof.
  intros cfg code w w' tk. unfold Auth.exchangeCodeForToken.
  destruct (Auth.client_secret cfg) as [secret|]; [|discriminate].
  destruct (truthy_str secret); simpl; [|discriminate].
  destruct (truthy_str (Auth.client_id cfg)); simpl; [|discriminate].
  unfold Auth.bind, Auth.fetch_token.
  destruct (Auth.token_endpoint w _) as [data|status err|] eqn:E;
    try discriminate.
  simpl. intros H. inversion H; subst; clear H. simpl.
  exists secret, data. repeat split; auto.
  - intros w2 T. rewrite isAuthenticated_run, T. reflexivity.
  - intros Short Mo. rewrite isAuthenticated_run. simpl. f_equal.
    apply Z.ltb_ge. unfold Auth.time. simpl.
    specialize (Mo (Auth.reads w) (S (Auth.reads w))).
    assert (Auth.clock w (Auth.reads w) <= Auth.clock w (S (Auth.reads w)))
      by (apply Mo; lia).
    lia.
Qed.

Lemma exchange_stores_the_grant_witness :
  exists secret data,
    Auth.sent (logged_in silent_api) =
      Auth.TokenRequest (Auth.client_id sample_config) (Some secret)
        (Auth.AuthorizationCode "code" (Auth.redirect_uri sample_config))
      :: Auth.sent (fresh_world granting silent_api)
    /\ Auth.token_endpoint (fresh_world granting silent_api)
         (Auth.sent (logged_in silent_api)) = Auth.Granted data
    /\ Auth.mkToken "access-1" (Some "refresh-1") 4540000 =
       Auth.mkToken (Auth.access_token data) (Auth.refresh_token data)
         (Auth.time (fresh_world granting silent_api)
          + Auth.expires_in data * 1000 - 60000)
    /\ Auth.token_item (logged_in silent_api) =
       Some (Auth.mkToken "access-1" (Some "refresh-1") 4540000)
    /\ (forall w2,
          Auth.token_item w2 =
            Some (Auth.mkToken "access-1" (Some "refresh-1") 4540000) ->
          fst (Auth.isAuthenticated w2) =
          Auth.Ok (Auth.time w2 <?
                   Auth.expiresAt
                     (Auth.mkToken "access-1" (Some "refresh-1") 4540000)))
    /\ (Auth.expires_in data <= 60 ->
        Auth.monotone (fresh_world granting silent_api) ->
        fst (Auth.isAuthenticated (logged_in silent_api)) = Auth.Ok false).
Proof.
  apply (exchange_stores_the_grant sample_config "code"
           (fresh_world granting silent_api)).
  reflexivity.
Defined.

(** ** Refreshing *)

(** X9.  [refreshAccessToken] sends one request.  A grant is stored, with
    the refresh token that was used when the grant brings none or an empty
    one, so that a usable refresh token is followed by a usable one.  A
    rejection removes the stored token.  When the request itself fails, the
    stored token stays as it is. *)
Theorem refresh_outcomes :
  forall (cfg : Auth.Config) (r : string) (w : Auth.World),
    let out := Auth.refreshAccessToken cfg r w in
    Auth.sent (snd out) = refresh_request cfg r :: Auth.sent w
    /\ match Auth.token_endpoint w (refresh_request cfg r :: Auth.sent w) with
       | Auth.Granted data =>
           exists tk,
             fst out = Auth.Ok tk
             /\ Auth.token_item (snd out) = Some tk
             /\ Auth.accessToken tk = Auth.access_token data
             /\ Auth.expiresAt tk =
                Auth.time w + Auth.expires_in data * 1000 - 60000
             /\ (Auth.refresh_token data = None
                 \/ Auth.refresh_token data = Some EmptyString ->
                 Auth.refreshToken tk = Some r)
             /\ (truthy_str r = true ->
                 Auth.usable_refresh (Some tk) <> None)
       | Auth.Rejected _ _ =>
           fst out = Auth.Err Auth.RefreshFailed
           /\ Auth.token_item (snd out) = None
       | Auth.TokenUnreachable =>
           fst out = Auth.Err Auth.FetchFailed
           /\ Auth.token_item (snd out) = Auth.token_item w
       end.
Proof.
  intros cfg r w out. unfold out, Auth.refreshAccessToken, Auth.bind,
    Auth.fetch_token, refresh_request.
  destruct (Auth.token_endpoint w _) as [data|status err|]; simpl; auto.
  split; auto. eexists. repeat split.
  - simpl. intros [E|E]; rewrite E; reflexivity.
  - simpl. intros T. unfold Auth.usable_refresh. simpl.
    destruct (Auth.refresh_token data) as [s|]; simpl.
    + unfold or_str. destruct (truthy_str s) eqn:Ts; rewrite ?Ts, ?T; discriminate.
    + rewrite T. discriminate.
Qed.

Lemma refresh_result cfg r w res w' :
  Auth.refreshAccessToken cfg r w = (res, w') ->
  match res with
  | Auth.Ok tk => Auth.token_item w' = Some tk
  | Auth.Err f =>
      (f = Auth.RefreshFailed /\ Auth.token_item w' = None)
      \/ (f = Auth.FetchFailed /\ Auth.token_item w' = Auth.token_item w)
  end.
Proof.
  unfold Auth.refreshAccessToken, Auth.bind, Auth.fetch_token.
  destruct (Auth.token_endpoint w _) as [data|status err|]; simpl;
    intros H; inversion H; subst; simpl; auto.
Qed.

Lemma refresh_sent cfg r w :
  Auth.sent (snd (Auth.refreshAccessToken cfg r w)) =
  refresh_request cfg r :: Auth.sent w.
Proof.
  unfold Auth.refreshAccessToken, Auth.bind, Auth.fetch_token, refresh_request.
  now destruct (Auth.token_endpoint w _).
Qed.

(** ** The token for a request *)

Arguments Auth.usable_refresh : simpl never.
Arguments Auth.refreshAccessToken : simpl never.

(** Case analysis on the refresh that the goal runs. *)
Ltac on_refresh R tk f w :=
  match goal with
  | |- context [Auth.refreshAccessToken ?c ?r ?x] =>
      destruct (Auth.refreshAccessToken c r x) as [[tk|f] w] eqn:R
  end.

Lemma getValidToken_result cfg w res w' :
  Auth.getValidToken cfg w = (res, w') ->
  match res with
  | Auth.Ok a =>
      exists tk, Auth.token_item w' = Some tk /\ Auth.accessToken tk = a
  | Auth.Err f =>
      (f = Auth.NoValidToken /\ Auth.token_item w' = Auth.token_item w)
      \/ (f = Auth.RefreshFailed /\ Auth.token_item w' = None)
      \/ (f = Auth.FetchFailed /\ Auth.token_item w' = Auth.token_item w)
  end.
Proof.
  unfold Auth.getValidToken, Auth.bind. rewrite getStoredToken_run.
  destruct (Auth.token_item w) as [tk|] eqn:E.
  - destruct (Auth.time w >=? Auth.expiresAt tk).
    + unfold Auth.throw. intros H; inversion H; subst. simpl. auto.
    + simpl.
      destruct (_ >=? Auth.expiresAt tk).
      * destruct (Auth.usable_refresh (Some tk)) as [r|].
        -- on_refresh R tk' f w1; apply refresh_result in R; simpl in R.
           ++ unfold Auth.ret. intros H; inversion H; subst. eauto.
           ++ intros H; inversion H; subst.
              destruct R as [[-> R]|[-> R]]; auto.
              right. right. split; auto. now rewrite R.
        -- unfold Auth.throw. intros H; inversion H; subst. simpl. auto.
      * unfold Auth.ret. intros H; inversion H; subst. simpl. eauto.
  - unfold Auth.throw. intros H; inversion H; subst. auto.
Qed.

Lemma getValidToken_expired cfg w :
  no_valid_token w ->
  Auth.getValidToken cfg w =
  (Auth.Err Auth.NoValidToken, snd (Auth.getStoredToken w)).
Proof.
  intros N. unfold no_valid_token in N.
  unfold Auth.getValidToken, Auth.bind. rewrite getStoredToken_run.
  destruct (Auth.token_item w) as [tk|] eqn:E; simpl; auto.
  now destruct (Z.geb_spec (Auth.time w) (Auth.expiresAt tk)); [|lia].
Qed.

(** X10.  When no token is stored, or the stored one has expired at the
    first reading of the clock, [getValidToken] fails with "no valid token":
    it sends nothing and leaves the store as it is, also when the stored
    token has a refresh token. *)
Theorem expired_token_is_not_refreshed :
  forall (cfg : Auth.Config) (w : Auth.World),
    no_valid_token w ->
    fst (Auth.getValidToken cfg w) = Auth.Err Auth.NoValidToken
    /\ Auth.sent (snd (Auth.getValidToken cfg w)) = Auth.sent w
    /\ Auth.token_item (snd (Auth.getValidToken cfg w)) = Auth.token_item w.
Proof.
  intros cfg w N. rewrite (getValidToken_expired cfg w N). simpl.
  destruct (getStoredToken_frame w) as (A & B & _). auto.
Qed.

Lemma expired_token_is_not_refreshed_witness :
  fst (Auth.getValidToken sample_config stale_world)
  = Auth.Err Auth.NoValidToken
  /\ Auth.sent (snd (Auth.getValidToken sample_config stale_world))
     = Auth.sent stale_world
  /\ Auth.token_item (snd (Auth.getValidToken sample_config stale_world))
     = Auth.token_item stale_world.
Proof.
  apply expired_token_is_not_refreshed. unfold no_valid_token. simpl.
  unfold Auth.time. simpl. unfold sample_clock. simpl. lia.
Defined.

(** X11.  A token that [getValidToken] returns is the access token of the
    token stored when it returns.  Either nothing was sent and the store is
    as before, or the stored token expired between the two readings of the
    clock and one refresh request was sent. *)
Theorem valid_token_is_the_stored_one :
  forall (cfg : Auth.Config) (w w' : Auth.World) (a : string),
    Auth.getValidToken cfg w = (Auth.Ok a, w') ->
    exists tk,
      Auth.token_item w' = Some tk
      /\ Auth.accessToken tk = a
      /\ ((Auth.sent w' = Auth.sent w /\ Auth.token_item w = Some tk
           /\ Auth.clock w (S (Auth.reads w)) < Auth.expiresAt tk)
          \/ exists old r,
               Auth.token_item w = Some old
               /\ Auth.time w < Auth.expiresAt old
               /\ Auth.expiresAt old <= Auth.clock w (S (Auth.reads w))
               /\ Auth.usable_refresh (Some old) = Some r
               /\ Auth.sent w' = refresh_request cfg r :: Auth.sent w).
Proof.
  intros cfg w w' a. unfold Auth.getValidToken, Auth.bind.
  rewrite getStoredToken_run.
  destruct (Auth.token_item w) as [tk|] eqn:E; [|discriminate].
  destruct (Z.geb_spec (Auth.time w) (Auth.expiresAt tk)); [discriminate|].
  simpl.
  destruct (Z.geb_spec (Auth.clock w (S (Auth.reads w))) (Auth.expiresAt tk)).
  - destruct (Auth.usable_refresh (Some tk)) as [r|] eqn:U; [|discriminate].
    match goal with
    | |- context [Auth.refreshAccessToken cfg r ?x] =>
        pose proof (refresh_sent cfg r x) as Sn
    end.
    on_refresh R tk' f w1; [|discriminate].
    simpl in Sn; try rewrite R in Sn; simpl in Sn.
    apply refresh_result in R. simpl in R.
    unfold Auth.ret. intros Q; inversion Q; subst.
    exists tk'. repeat split; auto.
    right. exists tk, r. repeat split; auto.
  - unfold Auth.ret. intros Q; inversion Q; subst. simpl.
    exists tk. repeat split; auto.
Qed.

Lemma valid_token_is_the_stored_one_witness :
  exists tk,
    Auth.token_item (snd (Auth.getValidToken sample_config (logged_in silent_api)))
    = Some tk
    /\ Auth.accessToken tk = "access-1"
    /\ ((Auth.sent (snd (Auth.getValidToken sample_config (logged_in silent_api)))
         = Auth.sent (logged_in silent_api)
         /\ Auth.token_item (logged_in silent_api) = Some tk
         /\ Auth.clock (logged_in silent_api)
              (S (Auth.reads (logged_in silent_api))) < Auth.expiresAt tk)
        \/ exists old r,
             Auth.token_item (logged_in silent_api) = Some old
             /\ Auth.time (logged_in silent_api) < Auth.expiresAt old
             /\ Auth.expiresAt old
                <= Auth.clock (logged_in silent_api)
                     (S (Auth.reads (logged_in silent_api)))
             /\ Auth.usable_refresh (Some old) = Some r
             /\ Auth.sent (snd (Auth.getValidToken sample_config
                                  (logged_in silent_api)))
                = refresh_request sample_config r
                  :: Auth.sent (logged_in silent_api)).
Proof.
  apply (valid_token_is_the_stored_one sample_config (logged_in silent_api)).
  reflexivity.
Defined.

(** ** Requests with the token *)

Lemma same_outside_refl w : same_outside w w.
Proof. repeat split. Qed.

Lemma same_outside_trans a b c :
  same_outside a b -> same_outside b c -> same_outside a c.
Proof.
  unfold same_outside. intros (A1 & A2 & A3) (B1 & B2 & B3).
  repeat split; congruence.
Qed.

Lemma same_outside_stored w : same_outside w (snd (Auth.getStoredToken w)).
Proof.
  rewrite getStoredToken_run. destruct (Auth.token_item w); repeat split.
Qed.

Lemma same_outside_refresh cfg r w :
  same_outside w (snd (Auth.refreshAccessToken cfg r w)).
Proof.
  unfold Auth.refreshAccessToken, Auth.bind, Auth.fetch_token.
  destruct (Auth.token_endpoint w _); repeat split.
Qed.

Lemma same_outside_valid cfg w :
  same_outside w (snd (Auth.getValidToken cfg w)).
Proof.
  unfold Auth.getValidToken, Auth.bind. rewrite getStoredToken_run.
  destruct (Auth.token_item w) as [tk|]; [|repeat split].
  destruct (Auth.time w >=? Auth.expiresAt tk); [repeat split|].
  simpl. destruct (_ >=? Auth.expiresAt tk); [|repeat split].
  destruct (Auth.usable_refresh (Some tk)) as [r|]; [|repeat split].
  match goal with
  | |- context [Auth.refreshAccessToken cfg r ?x] =>
      pose proof (same_outside_refresh cfg r x) as Sr
  end.
  on_refresh R tk' f w1; exact Sr.
Qed.

(** The outcome of one request to the API. *)
Lemma fetch_api_run req w :
  Auth.fetch_api req w =
  (match Auth.api w (req :: Auth.sent w) with
   | Auth.ApiUnreachable => Auth.Err Auth.FetchFailed
   | reply => Auth.Ok reply
   end,
   Auth.send req w).
Proof. unfold Auth.fetch_api. now destruct (Auth.api w _). Qed.

(** The outcomes of [fetchWithAuth]. *)
Lemma fetchWithAuth_result cfg url w res w' :
  Auth.fetchWithAuth cfg url w = (res, w') ->
  match res with
  | Auth.Ok reply =>
      exists b rest tk,
        Auth.sent w' = Auth.ApiRequest url b :: rest
        /\ reply = Auth.api w (Auth.sent w')
        /\ reply <> Auth.ApiUnreachable
        /\ Auth.token_item w' = Some tk
        /\ Auth.accessToken tk = b
  | Auth.Err f =>
      (f = Auth.NoValidToken \/ f = Auth.FetchFailed)
      \/ ((f = Auth.RefreshFailed \/ f = Auth.AuthenticationFailed)
          /\ Auth.token_item w' = None)
  end.
Proof.
  unfold Auth.fetchWithAuth. unfold Auth.bind at 1.
  pose proof (same_outside_valid cfg w) as O1.
  destruct (Auth.getValidToken cfg w) as [[token|f] w1] eqn:G;
    apply getValidToken_result in G; simpl in O1.
  2:{ intros Q; inversion Q; subst.
      destruct G as [[-> _]|[[-> G]|[-> _]]]; auto. }
  destruct G as (tk1 & T1 & A1). subst token.
  unfold Auth.bind at 1. rewrite fetch_api_run.
  destruct O1 as (Oa & _ & _). rewrite Oa.
  destruct (Auth.api w (Auth.ApiRequest url (Auth.accessToken tk1)
                          :: Auth.sent w1))
    as [status body|] eqn:Ea.
  2:{ intros Q; inversion Q; subst. auto. }
  destruct (Z.eqb_spec status 401) as [->|N].
  2:{ unfold Auth.ret. intros Q; inversion Q; subst. simpl.
      exists (Auth.accessToken tk1), (Auth.sent w1), tk1. rewrite Ea.
      repeat split; auto. discriminate. }
  unfold Auth.bind at 1. rewrite getStoredToken_run. simpl Auth.token_item.
  rewrite T1.
  match goal with
  | |- context [Auth.usable_refresh ?x] =>
      destruct (Auth.usable_refresh x) as [r|]
  end.
  2:{ unfold Auth.bind, Auth.clearStoredToken, Auth.put_token, Auth.throw.
      simpl. intros Q; inversion Q; subst. simpl. auto. }
  unfold Auth.bind at 1.
  match goal with
  | |- context [Auth.refreshAccessToken cfg r ?x] =>
      pose proof (same_outside_refresh cfg r x) as O2
  end.
  on_refresh R tk' f w2; apply refresh_result in R; simpl in R, O2.
  2:{ intros Q; inversion Q; subst.
      destruct R as [[-> R]|[-> _]]; auto. }
  unfold Auth.bind at 1.
  pose proof (same_outside_valid cfg w2) as O3.
  destruct (Auth.getValidToken cfg w2) as [[newToken|f] w3] eqn:G2;
    apply getValidToken_result in G2; simpl in O3.
  2:{ intros Q; inversion Q; subst.
      destruct G2 as [[-> _]|[[-> G2]|[-> _]]]; auto. }
  destruct G2 as (tk2 & T2 & A2).
  rewrite fetch_api_run.
  destruct O2 as (O2a & _ & _). destruct O3 as (O3a & _ & _).
  assert (Ew : Auth.api w3 = Auth.api w).
  { rewrite O3a, O2a. simpl. exact Oa. }
  rewrite Ew.
  intros Q; inversion Q; subst; clear Q.
  destruct (Auth.api w (Auth.ApiRequest url (Auth.accessToken tk2)
                          :: Auth.sent w3)) as [s2 b2|] eqn:E2; auto.
  exists (Auth.accessToken tk2), (Auth.sent w3), tk2. simpl.
  rewrite E2. repeat split; auto. discriminate.
Qed.

(** X12.  [fetchWithAuth] fails in four ways only: no valid token, a
    rejected refresh, a 401 that cannot be repaired, a request that throws.
    After a rejected refresh and after a 401 that cannot be repaired no
    token is stored any more, and [isAuthenticated] says no. *)
Theorem fetchWithAuth_failure_logs_out :
  forall (cfg : Auth.Config) (url : string) (w w' : Auth.World)
         (f : Auth.Failure),
    Auth.fetchWithAuth cfg url w = (Auth.Err f, w') ->
    (f = Auth.NoValidToken \/ f = Auth.FetchFailed
     \/ f = Auth.RefreshFailed \/ f = Auth.AuthenticationFailed)
    /\ (f = Auth.RefreshFailed \/ f = Auth.AuthenticationFailed ->
        Auth.token_item w' = None
        /\ fst (Auth.isAuthenticated w') = Auth.Ok false).
Proof.
  intros cfg url w w' f H. apply fetchWithAuth_result in H.
  destruct H as [[->| ->]|[[->| ->] T]]; split; auto;
    try (intros [Q|Q]; discriminate);
    intros _; split; auto; rewrite isAuthenticated_run, T; reflexivity.
Qed.

Lemma fetchWithAuth_failure_logs_out_witness :
  (Auth.AuthenticationFailed = Auth.NoValidToken
   \/ Auth.AuthenticationFailed = Auth.FetchFailed
   \/ Auth.AuthenticationFailed = Auth.RefreshFailed
   \/ Auth.AuthenticationFailed = Auth.AuthenticationFailed)
  /\ (Auth.AuthenticationFailed = Auth.RefreshFailed
      \/ Auth.AuthenticationFailed = Auth.AuthenticationFailed ->
      Auth.token_item
        (snd (Auth.fetchWithAuth sample_config Auth.player_url
                unrepairable_world)) = None
      /\ fst (Auth.isAuthenticated
                (snd (Auth.fetchWithAuth sample_config Auth.player_url
                        unrepairable_world))) = Auth.Ok false).
Proof.
  apply (fetchWithAuth_failure_logs_out sample_config Auth.player_url
           unrepairable_world).
  reflexivity.
Defined.

(** X13.  When [fetchWithAuth] returns a response, it is the answer of the
    API to the last request sent, and that request went to the given
    address with the access token of the token that is stored at the
    return. *)
Theorem fetchWithAuth_uses_the_stored_token :
  forall (cfg : Auth.Config) (url : string) (w w' : Auth.World)
         (reply : Auth.ApiReply),
    Auth.fetchWithAuth cfg url w = (Auth.Ok reply, w') ->
    exists b rest tk,
      Auth.sent w' = Auth.ApiRequest url b :: rest
      /\ reply = Auth.api w (Auth.sent w')
      /\ reply <> Auth.ApiUnreachable
      /\ Auth.token_item w' = Some tk
      /\ Auth.accessToken tk = b.
Proof.
  intros cfg url w w' reply H. now apply fetchWithAuth_result in H.
Qed.

Lemma fetchWithAuth_uses_the_stored_token_witness :
  exists b rest tk,
    Auth.sent (snd (Auth.fetchWithAuth sample_config Auth.player_url
                      (logged_in picky_api)))
    = Auth.ApiRequest Auth.player_url b :: rest
    /\ Auth.Answered 204 None =
       Auth.api (logged_in picky_api)
         (Auth.sent (snd (Auth.fetchWithAuth sample_config Auth.player_url
                            (logged_in picky_api))))
    /\ Auth.Answered 204 None <> Auth.ApiUnreachable
    /\ Auth.token_item (snd (Auth.fetchWithAuth sample_config Auth.player_url
                               (logged_in picky_api))) = Some tk
    /\ Auth.accessToken tk = b.
Proof.
  apply (fetchWithAuth_uses_the_stored_token sample_config Auth.player_url
           (logged_in picky_api)).
  reflexivity.
Defined.

(** The login at [picky_api]: the first request gets a 401, the token is
    refreshed, and the second request carries the new access token. *)
Example retry_after_401 :
  map (fun r => match r with
                | Auth.ApiRequest _ b => b
                | Auth.TokenRequest _ _ _ => "token endpoint"
                end)
    (Auth.sent (snd (Auth.fetchWithAuth sample_config Auth.player_url
                       (logged_in picky_api))))
  = ["access-2"; "token endpoint"; "access-1"; "token endpoint"].
Proof. reflexivity. Qed.

(** ** The poll of the loop *)

(** [getCurrentlyPlaying] as the loop sees it. *)
Lemma currentlyPlaying_observe cfg w :
  fst (Auth.currentlyPlaying cfg w) =
  getCurrentlyPlaying (Auth.observe (fst (Auth.fetchWithAuth cfg Auth.player_url w)))
  /\ snd (Auth.currentlyPlaying cfg w) =
     snd (Auth.fetchWithAuth cfg Auth.player_url w).
Proof.
  unfold Auth.currentlyPlaying, Auth.observe.
  destruct (Auth.fetchWithAuth cfg Auth.player_url w) as [[[status body|]|f] w'];
    simpl; auto.
  destruct (status =? 204); auto.
  destruct (negb (Auth.ok status)); auto.
  now destruct body.
Qed.

Lemma fetchWithAuth_expired cfg url w :
  no_valid_token w ->
  Auth.fetchWithAuth cfg url w =
  (Auth.Err Auth.NoValidToken, snd (Auth.getStoredToken w)).
Proof.
  intros N. unfold Auth.fetchWithAuth. unfold Auth.bind at 1.
  now rewrite (getValidToken_expired cfg w N).
Qed.

(** X14.  While no token is stored, or the stored one has expired, the poll
    of the loop sends nothing and yields [null], the store of the token is
    as before, and the callback of the loop takes the tick as a tick with
    nothing playing.  It ends the session of the active episode: when the
    latest session of its record is open, that session gets the stamp of
    the tick as its [ended_at] and the time since the last poll is added to
    [total_played_ms], up to [duration_ms]; no episode remains active.
    Without an active episode the ledger stays as it is. *)
Theorem poll_without_token :
  forall (cfg : Auth.Config) (w : Auth.World),
    no_valid_token w ->
    fst (Auth.currentlyPlaying cfg w) = None
    /\ Auth.sent (snd (Auth.currentlyPlaying cfg w)) = Auth.sent w
    /\ Auth.token_item (snd (Auth.currentlyPlaying cfg w)) = Auth.token_item w
    /\ forall (t s : Z) (st : State),
       let i := mkTick t s
                  (Auth.observe
                     (fst (Auth.fetchWithAuth cfg Auth.player_url
                             w))) in
       unavailable (response i) = true
       /\ tick i st = endOngoing s (t - lastPollTime st) (set_poll t st)
       /\ lastPollTime (tick i st) = t
       /\ (forall a, active st = Some a ->
            localStorage (tick i st) =
            updateSessionEnd s a (t - lastPollTime st) (localStorage st)
            /\ lastEpisodeId (tick i st) = None)
       /\ (forall a e older s0,
            active st = Some a ->
            record_of a (localStorage st) = Some e ->
            sessions e = older ++ [s0] ->
            ended_at s0 = None ->
            record_of a (localStorage (tick i st)) =
              Some {| e_id := e_id e; e_name := e_name e;
                      e_description := e_description e;
                      duration_ms := duration_ms e;
                      e_release_date := e_release_date e;
                      e_images := e_images e; e_type := e_type e;
                      e_show := e_show e; played_at := played_at e;
                      progress_ms := progress_ms e;
                      total_played_ms :=
                        Z.min (total_played_ms e + (t - lastPollTime st))
                          (duration_ms e);
                      last_played_at := last_played_at e;
                      first_played_at := first_played_at e;
                      sessions :=
                        older ++ [ {| started_at := started_at s0;
                                      ended_at := Some s;
                                      s_progress_ms := s_progress_ms s0 |} ] |})
       /\ (active st = None -> localStorage (tick i st) = localStorage st).
Proof.
  intros cfg w N.
  destruct (currentlyPlaying_observe cfg w) as [E1 E2].
  rewrite E1, E2, (fetchWithAuth_expired cfg Auth.player_url w N). simpl.
  destruct (getStoredToken_frame w) as (A & B & _).
  split; [reflexivity|]. split; [exact B|]. split; [exact A|].
  intros t s st.
  assert (T : tick (mkTick t s Throws) st =
              endOngoing s (t - lastPollTime st) (set_poll t st)).
  { now rewrite (unavailable_tick_is_empty_tick (mkTick t s Throws) st). }
  assert (C : forall a, active st = Some a ->
                localStorage (tick (mkTick t s Throws) st) =
                updateSessionEnd s a (t - lastPollTime st) (localStorage st)
                /\ lastEpisodeId (tick (mkTick t s Throws) st) = None).
  { intros a Ac. rewrite T. unfold endOngoing.
    rewrite active_set_poll, Ac. auto. }
  split; [reflexivity|]. split; [exact T|].
  split; [apply (tick_service_fields (mkTick t s Throws) st)|].
  split; [exact C|]. split.
  - intros a e older s0 Ac R S O. destruct (C a Ac) as [-> _].
    now apply close_open_session.
  - intros Ac. rewrite T. unfold endOngoing.
    now rewrite active_set_poll, Ac.
Qed.

Lemma poll_without_token_witness :
  fst (Auth.currentlyPlaying sample_config stale_world) = None
  /\ Auth.sent (snd (Auth.currentlyPlaying sample_config stale_world))
     = Auth.sent stale_world
  /\ Auth.token_item (snd (Auth.currentlyPlaying sample_config stale_world))
     = Auth.token_item stale_world
  /\ forall (t s : Z) (st : State),
       let i := mkTick t s
                  (Auth.observe
                     (fst (Auth.fetchWithAuth sample_config Auth.player_url
                             stale_world))) in
       unavailable (response i) = true
       /\ tick i st = endOngoing s (t - lastPollTime st) (set_poll t st)
       /\ lastPollTime (tick i st) = t
       /\ (forall a, active st = Some a ->
            localStorage (tick i st) =
            updateSessionEnd s a (t - lastPollTime st) (localStorage st)
            /\ lastEpisodeId (tick i st) = None)
       /\ (forall a e older s0,
            active st = Some a ->
            record_of a (localStorage st) = Some e ->
            sessions e = older ++ [s0] ->
            ended_at s0 = None ->
            record_of a (localStorage (tick i st)) =
              Some {| e_id := e_id e; e_name := e_name e;
                      e_description := e_description e;
                      duration_ms := duration_ms e;
                      e_release_date := e_release_date e;
                      e_images := e_images e; e_type := e_type e;
                      e_show := e_show e; played_at := played_at e;
                      progress_ms := progress_ms e;
                      total_played_ms :=
                        Z.min (total_played_ms e + (t - lastPollTime st))
                          (duration_ms e);
                      last_played_at := last_played_at e;
                      first_played_at := first_played_at e;
                      sessions :=
                        older ++ [ {| started_at := started_at s0;
                                      ended_at := Some s;
                                      s_progress_ms := s_progress_ms s0 |} ] |})
       /\ (active st = None -> localStorage (tick i st) = localStorage st).
Proof.
  apply poll_without_token. unfold no_valid_token, Auth.time. simpl.
  unfold sample_clock. simpl. lia.
Defined.

(** * Properties of the categories *)

Section Arrays.

Context {A : Type}.

Lemma findIndex_None (p : A -> bool) l :
  Categories.findIndex p l = None <-> forall x, In x l -> p x = false.
Proof.
  induction l as [|y r IH]; simpl.
  - split; auto. intros _ x [].
  - destruct (p y) eqn:P.
    + split; [discriminate|]. intros H. specialize (H y (or_introl eq_refl)).
      congruence.
    + destruct (Categories.findIndex p r).
      * split; [discriminate|]. intros H.
        assert (Some n = None) by (apply IH; intros x I; apply H; now right).
        discriminate.
      * split; auto. intros _ x [E|I]; [now subst | now apply IH].
Qed.

Lemma findIndex_Some (p : A -> bool) l n :
  Categories.findIndex p l = Some n ->
  exists x, nth_error l n = Some x /\ p x = true
            /\ find p l = Some x
            /\ forall m y, (m < n)%nat -> nth_error l m = Some y -> p y = false.
Proof.
  revert n. induction l as [|y r IH]; intros n; simpl; [discriminate|].
  destruct (p y) eqn:P.
  - intros [= <-]. exists y. repeat split; auto. intros m z L. lia.
  - destruct (Categories.findIndex p r) as [k|]; [|discriminate].
    intros [= <-]. destruct (IH k eq_refl) as (x & N & Px & F & B).
    exists x. repeat split; auto.
    intros [|m] z L; simpl; [intros [= <-]; auto|].
    intros H. apply (B m z); auto. lia.
Qed.

Lemma find_None_findIndex (p : A -> bool) l :
  Categories.findIndex p l = None -> find p l = None.
Proof.
  induction l as [|y r IH]; simpl; auto.
  destruct (p y); [discriminate|].
  destruct (Categories.findIndex p r); [discriminate | auto].
Qed.

(** The element put at the first match is found by the same test. *)
Lemma find_update_at_hit (p : A -> bool) l n y :
  Categories.findIndex p l = Some n -> p y = true ->
  find p (Categories.update_at n (fun _ => y) l) = Some y.
Proof.
  revert n. induction l as [|x r IH]; intros n; simpl; [discriminate|].
  destruct (p x) eqn:P.
  - intros [= <-] Py. simpl. now rewrite Py.
  - destruct (Categories.findIndex p r) as [k|]; [|discriminate].
    intros [= <-] Py. simpl. rewrite P. now apply IH.
Qed.

(** A test that accepts neither the old nor the new element at the place
    sees no difference. *)
Lemma find_update_at_miss (q : A -> bool) l n f :
  (forall x, nth_error l n = Some x -> q x = false /\ q (f x) = false) ->
  find q (Categories.update_at n f l) = find q l.
Proof.
  revert n. induction l as [|x r IH]; intros n H; simpl; auto.
  destruct n as [|n]; simpl.
  - destruct (H x eq_refl) as [Q1 Q2]. now rewrite Q1, Q2.
  - destruct (q x); [reflexivity|]. apply IH. intros y N. apply (H y N).
Qed.

Lemma find_app_miss (q : A -> bool) l y :
  q y = false -> find q (l ++ [y]) = find q l.
Proof.
  intros Q. induction l as [|x r IH]; simpl; [now rewrite Q|].
  now destruct (q x).
Qed.

Lemma find_app_new (p : A -> bool) l y :
  find p l = None -> p y = true -> find p (l ++ [y]) = Some y.
Proof.
  intros N Py. induction l as [|x r IH]; simpl in *; [now rewrite Py|].
  destruct (p x); [discriminate | auto].
Qed.

(** A filter that keeps all that a test accepts does not change what the
    test finds. *)
Lemma find_filter_keep (q f : A -> bool) l :
  (forall x, In x l -> q x = true -> f x = true) ->
  find q (filter f l) = find q l.
Proof.
  induction l as [|x r IH]; intros H; simpl; auto.
  destruct (q x) eqn:Q.
  - rewrite (H x (or_introl eq_refl) Q). simpl. now rewrite Q.
  - destruct (f x); simpl; rewrite ?Q; apply IH; intros y I; apply H; now right.
Qed.

Lemma find_filter_first (q f : A -> bool) l x :
  find q l = Some x -> f x = true -> find q (filter f l) = Some x.
Proof.
  induction l as [|y r IH]; simpl; [discriminate|].
  destruct (q y) eqn:Q.
  - intros [= ->] F. rewrite F. simpl. now rewrite Q.
  - intros H F. destruct (f y); simpl; rewrite ?Q; auto.
Qed.

Lemma find_filter_out (p : A -> bool) l :
  find p (filter (fun x => negb (p x)) l) = None.
Proof.
  induction l as [|x r IH]; simpl; auto.
  destruct (p x) eqn:P; simpl; rewrite ?P; auto.
Qed.


Lemma In_update_at n (f : A -> A) l x :
  In x (Categories.update_at n f l) ->
  In x l \/ exists y, nth_error l n = Some y /\ x = f y.
Proof.
  revert n. induction l as [|y r IH]; intros [|n]; simpl; auto.
  - intros [<-|I]; eauto.
  - intros [<-|I]; auto. destruct (IH n I) as [H|H]; auto.
Qed.



End Arrays.

(** ** Choosing a category for a podcast *)

Lemma eqb_other (p p' : string) (a : Categories.PodcastCategory) :
  p' <> p ->
  String.eqb (Categories.podcastId a) p = true ->
  String.eqb (Categories.podcastId a) p' = false.
Proof.
  intros N E. apply String.eqb_eq in E. rewrite E.
  now apply String.eqb_neq.
Qed.

Lemma get_save_assignments l s :
  Categories.getPodcastCategories (Categories.savePodcastCategories l s) = l.
Proof. reflexivity. Qed.

Lemma getCategoryForPodcast_assign_same p n c s :
  Categories.getCategoryForPodcast p (Categories.assignCategory p n c s) =
  if truthy_str c then Some c else None.
Proof.
  unfold Categories.getCategoryForPodcast, Categories.assignCategory.
  set (l := Categories.getPodcastCategories s).
  set (t := fun a => String.eqb (Categories.podcastId a) p).
  set (y := Categories.mkAssignment p n c).
  assert (Ty : t y = true) by apply String.eqb_refl.
  destruct (Categories.findIndex t l) as [k|] eqn:F;
    rewrite get_save_assignments.
  - now rewrite (find_update_at_hit t l k y F Ty).
  - rewrite (find_app_new t l y); auto. now apply find_None_findIndex.
Qed.

Lemma getCategoryForPodcast_assign_other p n c s p' :
  p' <> p ->
  Categories.getCategoryForPodcast p' (Categories.assignCategory p n c s) =
  Categories.getCategoryForPodcast p' s.
Proof.
  intros N.
  unfold Categories.getCategoryForPodcast, Categories.assignCategory.
  set (l := Categories.getPodcastCategories s).
  set (t := fun a => String.eqb (Categories.podcastId a) p).
  set (q := fun a => String.eqb (Categories.podcastId a) p').
  set (y := Categories.mkAssignment p n c).
  assert (Qy : q y = false) by (apply String.eqb_neq; auto).
  destruct (Categories.findIndex t l) as [k|] eqn:F;
    rewrite get_save_assignments; fold l.
  - rewrite find_update_at_miss; auto.
    intros x Nx. split; auto.
    destruct (findIndex_Some t l k F) as (x' & Nx' & Tx & _).
    assert (x' = x) by congruence. subst x'.
    now apply (eqb_other p).
  - now rewrite find_app_miss.
Qed.

Lemma getCategoryForPodcast_remove_same p s :
  Categories.getCategoryForPodcast p (Categories.removeCategoryAssignment p s)
  = None.
Proof.
  unfold Categories.getCategoryForPodcast, Categories.removeCategoryAssignment.
  rewrite get_save_assignments.
  now rewrite (find_filter_out
                 (fun a => String.eqb (Categories.podcastId a) p)).
Qed.

Lemma getCategoryForPodcast_remove_other p s p' :
  p' <> p ->
  Categories.getCategoryForPodcast p' (Categories.removeCategoryAssignment p s)
  = Categories.getCategoryForPodcast p' s.
Proof.
  intros N.
  unfold Categories.getCategoryForPodcast, Categories.removeCategoryAssignment.
  rewrite get_save_assignments. rewrite find_filter_keep; auto.
  intros x _ Q. apply String.eqb_eq in Q. rewrite Q.
  apply Bool.negb_true_iff. now apply String.eqb_neq.
Qed.

(** X15.  After the select box of a show has been set, the category read
    back for the show is the one chosen (none for the empty choice), and the
    category of every other show is what it was. *)
Theorem category_choice_is_read_back :
  forall (show name : string) (choice : option string)
         (s : Categories.Store),
    Categories.getCategoryForPodcast show
      (Categories.handleCategoryChange show name choice s)
    = match choice with
      | Some c => if truthy_str c then Some c else None
      | None => None
      end
    /\ forall other,
         other <> show ->
         Categories.getCategoryForPodcast other
           (Categories.handleCategoryChange show name choice s)
         = Categories.getCategoryForPodcast other s.
Proof.
  intros show name choice s. unfold Categories.handleCategoryChange.
  destruct choice as [c|].
  - destruct (truthy_str c) eqn:T.
    + split.
      * now rewrite getCategoryForPodcast_assign_same, T.
      * intros o N. now apply getCategoryForPodcast_assign_other.
    + split.
      * apply getCategoryForPodcast_remove_same.
      * intros o N. now apply getCategoryForPodcast_remove_other.
  - split.
    + apply getCategoryForPodcast_remove_same.
    + intros o N. now apply getCategoryForPodcast_remove_other.
Qed.

(** ** One assignment for a podcast *)

Lemma map_update_at_same {A B} (g : A -> B) n y (l : list A) x :
  nth_error l n = Some x -> g x = g y ->
  map g (Categories.update_at n (fun _ => y) l) = map g l.
Proof.
  revert n. induction l as [|z r IH]; intros [|n]; simpl; try discriminate.
  - intros [= ->] E. now rewrite E.
  - intros N E. f_equal. now apply IH.
Qed.

Lemma NoDup_map_filter {A B} (g : A -> B) (f : A -> bool) l :
  NoDup (map g l) -> NoDup (map g (filter f l)).
Proof.
  induction l as [|x r IH]; simpl; auto.
  intros D. inversion D as [|? ? N D']; subst.
  destruct (f x); simpl; auto.
  constructor; auto. intros I. apply N.
  apply in_map_iff in I. destruct I as (y & E & I).
  apply filter_In in I. apply in_map_iff. exists y. tauto.
Qed.

Lemma assigned_call c s :
  NoDup (assigned s) -> NoDup (assigned (Categories.call c s)).
Proof.
  unfold assigned. intros D.
  destruct c as [c|i u|i|p n i|p]; simpl.
  - exact D.
  - unfold Categories.updateCategory.
    destruct (Categories.findIndex _ _); exact D.
  - unfold Categories.deleteCategory. rewrite get_save_assignments.
    now apply NoDup_map_filter.
  - unfold Categories.assignCategory.
    set (t := fun a => String.eqb (Categories.podcastId a) p).
    destruct (Categories.findIndex t (Categories.getPodcastCategories s))
      as [k|] eqn:F; rewrite get_save_assignments.
    + destruct (findIndex_Some t _ k F) as (x & N & T & _).
      rewrite (map_update_at_same Categories.podcastId k _ _ x); auto.
      simpl. now apply String.eqb_eq.
    + rewrite map_app. simpl. apply NoDup_snoc; auto.
      intros I. apply in_map_iff in I. destruct I as (x & E & I).
      pose proof (proj1 (findIndex_None t _) F x I) as Q.
      unfold t in Q. rewrite E, String.eqb_refl in Q. discriminate.
  - unfold Categories.removeCategoryAssignment. rewrite get_save_assignments.
    now apply NoDup_map_filter.
Qed.

Lemma assigned_calls cs : forall s,
  NoDup (assigned s) -> NoDup (assigned (Categories.calls cs s)).
Proof.
  induction cs as [|c r IH]; intros s D; simpl; auto.
  apply IH. now apply assigned_call.
Qed.

(** X16.  Whatever the calls of the category service, a podcast never has
    two assignments, if none had in the store at the start; so that the
    category read for a podcast is the category of its one assignment. *)
Theorem one_assignment_per_podcast :
  forall (cs : list Categories.Call) (s : Categories.Store),
    NoDup (assigned s) ->
    NoDup (assigned (Categories.calls cs s))
    /\ forall a,
         In a (Categories.getPodcastCategories (Categories.calls cs s)) ->
         Categories.getCategoryForPodcast (Categories.podcastId a)
           (Categories.calls cs s)
         = if truthy_str (Categories.categoryId a)
           then Some (Categories.categoryId a) else None.
Proof.
  intros cs s D. pose proof (assigned_calls cs s D) as D'.
  split; auto. intros a I.
  unfold Categories.getCategoryForPodcast, assigned in *.
  induction (Categories.getPodcastCategories (Categories.calls cs s))
    as [|x r IH]; [destruct I|].
  simpl in *. inversion D' as [|? ? N Dr]; subst.
  destruct (String.eqb_spec (Categories.podcastId x) (Categories.podcastId a))
    as [E|Ne].
  - destruct I as [->|I]; auto.
    exfalso. apply N. rewrite E. now apply in_map.
  - destruct I as [->|I]; [congruence|]. now apply IH.
Qed.

Lemma one_assignment_per_podcast_witness :
  NoDup (assigned sample_categories)
  /\ forall a,
       In a (Categories.getPodcastCategories sample_categories) ->
       Categories.getCategoryForPodcast (Categories.podcastId a)
         sample_categories
       = if truthy_str (Categories.categoryId a)
         then Some (Categories.categoryId a) else None.
Proof.
  apply (one_assignment_per_podcast
           [Categories.AssignCategory "show-a" "A" "1";
            Categories.AssignCategory "show-b" "B" "3";
            Categories.AssignCategory "show-c" "C" "1";
            Categories.AssignCategory "show-a" "A" "2"]
           Categories.empty).
  constructor.
Defined.

(** ** Deleting and updating a category *)

Lemma get_categories_after_delete l a s :
  Categories.getCategories
    (Categories.savePodcastCategories a (Categories.saveCategories l s)) = l.
Proof. reflexivity. Qed.

(** X17.  After [deleteCategory] the list of the categories is the list
    before without the categories of the deleted id, the others in their
    order, and the list of the assignments is the list before without the
    assignments to the deleted id.  So no category has the deleted id and no
    podcast is read as assigned to it; the other categories are all there,
    and a podcast that was read as assigned to another category still
    is. *)
Theorem deleted_category_is_gone :
  forall (c : string) (s : Categories.Store),
    let s' := Categories.deleteCategory c s in
    Categories.getCategories s' =
      filter (fun x => negb (String.eqb (Categories.id x) c))
        (Categories.getCategories s)
    /\ Categories.getPodcastCategories s' =
       filter (fun a => negb (String.eqb (Categories.categoryId a) c))
         (Categories.getPodcastCategories s)
    /\ (forall x, In x (Categories.getCategories s') <->
                  In x (Categories.getCategories s) /\ Categories.id x <> c)
    /\ (forall p, Categories.getCategoryForPodcast p s' <> Some c)
    /\ (forall p c',
          c' <> c ->
          Categories.getCategoryForPodcast p s = Some c' ->
          Categories.getCategoryForPodcast p s' = Some c').
Proof.
  intros c s s'. unfold s', Categories.deleteCategory. cbv zeta.
  split; [apply get_categories_after_delete|].
  split; [apply get_save_assignments|].
  split; [|split].
  - intros x. rewrite get_categories_after_delete.
    rewrite filter_In, Bool.negb_true_iff, String.eqb_neq. tauto.
  - intros p. unfold Categories.getCategoryForPodcast.
    rewrite get_save_assignments.
    destruct (find _ (filter _ _)) as [a|] eqn:F; [|discriminate].
    apply find_some in F. destruct F as [I _].
    apply filter_In in I. destruct I as [_ I].
    apply Bool.negb_true_iff, String.eqb_neq in I.
    destruct (truthy_str (Categories.categoryId a)); congruence.
  - intros p c' N. unfold Categories.getCategoryForPodcast.
    rewrite get_save_assignments.
    change (Categories.getPodcastCategories
              (Categories.saveCategories
                 (filter (fun x => negb (String.eqb (Categories.id x) c))
                    (Categories.getCategories s)) s))
      with (Categories.getPodcastCategories s).
    destruct (find _ (Categories.getPodcastCategories s)) as [a|] eqn:F;
      [|discriminate].
    intros H.
    assert (E : Categories.categoryId a = c')
      by (destruct (truthy_str (Categories.categoryId a)); congruence).
    rewrite (find_filter_first _ _ _ a F).
    + exact H.
    + rewrite E. apply Bool.negb_true_iff. now apply String.eqb_neq.
Qed.


(** A category that gets another id keeps its podcasts under the old
    one. *)
Example update_orphans_assignments :
  let s := Categories.updateCategory "1" (Categories.mkUpdates (Some "7") None None)
             sample_categories in
  map Categories.id (Categories.getCategories s) = ["7"; "2"; "3"; "4"; "5"; "6"]
  /\ Categories.getCategoryForPodcast "show-c" s = Some "1".
Proof. split; reflexivity. Qed.

(** * Properties of the statistics *)

(** The statistics of the sample: show a is in category 2, show b in
    category 3, show z in none; the two hours of the first episode count in
    full although five seconds of it were played. *)
Example sample_statistics :
  map (fun st => (Stats.categoryId st, Stats.categoryName st,
                  Stats.hours st, Stats.minutes st))
    (Stats.calculateStatsForEpisodes sample_categories sample_episodes)
  = [("2", "Entertainment", 2, 1); ("3", "News", 0, 30)]
  /\ Stats.getTotalListeningTime sample_categories sample_episodes = (2, 31).
Proof. split; reflexivity. Qed.

(** ** Objects *)

Section Objects.

Context {V : Type}.

Lemma get_set_same k (v : V) o : Stats.get k (Stats.set k v o) = Some v.
Proof.
  induction o as [|[k' v'] r IH]; simpl.
  - now rewrite String.eqb_refl.
  - destruct (String.eqb k k') eqn:E; simpl; rewrite ?E; auto.
    now rewrite String.eqb_refl.
Qed.

Lemma get_set_other k k' (v : V) o :
  k' <> k -> Stats.get k' (Stats.set k v o) = Stats.get k' o.
Proof.
  intros N. induction o as [|[k0 v0] r IH]; simpl.
  - destruct (String.eqb_spec k' k); congruence.
  - destruct (String.eqb_spec k k0) as [->|]; simpl.
    + destruct (String.eqb_spec k' k0); congruence.
    + now rewrite IH.
Qed.

Lemma get_None_keys k (o : Stats.JsObject V) :
  Stats.get k o = None -> ~ In k (map fst o).
Proof.
  induction o as [|[k0 v0] r IH]; simpl; auto.
  destruct (String.eqb_spec k k0) as [->|N]; [discriminate|].
  intros G [H|H]; [congruence | now apply IH].
Qed.

Lemma keys_set k (v : V) o :
  map fst (Stats.set k v o) =
  match Stats.get k o with
  | Some _ => map fst o
  | None => map fst o ++ [k]
  end.
Proof.
  induction o as [|[k0 v0] r IH]; simpl; auto.
  destruct (String.eqb_spec k k0) as [->|N]; simpl; auto.
  rewrite IH. now destruct (Stats.get k r).
Qed.

Lemma NoDup_keys_set k (v : V) o :
  NoDup (map fst o) -> NoDup (map fst (Stats.set k v o)).
Proof.
  intros D. rewrite keys_set. destruct (Stats.get k o) eqn:G; auto.
  apply NoDup_snoc; auto. now apply get_None_keys.
Qed.

Lemma get_In k (v : V) o : Stats.get k o = Some v -> In (k, v) o.
Proof.
  induction o as [|[k0 v0] r IH]; simpl; [discriminate|].
  destruct (String.eqb_spec k k0) as [->|N].
  - intros [= ->]. now left.
  - auto.
Qed.

Lemma In_get k (v : V) o :
  NoDup (map fst o) -> In (k, v) o -> Stats.get k o = Some v.
Proof.
  induction o as [|[k0 v0] r IH]; simpl; [tauto|].
  intros D [E|I]; inversion D as [|? ? N D']; subst.
  - inversion E; subst. now rewrite String.eqb_refl.
  - destruct (String.eqb_spec k k0) as [->|Ne]; auto.
    exfalso. apply N. apply in_map_iff. exists (k0, v). auto.
Qed.

End Objects.

(** ** Sorting *)

Lemma stats_sort_insert_perm {A} (cmp : A -> A -> Z) x l :
  Permutation (Stats.sort_insert cmp x l) (x :: l).
Proof.
  induction l as [|y r IH]; simpl; auto.
  destruct (cmp x y <=? 0); auto.
  rewrite IH. apply perm_swap.
Qed.

Lemma stats_sort_perm {A} (cmp : A -> A -> Z) l :
  Permutation (Stats.sort cmp l) l.
Proof.
  induction l as [|x r IH]; simpl; auto.
  rewrite stats_sort_insert_perm. now constructor.
Qed.

Lemma stats_sort_sorted l :
  StronglySorted most_minutes_first
    (Stats.sort (fun a b => Stats.totalMinutes b - Stats.totalMinutes a) l).
Proof.
  induction l as [|x r IH]; simpl; [constructor|].
  induction IH as [|y t S IHt F]; simpl.
  - repeat constructor.
  - destruct (Z.leb_spec (Stats.totalMinutes y - Stats.totalMinutes x) 0) as [L|L].
    + constructor; [constructor; assumption|].
      constructor; [unfold most_minutes_first; lia|].
      eapply Forall_impl; [|exact F].
      unfold most_minutes_first. intros; lia.
    + constructor; auto.
      eapply Permutation_Forall; [symmetry; apply stats_sort_insert_perm|].
      constructor; auto. unfold most_minutes_first; lia.
Qed.

(** ** What the minutes of a category are *)

Lemma value_set_same c v o : value c (Stats.set c v o) = v.
Proof. unfold value. now rewrite get_set_same. Qed.

Lemma value_set_other c c' v o :
  c' <> c -> value c' (Stats.set c v o) = value c' o.
Proof. intros N. unfold value. now rewrite get_set_other. Qed.

Lemma initial_objects_zero categories :
  NoDup (map fst (fst (Stats.initial_objects categories)))
  /\ forall c, value c (fst (Stats.initial_objects categories)) = 0.
Proof.
  unfold Stats.initial_objects.
  assert (G : forall acc : Stats.JsObject Z * Stats.JsObject string,
             NoDup (map fst (fst acc)) /\ (forall c, value c (fst acc) = 0) ->
             let out :=
               fold_left
                 (fun acc cat =>
                    (Stats.set (Categories.id cat) 0 (fst acc),
                     Stats.set (Categories.id cat) (Categories.name cat)
                       (snd acc)))
                 categories acc in
             NoDup (map fst (fst out)) /\ (forall c, value c (fst out) = 0)).
  { induction categories as [|cat r IH]; intros acc [D Z]; simpl; auto.
    apply IH. simpl. split.
    - now apply NoDup_keys_set.
    - intros c. destruct (String.eqb_spec c (Categories.id cat)) as [->|N].
      + apply value_set_same.
      + rewrite value_set_other; auto. }
  apply G. simpl. split; [constructor | reflexivity].
Qed.

Lemma count_minutes_value s episodes : forall o c,
  NoDup (map fst o) ->
  NoDup (map fst (Stats.count_minutes s episodes o))
  /\ value c (Stats.count_minutes s episodes o) =
     value c o + Stats.category_minutes s c episodes.
Proof.
  unfold Stats.count_minutes.
  induction episodes as [|e r IH]; intros o c D; simpl.
  - split; auto. lia.
  - destruct (Stats.category_of s e) as [c'|] eqn:Ce.
    + set (o' := Stats.set c' _ o).
      destruct (IH o' c) as [D' V'].
      { now apply NoDup_keys_set. }
      split; auto. rewrite V'. unfold o'.
      destruct (String.eqb_spec c' c) as [->|N].
      * rewrite value_set_same. unfold value.
        destruct (Stats.get c o); rewrite ?or_num_0_r; lia.
      * rewrite value_set_other by congruence. lia.
    + destruct (IH o c D) as [D' V']. split; auto.
Qed.

Lemma find_by_key {A} (key : A -> string) (l : list A) c :
  NoDup (map key l) ->
  (forall x, In x l -> key x = c ->
             find (fun y => String.eqb (key y) c) l = Some x)
  /\ ((forall x, In x l -> key x <> c) ->
      find (fun y => String.eqb (key y) c) l = None).
Proof.
  induction l as [|y r IH]; simpl; intros D.
  - split; [intros x [] | auto].
  - inversion D as [|? ? N D']; subst. destruct (IH D') as [IH1 IH2].
    split.
    + intros x [->|I] E.
      * now rewrite E, String.eqb_refl.
      * destruct (String.eqb_spec (key y) c) as [Ey|Ny]; auto.
        exfalso. apply N. rewrite Ey, <- E. now apply in_map.
    + intros H. destruct (String.eqb_spec (key y) c) as [Ey|Ny].
      * exfalso. apply (H y); auto.
      * apply IH2. intros x I. apply H. now right.
Qed.

Lemma stats_ids names (o : Stats.JsObject Z) :
  map Stats.categoryId (map (Stats.to_stats names) o) = map fst o.
Proof.
  induction o as [|[k v] r IH]; simpl; auto. now rewrite IH.
Qed.

(** The statistics made of an object with distinct keys. *)
Lemma stats_of_object names (o : Stats.JsObject Z) :
  NoDup (map fst o) ->
  let stats :=
    Stats.sort (fun a b => Stats.totalMinutes b - Stats.totalMinutes a)
      (filter (fun stat => 0 <? Stats.totalMinutes stat)
         (map (Stats.to_stats names) (Js.entries o))) in
  NoDup (map Stats.categoryId stats)
  /\ (forall st, In st stats <->
        exists k v, In (k, v) o /\ 0 < v /\ st = Stats.to_stats names (k, v))
  /\ forall c, Stats.shown c stats = Z.max 0 (value c o).
Proof.
  intros D stats.
  assert (P : Permutation stats
                (filter (fun stat => 0 <? Stats.totalMinutes stat)
                   (map (Stats.to_stats names) (Js.entries o))))
    by apply stats_sort_perm.
  assert (Dn : NoDup (map Stats.categoryId stats)).
  { eapply Permutation_NoDup;
      [symmetry; apply Permutation_map; exact P|].
    apply NoDup_map_filter. rewrite stats_ids.
    eapply Permutation_NoDup;
      [symmetry; apply Permutation_map; apply entries_perm | exact D]. }
  assert (M : forall st, In st stats <->
                exists k v, In (k, v) o /\ 0 < v
                            /\ st = Stats.to_stats names (k, v)).
  { intros st. split.
    - intros I. apply (Permutation_in _ P) in I.
      apply filter_In in I. destruct I as [I T].
      apply in_map_iff in I. destruct I as ([k v] & <- & I).
      apply (Permutation_in _ (entries_perm o)) in I.
      exists k, v. repeat split; auto. simpl in T. lia.
    - intros (k & v & I & L & ->).
      apply (Permutation_in _ (Permutation_sym P)).
      apply filter_In. split; [|simpl; lia].
      apply in_map.
      apply (Permutation_in _ (Permutation_sym (entries_perm o))); auto. }
  split; auto. split; auto.
  intros c. unfold Stats.shown.
  destruct (find_by_key Stats.categoryId stats c Dn) as [F1 F2].
  unfold value. destruct (Stats.get c o) as [v|] eqn:G.
  - destruct (Z.ltb_spec 0 v) as [L|L].
    + rewrite (F1 (Stats.to_stats names (c, v))).
      * simpl. lia.
      * apply M. exists c, v. repeat split; auto. now apply get_In.
      * reflexivity.
    + rewrite F2; [lia|].
      intros st I E. apply M in I. destruct I as (k & v' & I & L' & ->).
      simpl in E. subst k. apply (In_get _ _ _ D) in I. rewrite G in I.
      inversion I; subst. lia.
  - rewrite F2; [lia|].
    intros st I E. apply M in I. destruct I as (k & v' & I & L' & ->).
    simpl in E. subst k. apply (In_get _ _ _ D) in I. congruence.
Qed.

Lemma minutes_object s episodes :
  let o := Stats.count_minutes s episodes
             (fst (Stats.initial_objects (Categories.getCategories s))) in
  NoDup (map fst o)
  /\ forall c, value c o = Stats.category_minutes s c episodes.
Proof.
  intros o.
  destruct (initial_objects_zero (Categories.getCategories s)) as [D0 Z0].
  split.
  - apply (count_minutes_value s episodes _ EmptyString D0).
  - intros c. unfold o.
    destruct (count_minutes_value s episodes _ c D0) as [_ V].
    rewrite V, Z0. lia.
Qed.

Lemma shown_minutes s episodes c :
  Stats.shown c (Stats.calculateStatsForEpisodes s episodes) =
  Z.max 0 (Stats.category_minutes s c episodes).
Proof.
  unfold Stats.calculateStatsForEpisodes. cbv zeta.
  destruct (minutes_object s episodes) as [D V].
  destruct (stats_of_object
              (snd (Stats.initial_objects (Categories.getCategories s)))
              _ D) as (_ & _ & Sh).
  rewrite Sh. now rewrite V.
Qed.

(** X19.  The minutes that the statistics show for a category are the
    whole minutes of the durations of the episodes whose show is assigned
    to the category, episode by episode; how much of an episode was played
    does not enter.  A category whose sum is not positive is not shown. *)
Theorem statistics_count_whole_episodes :
  forall (s : Categories.Store) (episodes : list SpotifyEpisode) (c : string),
    Stats.shown c (Stats.calculateStatsForEpisodes s episodes) =
    Z.max 0 (Stats.category_minutes s c episodes)
    /\ (In c (map Stats.categoryId
                (Stats.calculateStatsForEpisodes s episodes)) <->
        0 < Stats.category_minutes s c episodes).
Proof.
  intros s episodes c. split; [apply shown_minutes|].
  unfold Stats.calculateStatsForEpisodes. cbv zeta.
  destruct (minutes_object s episodes) as [D V].
  destruct (stats_of_object
              (snd (Stats.initial_objects (Categories.getCategories s)))
              _ D) as (_ & M & _).
  rewrite in_map_iff. split.
  - intros (st & E & I). apply M in I. destruct I as (k & v & I & L & ->).
    simpl in E. subst k. apply (In_get _ _ _ D) in I.
    specialize (V c). unfold value in V. rewrite I in V. lia.
  - intros L. specialize (V c). unfold value in V.
    destruct (Stats.get c _) as [v|] eqn:G; [|lia].
    exists (Stats.to_stats
              (snd (Stats.initial_objects (Categories.getCategories s)))
              (c, v)).
    split; [reflexivity|]. apply M. exists c, v.
    repeat split; auto; [now apply get_In | lia].
Qed.

(** X20.  The statistics are in the order of their minutes, the most
    first; no category occurs twice; every entry has a positive number of
    minutes, split into hours and fewer than sixty minutes. *)
Theorem statistics_are_well_formed :
  forall (s : Categories.Store) (episodes : list SpotifyEpisode),
    let stats := Stats.calculateStatsForEpisodes s episodes in
    StronglySorted most_minutes_first stats
    /\ NoDup (map Stats.categoryId stats)
    /\ Forall (fun st =>
                 0 < Stats.totalMinutes st
                 /\ Stats.hours st * 60 + Stats.minutes st
                    = Stats.totalMinutes st
                 /\ 0 <= Stats.minutes st < 60
                 /\ 0 <= Stats.hours st)
         stats.
Proof.
  intros s episodes stats. unfold stats, Stats.calculateStatsForEpisodes.
  cbv zeta. split; [apply stats_sort_sorted|].
  destruct (minutes_object s episodes) as [D V].
  destruct (stats_of_object
              (snd (Stats.initial_objects (Categories.getCategories s)))
              _ D) as (Dn & M & _).
  split; [exact Dn|].
  apply Forall_forall. intros st I. apply M in I.
  destruct I as (k & v & _ & L & ->). simpl.
  rewrite Z.rem_mod_nonneg by lia.
  pose proof (Z.div_mod v 60 ltac:(lia)).
  pose proof (Z.mod_pos_bound v 60 ltac:(lia)).
  pose proof (Z.div_pos v 60 ltac:(lia) ltac:(lia)).
  repeat split; lia.
Qed.

(** ** Totals *)

Lemma sum_minutes_perm l l' :
  Permutation l l' -> sum_minutes l = sum_minutes l'.
Proof.
  unfold sum_minutes. induction 1; simpl; lia.
Qed.

Lemma sum_values_perm (o o' : Stats.JsObject Z) :
  Permutation o o' -> sum_values o = sum_values o'.
Proof.
  unfold sum_values. induction 1; simpl; lia.
Qed.

Lemma sum_values_set k v o :
  sum_values (Stats.set k v o) = sum_values o + v - value k o.
Proof.
  unfold value. induction o as [|[k0 v0] r IH]; simpl; [lia|].
  unfold sum_values in *.
  destruct (String.eqb k k0); simpl; lia.
Qed.

Lemma initial_objects_sum categories :
  sum_values (fst (Stats.initial_objects categories)) = 0.
Proof.
  unfold Stats.initial_objects.
  assert (G : forall acc : Stats.JsObject Z * Stats.JsObject string,
             sum_values (fst acc) = 0 /\ (forall c, value c (fst acc) = 0) ->
             sum_values
               (fst (fold_left
                       (fun acc cat =>
                          (Stats.set (Categories.id cat) 0 (fst acc),
                           Stats.set (Categories.id cat) (Categories.name cat)
                             (snd acc)))
                       categories acc)) = 0).
  { induction categories as [|cat r IH]; intros acc [S0 Z]; simpl; auto.
    apply IH. simpl. split.
    - rewrite sum_values_set, Z. lia.
    - intros c. destruct (String.eqb_spec c (Categories.id cat)) as [->|N].
      + apply value_set_same.
      + rewrite value_set_other; auto. }
  apply G. split; reflexivity.
Qed.

Lemma count_minutes_sum s episodes : forall o,
  sum_values (Stats.count_minutes s episodes o) =
  sum_values o + categorised_minutes s episodes.
Proof.
  unfold Stats.count_minutes.
  induction episodes as [|e r IH]; intros o; simpl; [lia|].
  destruct (Stats.category_of s e) as [c'|].
  - rewrite IH, sum_values_set. unfold value.
    destruct (Stats.get c' o); rewrite ?or_num_0_r; lia.
  - rewrite IH. lia.
Qed.

Lemma category_minutes_nonneg s c episodes :
  durations_nonnegative episodes -> 0 <= Stats.category_minutes s c episodes.
Proof.
  induction 1 as [|e r He _ IH]; simpl; [lia|].
  assert (0 <= r_duration_ms e / 60000) by (apply Z.div_pos; lia).
  destruct (Stats.category_of s e) as [c'|]; [|lia].
  destruct (String.eqb c' c); lia.
Qed.

Lemma sum_filter_positive l :
  Forall (fun st => 0 <= Stats.totalMinutes st) l ->
  sum_minutes (filter (fun st => 0 <? Stats.totalMinutes st) l) = sum_minutes l.
Proof.
  unfold sum_minutes. induction 1 as [|st r H _ IH]; simpl; auto.
  destruct (Z.ltb_spec 0 (Stats.totalMinutes st)); simpl; lia.
Qed.

Lemma sum_minutes_to_stats names (o : Stats.JsObject Z) :
  sum_minutes (map (Stats.to_stats names) o) = sum_values o.
Proof.
  unfold sum_minutes, sum_values.
  induction o as [|[k v] r IH]; simpl; auto. now rewrite IH.
Qed.

Lemma fold_left_sum {A} (g : A -> Z) l : forall acc,
  fold_left (fun sum x => sum + g x) l acc =
  acc + fold_right (fun x sum => g x + sum) 0 l.
Proof.
  induction l as [|x r IH]; intros acc; simpl; [lia|].
  rewrite IH. lia.
Qed.

Lemma listening_time_fold s episodes : forall acc,
  fold_left
    (fun sum episode =>
       match Stats.category_of s episode with
       | Some _ => sum + r_duration_ms episode / 60000
       | None => sum
       end)
    episodes acc
  = acc + categorised_minutes s episodes.
Proof.
  induction episodes as [|e r IH]; intros acc; simpl; [lia|].
  rewrite IH. destruct (Stats.category_of s e); lia.
Qed.

Lemma sum_of_statistics s episodes :
  durations_nonnegative episodes ->
  sum_minutes (Stats.calculateStatsForEpisodes s episodes) =
  categorised_minutes s episodes.
Proof.
  intros Nn. unfold Stats.calculateStatsForEpisodes. cbv zeta.
  destruct (minutes_object s episodes) as [D V].
  set (o := Stats.count_minutes s episodes _) in *.
  set (names := snd _).
  rewrite (sum_minutes_perm _ _ (stats_sort_perm _ _)).
  rewrite sum_filter_positive.
  - rewrite sum_minutes_to_stats, (sum_values_perm _ _ (entries_perm o)).
    unfold o. rewrite count_minutes_sum, initial_objects_sum. lia.
  - apply Forall_forall. intros st I. apply in_map_iff in I.
    destruct I as ([k v] & <- & I). simpl.
    apply (Permutation_in _ (entries_perm o)) in I.
    apply (In_get _ _ _ D) in I. specialize (V k). unfold value in V.
    rewrite I in V. rewrite V. now apply category_minutes_nonneg.
Qed.

(** X21.  When no episode has a negative duration, the minutes of the
    statistics add up to the whole minutes of all episodes whose show has a
    category, and the total that the dashboard computes from the statistics
    is the total listening time of the service. *)
Theorem statistics_add_up :
  forall (s : Categories.Store) (episodes : list SpotifyEpisode),
    durations_nonnegative episodes ->
    sum_minutes (Stats.calculateStatsForEpisodes s episodes) =
    categorised_minutes s episodes
    /\ Stats.getTotalForPeriod (Stats.calculateStatsForEpisodes s episodes) =
       Stats.getTotalListeningTime s episodes
    /\ Stats.getTotalListeningTime s episodes =
       (categorised_minutes s episodes / 60,
        categorised_minutes s episodes mod 60).
Proof.
  intros s episodes Nn.
  pose proof (sum_of_statistics s episodes Nn) as S.
  assert (T : Stats.getTotalListeningTime s episodes =
              (categorised_minutes s episodes / 60,
               Z.rem (categorised_minutes s episodes) 60)).
  { unfold Stats.getTotalListeningTime. cbv zeta.
    now rewrite listening_time_fold. }
  split; [exact S|]. split.
  - rewrite T. unfold Stats.getTotalForPeriod. cbv zeta.
    rewrite (fold_left_sum Stats.totalMinutes). fold (sum_minutes
      (Stats.calculateStatsForEpisodes s episodes)).
    now rewrite S.
  - rewrite T. f_equal. apply Z.rem_mod_nonneg; [|lia].
    clear S T. induction Nn as [|e r He _ IH]; simpl; [lia|].
    assert (0 <= r_duration_ms e / 60000) by (apply Z.div_pos; lia).
    destruct (Stats.category_of s e); lia.
Qed.

Lemma statistics_add_up_witness :
  sum_minutes (Stats.calculateStatsForEpisodes sample_categories sample_episodes)
  = categorised_minutes sample_categories sample_episodes
  /\ Stats.getTotalForPeriod
       (Stats.calculateStatsForEpisodes sample_categories sample_episodes)
     = Stats.getTotalListeningTime sample_categories sample_episodes
  /\ Stats.getTotalListeningTime sample_categories sample_episodes =
     (categorised_minutes sample_categories sample_episodes / 60,
      categorised_minutes sample_categories sample_episodes mod 60).
Proof.
  apply statistics_add_up.
  unfold durations_nonnegative, sample_episodes.
  repeat constructor; simpl; lia.
Defined.

(** ** Periods *)

Lemma category_minutes_filter s c (f g : SpotifyEpisode -> bool) episodes :
  durations_nonnegative episodes ->
  (forall e, f e = true -> g e = true) ->
  Stats.category_minutes s c (filter f episodes)
  <= Stats.category_minutes s c (filter g episodes).
Proof.
  intros Nn H. induction Nn as [|e r He Nr IH]; simpl; [lia|].
  assert (0 <= r_duration_ms e / 60000) by (apply Z.div_pos; lia).
  assert (0 <= match Stats.category_of s e with
               | Some c' => if String.eqb c' c
                            then r_duration_ms e / 60000 else 0
               | None => 0
               end).
  { destruct (Stats.category_of s e) as [c'|]; [|lia].
    destruct (String.eqb c' c); lia. }
  destruct (f e) eqn:F.
  - rewrite (H e F). simpl. lia.
  - destruct (g e); simpl; lia.
Qed.

Lemma filter_all {A} (l : list A) : filter (fun _ => true) l = l.
Proof. induction l; simpl; congruence. Qed.

(** X22.  When no episode has a negative duration, the statistics of the
    periods are nested: for every category the day shows no more minutes
    than the week, the week no more than the month, and the month no more
    than all time. *)
Theorem periods_are_nested :
  forall (s : Categories.Store) (now : Z) (episodes : list SpotifyEpisode)
         (c : string),
    durations_nonnegative episodes ->
    let p := Stats.calculateStats s now episodes in
    Stats.shown c (Stats.day p) <= Stats.shown c (Stats.week p)
    /\ Stats.shown c (Stats.week p) <= Stats.shown c (Stats.month p)
    /\ Stats.shown c (Stats.month p) <= Stats.shown c (Stats.allTime p).
Proof.
  intros s now episodes c Nn p. unfold p, Stats.calculateStats. cbv zeta.
  simpl Stats.day. simpl Stats.week. simpl Stats.month. simpl Stats.allTime.
  unfold Stats.calculateStatsForPeriod. cbv zeta.
  rewrite !shown_minutes.
  repeat split; apply Z.max_le_compat_l.
  - apply category_minutes_filter; auto.
    intros e H. apply Z.leb_le in H. apply Z.leb_le. lia.
  - apply category_minutes_filter; auto.
    intros e H. apply Z.leb_le in H. apply Z.leb_le. lia.
  - rewrite <- (filter_all episodes) at 2.
    apply category_minutes_filter; auto.
Qed.

Lemma periods_are_nested_witness :
  let p := Stats.calculateStats sample_categories 1700000100000
             sample_episodes in
  Stats.shown "2" (Stats.day p) <= Stats.shown "2" (Stats.week p)
  /\ Stats.shown "2" (Stats.week p) <= Stats.shown "2" (Stats.month p)
  /\ Stats.shown "2" (Stats.month p) <= Stats.shown "2" (Stats.allTime p).
Proof.
  apply periods_are_nested.
  unfold durations_nonnegative, sample_episodes.
  repeat constructor; simpl; lia.
Defined.

(** In the sample, the episode of ninety seconds was played more than a
    month before: all time shows its minute, the month does not. *)
Example sample_periods :
  let p := Stats.calculateStats sample_categories 1700000100000
             sample_episodes in
  (Stats.shown "2" (Stats.day p), Stats.shown "2" (Stats.month p),
   Stats.shown "2" (Stats.allTime p), Stats.shown "3" (Stats.day p),
   Stats.shown "3" (Stats.week p), Stats.shown "3" (Stats.month p))
  = (120, 120, 121, 0, 0, 30).
Proof. reflexivity. Qed.

(** * Steady listening *)

Lemma played_store stamp it p t ls :
  (forall e, record_of (item_id it) ls = Some e ->
             duration_ms e = item_duration_ms it) ->
  played (item_id it) (storeEpisode stamp it p t ls) =
  Z.min (played (item_id it) ls + t) (item_duration_ms it)
  /\ forall e, record_of (item_id it) (storeEpisode stamp it p t ls) = Some e ->
               duration_ms e = item_duration_ms it.
Proof.
  intros D. unfold played, total_of. rewrite record_of_store_same.
  destruct (record_of (item_id it) ls) as [e|] eqn:R; simpl.
  - rewrite (D e eq_refl), or_num_same. split; auto.
    intros e' [= <-]. simpl. now apply D.
  - split; [reflexivity|]. intros e' [= <-]. reflexivity.
Qed.

Lemma played_close_other stamp a t ls k :
  k <> a ->
  played k (updateSessionEnd stamp a t ls) = played k ls
  /\ record_of k (updateSessionEnd stamp a t ls) = record_of k ls.
Proof.
  intros N. unfold played. rewrite total_close_other by assumption.
  split; auto. now apply record_of_close_other.
Qed.

(** One tick that sees the episode playing. *)
Lemma played_tick i st it p :
  snapshot (response i) = Playing it p ->
  (forall e, record_of (item_id it) (localStorage st) = Some e ->
             duration_ms e = item_duration_ms it) ->
  played (item_id it) (localStorage (tick i st)) =
  Z.min (played (item_id it) (localStorage st) + (now i - lastPollTime st))
    (item_duration_ms it)
  /\ (forall e, record_of (item_id it) (localStorage (tick i st)) = Some e ->
                duration_ms e = item_duration_ms it)
  /\ lastPollTime (tick i st) = now i.
Proof.
  intros S D. split; [|split; [|apply tick_service_fields]];
    rewrite tick_eq; cbv zeta; rewrite S, localStorage_set_episode;
    unfold end_previous; rewrite active_set_poll, localStorage_set_poll.
  - destruct (active st) as [a|]; [|now apply played_store].
    destruct (String.eqb_spec a (item_id it)) as [E|N];
      [now apply played_store|].
    destruct (played_close_other (stamp i) a (now i - lastPollTime st)
                (localStorage st) (item_id it)) as [P R]; [congruence|].
    rewrite <- P. apply played_store. now rewrite R.
  - destruct (active st) as [a|]; [|now apply played_store].
    destruct (String.eqb_spec a (item_id it)) as [E|N];
      [now apply played_store|].
    destruct (played_close_other (stamp i) a (now i - lastPollTime st)
                (localStorage st) (item_id it)) as [P R]; [congruence|].
    apply played_store. now rewrite R.
Qed.

Lemma steady_ticks x dur l : forall st,
  all_playing x dur l ->
  in_order (lastPollTime st) l ->
  (forall e, record_of x (localStorage st) = Some e -> duration_ms e = dur) ->
  l <> [] ->
  played x (localStorage (ticks l st)) =
  Z.min (played x (localStorage st)
         + (last_now (lastPollTime st) l - lastPollTime st))
    dur.
Proof.
  unfold ticks, last_now.
  induction l as [|i r IH]; intros st A O D Ne; [congruence|].
  inversion A as [|? ? (it & p & S & Ex & Ed) Ar]; subst.
  destruct O as [L O]. simpl.
  destruct (played_tick i st it p S D) as (P & D' & T).
  destruct r as [|j r'].
  - simpl. exact P.
  - rewrite IH; auto; try (rewrite T; auto); [|discriminate].
    rewrite P.
    assert (G : forall T0, in_order T0 (j :: r') ->
                  T0 <= fold_left (fun _ i0 => now i0) (j :: r') T0).
    { clear. intros T0. generalize (j :: r'). intros l. revert T0.
      induction l as [|k t IHl]; intros T0; simpl; [lia|].
      intros [L O]. specialize (IHl (now k) O). lia. }
    specialize (G (now i) O).
    set (E := fold_left (fun _ i0 => now i0) (j :: r') (now i)) in *.
    change (fold_left (fun _ i0 => now i0) (j :: r') (lastPollTime st))
      with (fold_left (fun _ i0 => now i0) r' (now j)).
    change E with (fold_left (fun _ i0 => now i0) r' (now j)) in *.
    lia.
Qed.

(** X23.  While one episode plays tick after tick, its accumulated time
    grows by the time of the clock between the poll before the first of the
    ticks and the last of them, up to the duration: after the ticks it is
    the smaller of the duration and the time it had plus the time that went
    by.  Which episode was active before does not matter. *)
Theorem steady_listening_is_counted :
  forall (x : string) (dur : Z) (l : list TickInput) (st : State),
    l <> [] ->
    all_playing x dur l ->
    in_order (lastPollTime st) l ->
    (forall e, record_of x (localStorage st) = Some e -> duration_ms e = dur) ->
    total_of x (localStorage (ticks l st)) =
    Some (Z.min (played x (localStorage st)
                 + (last_now (lastPollTime st) l - lastPollTime st))
            dur).
Proof.
  intros x dur l st Ne A O D.
  pose proof (steady_ticks x dur l st A O D Ne) as P.
  unfold played at 1 in P.
  destruct (total_of x (localStorage (ticks l st))) as [t|] eqn:T;
    [now rewrite P|].
  exfalso. clear P. unfold ticks in T.
  destruct l as [|i r] using rev_ind; [congruence|].
  rewrite fold_left_app in T. simpl in T.
  apply Forall_app in A. destruct A as [_ A].
  inversion A as [|? ? (it & p & S & Ex & Ed) _]; subst.
  rewrite tick_eq in T. cbv zeta in T. rewrite S in T.
  rewrite localStorage_set_episode in T.
  unfold total_of in T. rewrite record_of_store_same in T. discriminate.
Qed.

Lemma steady_listening_is_counted_witness :
  total_of "x"
    (localStorage
       (ticks [at_second 20 (plays (episode "x" 60000 None) 10000);
               at_second 30 (plays (episode "x" 60000 None) 20000);
               at_second 40 (plays (episode "x" 60000 None) 30000)]
          (run first_tick_run (init no_storage))))
  = Some (Z.min (played "x" (localStorage (run first_tick_run (init no_storage)))
                 + (last_now (lastPollTime (run first_tick_run (init no_storage)))
                      [at_second 20 (plays (episode "x" 60000 None) 10000);
                       at_second 30 (plays (episode "x" 60000 None) 20000);
                       at_second 40 (plays (episode "x" 60000 None) 30000)]
                    - lastPollTime (run first_tick_run (init no_storage))))
            60000).
Proof.
  apply steady_listening_is_counted.
  - discriminate.
  - repeat constructor; eexists; eexists; repeat split; reflexivity.
  - simpl. lia.
  - intros e H. vm_compute in H. inversion H; subst. reflexivity.
Defined.

(** * The podcast list *)

Lemma groupedEpisodes_snoc l e :
  PodcastList.groupedEpisodes (l ++ [e]) =
  PodcastList.add_episode (PodcastList.groupedEpisodes l) e.
Proof. unfold PodcastList.groupedEpisodes. now rewrite fold_left_app. Qed.

Lemma of_show_snoc k l e :
  of_show k (l ++ [e]) =
  of_show k l ++ (if String.eqb (show_id (r_show e)) k then [e] else []).
Proof. unfold of_show. rewrite filter_app. reflexivity. Qed.

Lemma of_show_id k l e : In e (of_show k l) -> show_id (r_show e) = k.
Proof.
  unfold of_show. intros I. apply filter_In in I. destruct I as [_ E].
  now apply String.eqb_eq.
Qed.

(** The group of a show is made of its episodes. *)
Lemma grouped_get l : forall k,
  Stats.get k (PodcastList.groupedEpisodes l) = group_of (of_show k l).
Proof.
  induction l as [|e l IH] using rev_ind; intros k; [reflexivity|].
  rewrite groupedEpisodes_snoc, of_show_snoc.
  unfold PodcastList.add_episode. cbv zeta.
  set (o := PodcastList.groupedEpisodes l) in *.
  set (s := show_id (r_show e)).
  pose proof (IH s) as Hs.
  destruct (Stats.get s o) as [g|] eqn:G.
  - rewrite G.
    destruct (String.eqb_spec s k) as [<-|N].
    + rewrite get_set_same.
      destruct (of_show s l) as [|e0 r]; [discriminate|].
      simpl in Hs. injection Hs as ->. reflexivity.
    + rewrite get_set_other by congruence. rewrite app_nil_r. apply IH.
  - rewrite get_set_same. simpl.
    destruct (String.eqb_spec s k) as [<-|N].
    + rewrite get_set_same.
      destruct (of_show s l) as [|e0 r]; [reflexivity|discriminate].
    + rewrite !get_set_other by congruence. rewrite app_nil_r. apply IH.
Qed.

Lemma flat_set_new k g o :
  Stats.get k o = None -> flat (Stats.set k g o) = flat o ++ PodcastList.episodes g.
Proof.
  unfold flat. induction o as [|[k0 v0] r IH]; simpl.
  - intros _. now rewrite app_nil_r.
  - destruct (String.eqb_spec k k0) as [->|N]; [discriminate|].
    intros G. simpl. rewrite IH by assumption. now rewrite app_assoc.
Qed.

Lemma flat_set_push k g g0 x o :
  Stats.get k o = Some g0 ->
  PodcastList.episodes g = PodcastList.episodes g0 ++ x ->
  Permutation (flat (Stats.set k g o)) (flat o ++ x).
Proof.
  unfold flat. intros G E. induction o as [|[k0 v0] r IH]; simpl in *;
    [discriminate|].
  destruct (String.eqb_spec k k0) as [->|N]; simpl.
  - injection G as ->. rewrite E, <- !app_assoc.
    apply Permutation_app_head, Permutation_app_comm.
  - rewrite <- app_assoc. apply Permutation_app_head. now apply IH.
Qed.

Lemma grouped_flat l : Permutation (flat (PodcastList.groupedEpisodes l)) l.
Proof.
  induction l as [|e l IH] using rev_ind; [constructor|].
  rewrite groupedEpisodes_snoc. unfold PodcastList.add_episode. cbv zeta.
  set (o := PodcastList.groupedEpisodes l) in *.
  set (s := show_id (r_show e)).
  destruct (Stats.get s o) as [g|] eqn:G.
  - rewrite G.
    rewrite (flat_set_push s
               (PodcastList.mkGroup (PodcastList.show g)
                  (PodcastList.episodes g ++ [e])) g [e] o G eq_refl).
    now apply Permutation_app_tail.
  - rewrite get_set_same.
    rewrite (flat_set_push s
               (PodcastList.mkGroup (r_show e) ([] ++ [e]))
               (PodcastList.mkGroup (r_show e) []) [e] _
               (get_set_same _ _ _) eq_refl).
    rewrite flat_set_new by assumption. simpl. rewrite app_nil_r.
    now apply Permutation_app_tail.
Qed.

Lemma grouped_keys l : NoDup (map fst (PodcastList.groupedEpisodes l)).
Proof.
  induction l as [|e l IH] using rev_ind; [constructor|].
  rewrite groupedEpisodes_snoc. unfold PodcastList.add_episode. cbv zeta.
  set (o := PodcastList.groupedEpisodes l) in *.
  set (s := show_id (r_show e)).
  destruct (Stats.get s o) as [g|] eqn:G.
  - rewrite G. now apply NoDup_keys_set.
  - rewrite get_set_same. now apply NoDup_keys_set, NoDup_keys_set.
Qed.

Lemma grouped_entry l k g :
  In (k, g) (PodcastList.groupedEpisodes l) ->
  group_of (of_show k l) = Some g /\ show_id (PodcastList.show g) = k.
Proof.
  intros I. apply In_get in I; [|apply grouped_keys].
  rewrite grouped_get in I. split; [exact I|].
  destruct (of_show k l) as [|e0 r] eqn:O; [discriminate|].
  simpl in I. injection I as <-. simpl.
  apply (of_show_id k l). rewrite O. now left.
Qed.

(** X24.  The list of podcasts shows one card for each show of the
    episodes: a card holds the episodes of its show, all of them and in
    the order of the list, under the show of the first of them; no two cards
    are of the same show, and together the cards hold each episode of the
    list once. *)
Theorem episodes_are_grouped_by_show :
  forall l : list SpotifyEpisode,
    Forall (fun g =>
              group_of (of_show (show_id (PodcastList.show g)) l) = Some g)
      (PodcastList.cards l)
    /\ NoDup (map (fun g => show_id (PodcastList.show g)) (PodcastList.cards l))
    /\ Permutation (List.concat (map PodcastList.episodes (PodcastList.cards l))) l.
Proof.
  intros l. unfold PodcastList.cards.
  pose proof (entries_perm (PodcastList.groupedEpisodes l)) as P.
  assert (K : forall kv, In kv (PodcastList.groupedEpisodes l) ->
                show_id (PodcastList.show (snd kv)) = fst kv
                /\ group_of (of_show (fst kv) l) = Some (snd kv)).
  { intros [k g] I. simpl. destruct (grouped_entry l k g I). auto. }
  split; [|split].
  - apply Forall_forall. intros g I. apply in_map_iff in I.
    destruct I as (kv & <- & I).
    apply (Permutation_in _ P) in I. destruct (K kv I) as [-> G]. exact G.
  - rewrite map_map.
    apply (Permutation_NoDup
             (Permutation_map (fun kv => show_id (PodcastList.show (snd kv)))
                (Permutation_sym P))).
    rewrite (map_ext_in _ fst); [apply grouped_keys|].
    intros kv I. now apply K.
  - rewrite map_map.
    transitivity (flat (PodcastList.groupedEpisodes l)); [|apply grouped_flat].
    unfold flat. rewrite <- !flat_map_concat_map.
    now apply Permutation_flat_map.
Qed.

(** ** The bars of the dashboard *)

Lemma fold_max_ge l : forall m, m <= fold_left Z.max l m.
Proof.
  induction l as [|x r IH]; intros m; simpl; [lia|].
  specialize (IH (Z.max m x)). lia.
Qed.

Lemma fold_max_In l : forall m x, In x l -> x <= fold_left Z.max l m.
Proof.
  induction l as [|y r IH]; intros m x; simpl; [tauto|].
  intros [->|I]; [|now apply IH].
  pose proof (fold_max_ge r (Z.max m x)). lia.
Qed.

Lemma fold_max_below l : forall m,
  Forall (fun x => x <= m) l -> fold_left Z.max l m = m.
Proof.
  induction l as [|y r IH]; intros m F; simpl; [reflexivity|].
  inversion F; subst. rewrite Z.max_l by assumption. now apply IH.
Qed.

(** X25.  In the dashboard of the statistics of any episodes, the number
    that the bars are divided by is positive; it is the number of minutes
    of the first category shown, and no category has more minutes than it:
    every bar is more than nothing and at most full. *)
Theorem bars_are_scaled_by_the_first :
  forall (s : Categories.Store) (episodes : list SpotifyEpisode),
    let stats := Stats.calculateStatsForEpisodes s episodes in
    0 < PodcastList.getMaxMinutes stats
    /\ PodcastList.getMaxMinutes stats =
       match stats with
       | [] => 1
       | first :: _ => Stats.totalMinutes first
       end
    /\ Forall (fun st =>
                 0 < Stats.totalMinutes st <= PodcastList.getMaxMinutes stats)
         stats.
Proof.
  intros s episodes stats.
  assert (Sorted : StronglySorted most_minutes_first stats)
    by apply stats_sort_sorted.
  assert (Pos : Forall (fun st => 0 < Stats.totalMinutes st) stats).
  { unfold stats, Stats.calculateStatsForEpisodes. cbv zeta.
    destruct (minutes_object s episodes) as [D V].
    destruct (stats_of_object
                (snd (Stats.initial_objects (Categories.getCategories s)))
                _ D) as (_ & M & _).
    apply Forall_forall. intros st I. apply M in I.
    destruct I as (k & v & _ & L & ->). exact L. }
  clearbody stats. unfold PodcastList.getMaxMinutes.
  destruct stats as [|first r]; simpl.
  - split; [lia | split; [reflexivity | constructor]].
  - inversion Sorted as [|? ? _ F]; subst.
    inversion Pos as [|? ? P0 Pr]; subst.
    assert (E : fold_left Z.max (map Stats.totalMinutes r)
                  (Stats.totalMinutes first) = Stats.totalMinutes first).
    { apply fold_max_below. apply Forall_map.
      revert F. apply Forall_impl. intros a H. exact H. }
    rewrite E. split; [exact P0|]. split; [reflexivity|].
    constructor; [lia|].
    apply Forall_forall. intros st I.
    rewrite Forall_forall in F, Pr.
    specialize (F st I). specialize (Pr st I).
    unfold most_minutes_first in F. lia.
Qed.

(** * The dates of a record *)

Lemma starts_update_last f ss :
  (forall s, started_at (f s) = started_at s) ->
  map started_at (update_last f ss) = map started_at ss.
Proof.
  intros F. induction ss as [|s r IH]; [reflexivity|].
  destruct r as [|s' r']; simpl in *; [now rewrite F|].
  now rewrite IH.
Qed.

Lemma starts_stored stamp it p t e :
  exists added,
    starts (stored_record stamp it p t (Some e)) = starts e ++ added.
Proof.
  unfold starts. simpl. destruct (ongoing e).
  - exists []. rewrite app_nil_r. now apply starts_update_last.
  - exists [stamp]. now rewrite map_app.
Qed.

Lemma starts_closed stamp t e : starts (closed_record stamp t e) = starts e.
Proof. unfold starts. simpl. now apply starts_update_last. Qed.

Lemma keeps_dates_refl ls : keeps_dates ls ls.
Proof.
  split; auto. intros k e R. exists e. repeat split; auto.
  exists []. now rewrite app_nil_r.
Qed.

Lemma keeps_dates_trans a b c :
  keeps_dates a b -> keeps_dates b c -> keeps_dates a c.
Proof.
  intros [D1 B1] [D2 B2]. split; auto.
  intros k e R. destruct (D1 k e R) as (e1 & R1 & F1 & P1 & x & S1).
  destruct (D2 k e1 R1) as (e2 & R2 & F2 & P2 & y & S2).
  exists e2. repeat split; try congruence.
  exists (x ++ y). now rewrite S2, S1, app_assoc.
Qed.

Lemma born_stored stamp it p t o :
  (forall e, o = Some e -> born e) -> born (stored_record stamp it p t o).
Proof.
  destruct o as [e|]; intros B.
  - destruct (B e eq_refl) as [P (later & S)].
    destruct (starts_stored stamp it p t e) as (added & A).
    split; [exact P|]. exists (later ++ added).
    rewrite A, S. reflexivity.
  - split; [reflexivity|]. exists []. reflexivity.
Qed.

Lemma keeps_dates_store stamp it p t ls :
  keeps_dates ls (storeEpisode stamp it p t ls).
Proof.
  split.
  - intros k e R. destruct (String.eqb_spec k (item_id it)) as [->|N].
    + rewrite record_of_store_same, R. eexists. split; [reflexivity|].
      repeat split. apply starts_stored.
    + rewrite record_of_store_other by assumption. exists e.
      repeat split; auto. exists []. now rewrite app_nil_r.
  - intros B k e R. destruct (String.eqb_spec k (item_id it)) as [->|N].
    + rewrite record_of_store_same in R. injection R as <-.
      apply born_stored. intros e E. now apply (B (item_id it)).
    + rewrite record_of_store_other in R by assumption. now apply (B k).
Qed.

Lemma keeps_dates_close stamp a t ls :
  keeps_dates ls (updateSessionEnd stamp a t ls).
Proof.
  split.
  - intros k e R. destruct (String.eqb_spec k a) as [->|N].
    + rewrite record_of_close_same, R. simpl. eexists. split; [reflexivity|].
      destruct (ongoing e); repeat split;
        exists []; rewrite app_nil_r; auto using starts_closed.
    + rewrite record_of_close_other by assumption. exists e.
      repeat split; auto. exists []. now rewrite app_nil_r.
  - intros B k e R. destruct (String.eqb_spec k a) as [->|N].
    + rewrite record_of_close_same in R.
      destruct (record_of a ls) as [e0|] eqn:R0; [|discriminate].
      simpl in R. injection R as <-.
      specialize (B a e0 R0). destruct (ongoing e0); auto.
      destruct B as [P (later & S)]. split; [exact P|].
      exists later. now rewrite starts_closed.
    + rewrite record_of_close_other in R by assumption. now apply (B k).
Qed.

Lemma keeps_dates_run evs st :
  keeps_dates (localStorage st) (localStorage (run evs st)).
Proof.
  apply run_lift; auto using keeps_dates_refl, keeps_dates_store,
    keeps_dates_close.
  apply keeps_dates_trans.
Qed.

(** X26.  The dates of the first play of a record are written once: in
    any course of events, a record keeps its [first_played_at] and its
    [played_at], and the starts of its sessions; later sessions are added
    after them.  In a ledger that the service has built from nothing, every
    record has a first session, begun at the [first_played_at] of the
    record, which is also its [played_at]. *)
Theorem first_play_is_written_once :
  forall (evs : list Event) (st : State),
    dates_kept (localStorage st) (localStorage (run evs st))
    /\ (stored (localStorage st) = None ->
        born_ledger (localStorage (run evs st))).
Proof.
  intros evs st. destruct (keeps_dates_run evs st) as [D B].
  split; [exact D|]. intros E. apply B.
  intros k e R. unfold record_of, ledger_of in R. rewrite E in R.
  discriminate.
Qed.
